(** * Constraint violation detection and repair generation

    A shallow embedding of the JavaScript utilities
    [utils/violationChecker.js] ([validateDataType],
    [checkForeignKeyViolations], [checkViolations]),
    [utils/repairGenerator.js] ([generatePrimaryKeyRepairs],
    [generatePartialRepairs], [generateGeneralRepairs]) and
    [utils/editUtils.js] ([updateViolationsAfterDelete]), followed by the
    properties established about them.

    Conventions of the embedding:
    - a cell value is a tagged [Value]: null, undefined, a text, a number,
      a boolean, or one of the objects every row inherits from
      [Object.prototype]; a number is given by the text [String] prints
      for it, which is all the code ever asks of a number;
    - a string is a sequence of code units below 256;
    - a row object is an association list in own-property order, [r.[c]]
      is the property read [row[col]]: the row's own property when it has
      one, and what [Object.prototype] holds under that name otherwise;
    - row objects have an identity where the source asks for it
      ([indexOf]): such a table is a list of references into a store;
    - a [Set] is a [gset], a [Map] a [gmap]; where the source iterates a
      [Set] the insertion order is kept in a list;
    - [forEach] loops that mutate a closure variable are recursive
      functions that thread the variable. *)

From Stdlib Require Import ZArith String Ascii List Lia Permutation.
From stdpp Require Import base decidable option list strings gmap sets pretty sorting.

(* The solvers clear hypotheses by name and warn when one is gone already. *)
Set Warnings "-clear-no-such-hyp".

(** ** JavaScript primitives *)

Module Js.

(** ECMAScript WhiteSpace and LineTerminator code units below 256. *)
Definition isWhiteSpace (c : ascii) : bool :=
  bool_decide (nat_of_ascii c ∈ [9; 10; 11; 12; 13; 32; 160]).

Fixpoint trimStart (s : string) : string :=
  match s with
  | String c s' => if isWhiteSpace c then trimStart s' else s
  | EmptyString => EmptyString
  end.

Definition trimEnd (s : string) : string :=
  String.rev (trimStart (String.rev s)).

(** [s.trim()] *)
Definition trim (s : string) : string := trimEnd (trimStart s).

(** [s.includes(sub)] *)
Fixpoint includes (s sub : string) : bool :=
  String.prefix sub s ||
  match s with
  | String _ s' => includes s' sub
  | EmptyString => false
  end.

Definition upperChar (c : ascii) : ascii :=
  let n := nat_of_ascii c in
  if (97 <=? n) && (n <=? 122) then ascii_of_nat (n - 32) else c.

Definition lowerChar (c : ascii) : ascii :=
  let n := nat_of_ascii c in
  if (65 <=? n) && (n <=? 90) then ascii_of_nat (n + 32) else c.

Fixpoint mapChars (f : ascii → ascii) (s : string) : string :=
  match s with
  | String c s' => String (f c) (mapChars f s')
  | EmptyString => EmptyString
  end.

(** [s.toUpperCase()] and [s.toLowerCase()] on the letters a-z and A-Z.
    Code units from 128 up are left as they are, where the source maps
    some of them (e with an accent to its capital, sharp s to SS). The
    checks only compare the result with literals made of ASCII letters,
    and no code unit from 128 up maps into such a literal, so they come
    out the same; where the result itself is returned ([normalizeType])
    the model is that of the source for ASCII names. *)
Definition toUpperCase : string → string := mapChars upperChar.
Definition toLowerCase : string → string := mapChars lowerChar.

(** The regular-expression class [\d]. *)
Definition isDigit (c : ascii) : bool :=
  let n := nat_of_ascii c in (48 <=? n) && (n <=? 57).

Fixpoint allDigits (s : string) : bool :=
  match s with
  | String c s' => isDigit c && allDigits s'
  | EmptyString => true
  end.

Definition nonEmpty (s : string) : bool :=
  match s with EmptyString => false | _ => true end.

(** [/^-?\d+$/.test(t)] *)
Definition testInteger (t : string) : bool :=
  match t with
  | String "-" ds => nonEmpty ds && allDigits ds
  | _ => nonEmpty t && allDigits t
  end.

Fixpoint digitsValue (acc : Z) (s : string) : Z :=
  match s with
  | String c s' => digitsValue (10 * acc + (Z.of_nat (nat_of_ascii c) - 48)) s'
  | EmptyString => acc
  end.

(** The integer denoted by a text accepted by [testInteger]. *)
Definition integerValue (t : string) : Z :=
  match t with
  | String "-" ds => - digitsValue 0 ds
  | _ => digitsValue 0 t
  end.

(** Decimal literals at or above this magnitude round to [Infinity]
    (halfway between the largest double and 2^1024). *)
Definition overflowThreshold : Z := 2 ^ 1024 - 2 ^ 970.

(** [isFinite(parseFloat(t))] for a text accepted by [testInteger]:
    [parseFloat] reads the whole literal and rounds it to the nearest
    double. *)
Definition parsesFinite (t : string) : bool :=
  (Z.abs (integerValue t) <? overflowThreshold)%Z.

(** The double quote character, for message templates. *)
Definition dquote : string := String "034" EmptyString.

(** [xs.join(sep)] on an array of strings. *)
Fixpoint join (sep : string) (xs : list string) : string :=
  match xs with
  | [] => ""
  | [x] => x
  | x :: xs' => x +:+ sep +:+ join sep xs'
  end.

(** What a call either does: it returns, or it throws a [TypeError]. *)
Inductive Completion (A : Type) : Type :=
| Returns (a : A)
| Throws.
Global Arguments Returns {A} a.
Global Arguments Throws {A}.

(** A possibly missing array argument. *)
Inductive Arg (A : Type) : Type :=
| Null
| Undefined
| Array (xs : list A).
Global Arguments Null {A}.
Global Arguments Undefined {A}.
Global Arguments Array {A} xs.

End Js.

(** ** Data model *)

(** A cell value. [VNum t] is the number that [String] prints as [t]:
    [VNum "25"], [VNum "0.5"], [VNum "1e+21"], [VNum "NaN"]; a text that
    no number prints, such as 007 or twenty-two digits in a row, stands
    for no number. The code reads a number only through its text and
    through identity, and two numbers are the same value for a [Set]
    exactly when they print alike (0 and -0 both print 0).
    [VFunction name] is the native function of that
    name and [VPrototype] is [Object.prototype] itself: what a read finds
    when the row has no property of its own under an inherited name. *)
Inductive Value : Type :=
| VNull
| VUndefined
| VStr (s : string)
| VNum (text : string)
| VBool (b : bool)
| VFunction (name : string)
| VPrototype.

Global Instance Value_eq_dec : EqDecision Value.
Proof. solve_decision. Defined.

Definition Value_to_sum (v : Value) : unit + unit + string + string + bool + string + unit :=
  match v with
  | VNull => inl (inl (inl (inl (inl (inl ())))))
  | VUndefined => inl (inl (inl (inl (inl (inr ())))))
  | VStr s => inl (inl (inl (inl (inr s))))
  | VNum t => inl (inl (inl (inr t)))
  | VBool b => inl (inl (inr b))
  | VFunction name => inl (inr name)
  | VPrototype => inr ()
  end.

Definition Value_of_sum (x : unit + unit + string + string + bool + string + unit) : Value :=
  match x with
  | inl (inl (inl (inl (inl (inl _))))) => VNull
  | inl (inl (inl (inl (inl (inr _))))) => VUndefined
  | inl (inl (inl (inl (inr s)))) => VStr s
  | inl (inl (inl (inr t))) => VNum t
  | inl (inl (inr b)) => VBool b
  | inl (inr name) => VFunction name
  | inr _ => VPrototype
  end.

Global Instance Value_countable : Countable Value.
Proof.
  apply (inj_countable' Value_to_sum Value_of_sum).
  by intros [].
Defined.

(** [String(v)], also the text a template literal substitutes for [v]. *)
Definition toText (v : Value) : string :=
  match v with
  | VNull => "null"
  | VUndefined => "undefined"
  | VStr s => s
  | VNum t => t
  | VBool b => if b then "true" else "false"
  | VFunction name => "function " +:+ name +:+ "() { [native code] }"
  | VPrototype => "[object Object]"
  end.

(** [v === '' || v == null] *)
Definition isEmpty (v : Value) : bool :=
  match v with
  | VNull | VUndefined => true
  | VStr s => negb (Js.nonEmpty s)
  | _ => false
  end.

(** What [Array.prototype.join] prints for an element. *)
Definition joinText (v : Value) : string :=
  match v with
  | VNull | VUndefined => ""
  | _ => toText v
  end.

(** [v === w]: identity of the value, which [NaN] lacks. *)
Definition strictEquals (v w : Value) : bool :=
  bool_decide (v = w) && negb (bool_decide (v = VNum "NaN")).

(** The property names every object inherits from [Object.prototype]:
    read on an object literal they are truthy and have no [push]. *)
Definition inheritedNames : list string :=
  ["constructor"; "__defineGetter__"; "__defineSetter__"; "hasOwnProperty";
   "__lookupGetter__"; "__lookupSetter__"; "isPrototypeOf";
   "propertyIsEnumerable"; "toString"; "valueOf"; "__proto__"; "toLocaleString"].

(** What a read finds on [Object.prototype]: [constructor] is the
    function [Object], [__proto__] gives the prototype of the row, which
    is [Object.prototype], and the other names are functions called as
    they are named. *)
Definition inherited (name : string) : Value :=
  if decide (name = "constructor") then VFunction "Object"
  else if decide (name = "__proto__") then VPrototype
  else if bool_decide (name ∈ inheritedNames) then VFunction name
  else VUndefined.

Definition Row : Type := list (string * Value).

(** [row[c]] on a plain object: the own property, else the inherited
    one. *)
Fixpoint get (r : Row) (c : string) : Value :=
  match r with
  | [] => inherited c
  | (k, v) :: r' => if decide (k = c) then v else get r' c
  end.

Notation "r .[ c ]" := (get r c) (at level 1, left associativity, format "r .[ c ]").

(** [Object.keys(row)] and [Object.values(row)] *)
Definition keys (r : Row) : list string := r.*1.
Definition values (r : Row) : list Value := r.*2.

(** A table as the parsers build it: every row has the columns of the
    first, each once. *)
Definition wfRow (r : Row) : Prop := NoDup (keys r).
Definition uniform (tableData : list Row) : Prop :=
  ∀ r, r ∈ tableData → keys r = keys (hd [] tableData).
Definition wfTable (tableData : list Row) : Prop :=
  uniform tableData ∧ ∀ r, r ∈ tableData → wfRow r.

Inductive ViolationKind : Type :=
| PRIMARY_KEY
| UNIQUE
| NOT_NULL
| TYPE_MISMATCH
| FOREIGN_KEY.

Global Instance ViolationKind_eq_dec : EqDecision ViolationKind.
Proof. solve_decision. Defined.

Record Violation : Type := mkViolation {
  row : Z;                 (* 1-based *)
  col : string;
  type : ViolationKind;
  msg : string;
  value : option Value
}.

Global Instance Violation_eq_dec : EqDecision Violation.
Proof. solve_decision. Defined.

Module FileTable.
Record t : Type := mk { columns : list string; rows : list Row }.
End FileTable.

Record ForeignKeyConfig : Type := mkForeignKeyConfig {
  primaryFile : string;
  fkCol : string;
  referencedFile : string
}.

(** The two validators whose outcome is a matter of floating point or of
    the host's date parser. *)
Class Runtime : Type := {
  (** [!isNaN(parseFloat(t)) && isFinite(t)] *)
  numericText : string → bool;
  (** [!isNaN(Date.parse(t))] *)
  dateText : string → bool
}.

(** [forEach] over an array, collecting what the callback pushes. *)
Fixpoint forEachFrom {A B : Type} (f : nat → A → list B) (i : nat) (xs : list A) : list B :=
  match xs with
  | [] => []
  | x :: xs' => f i x ++ forEachFrom f (S i) xs'
  end.

(** [xs.filter((x, idx) => p(idx, x))], each survivor paired with its
    index in [xs]. *)
Fixpoint filterWithIndex {A : Type} (p : nat → A → bool) (i : nat) (xs : list A)
    : list (nat * A) :=
  match xs with
  | [] => []
  | x :: xs' =>
      if p i x then (i, x) :: filterWithIndex p (S i) xs' else filterWithIndex p (S i) xs'
  end.

(** [new Set(xs)] as the sequence its iteration yields: first
    occurrences, in order. *)
Definition setOrder {A : Type} `{EqDecision A} (xs : list A) : list A :=
  reverse (remove_dups (reverse xs)).

(** [x || fallback] on a possibly missing string. *)
Definition orElse (x : option string) (fallback : string) : string :=
  match x with
  | Some s => if Js.nonEmpty s then s else fallback
  | None => fallback
  end.

(** ** violationChecker.js *)

Section Checker.
Context `{rt : Runtime}.

(** The [switch] on [sqlType?.toUpperCase()]. In the integer case the
    source tests [!isNaN(num) && isFinite(num) && Number.isInteger(num)]
    on [num = parseFloat(trimmedVal)] before the regular expression; on
    text the expression accepts, [num] is a number, and an integer as soon
    as it is finite. *)
Definition validateDataType (val : Value) (sqlType : string) : bool :=
  if isEmpty val then true
  else
    let trimmedVal := Js.trim (toText val) in
    if negb (Js.nonEmpty trimmedVal) then true
    else
      let ty := Js.toUpperCase sqlType in
      if bool_decide (ty ∈ ["INT"; "INTEGER"; "BIGINT"]) then
        Js.parsesFinite trimmedVal && Js.testInteger trimmedVal
      else if bool_decide (ty ∈ ["FLOAT"; "DOUBLE"; "DECIMAL"; "NUMERIC"]) then
        numericText trimmedVal
      else if bool_decide (ty ∈ ["BOOLEAN"; "BOOL"]) then
        bool_decide (Js.toLowerCase trimmedVal ∈ ["true"; "false"; "1"; "0"; "yes"; "no"])
      else if bool_decide (ty ∈ ["DATE"; "DATETIME"; "TIMESTAMP"]) then
        dateText trimmedVal
      else true.

(** The trimmed, non-empty values of the referenced key column. *)
Fixpoint primarySet (primaryRows : list Row) (pkCol : string) : gset string :=
  match primaryRows with
  | [] => ∅
  | r :: rest =>
      let val := r.[pkCol] in
      if isEmpty val then primarySet rest pkCol
      else {[ Js.trim (toText val) ]} ∪ primarySet rest pkCol
  end.

(** [pkCol] is [None] when the caller passes [null]. *)
Definition checkForeignKeyViolations
    (foreignRows primaryRows : list Row) (fkCol : string) (pkCol : option string)
    : list Violation :=
  match pkCol with
  | None => []
  | Some pkCol =>
      if negb (Js.nonEmpty fkCol) || negb (Js.nonEmpty pkCol) then []
      else
        let known := primarySet primaryRows pkCol in
        forEachFrom (λ i r,
          let fkVal := r.[fkCol] in
          if isEmpty fkVal then []
          else if decide (Js.trim (toText fkVal) ∈ known) then []
          else [ {| row := Z.of_nat i + 1; col := fkCol; type := FOREIGN_KEY;
                    value := Some fkVal;
                    msg := "Value '" +:+ toText fkVal +:+ "' not found in primary key column" |} ])
          0 foreignRows
  end.

Definition typePass (tableData : list Row) (c dataType : string) : list Violation :=
  forEachFrom (λ i r,
    let val := r.[c] in
    if validateDataType val dataType then []
    else [ {| row := Z.of_nat i + 1; col := c; type := TYPE_MISMATCH; value := None;
              msg := "Type mismatch: expected " +:+ dataType +:+ ", got "
                     +:+ Js.dquote +:+ toText val +:+ Js.dquote |} ])
    0 tableData.

Fixpoint primaryPass (c : string) (i : nat) (seen : gset Value) (rows : list Row)
    : list Violation :=
  match rows with
  | [] => []
  | r :: rest =>
      let val := r.[c] in
      if isEmpty val then
        {| row := Z.of_nat i + 1; col := c; type := PRIMARY_KEY; value := None;
           msg := "Null/empty value" |} :: primaryPass c (S i) seen rest
      else if decide (val ∈ seen) then
        {| row := Z.of_nat i + 1; col := c; type := PRIMARY_KEY; value := None;
           msg := "Duplicate value" |} :: primaryPass c (S i) seen rest
      else primaryPass c (S i) ({[ val ]} ∪ seen) rest
  end.

Fixpoint uniquePass (c : string) (i : nat) (seen : gset Value) (rows : list Row)
    : list Violation :=
  match rows with
  | [] => []
  | r :: rest =>
      let val := r.[c] in
      if negb (isEmpty val) then
        if decide (val ∈ seen) then
          {| row := Z.of_nat i + 1; col := c; type := UNIQUE; value := None;
             msg := "Duplicate value" |} :: uniquePass c (S i) seen rest
        else uniquePass c (S i) ({[ val ]} ∪ seen) rest
      else uniquePass c (S i) seen rest
  end.

Definition notNullPass (tableData : list Row) (c : string) : list Violation :=
  forEachFrom (λ i r,
    if isEmpty r.[c] then
      [ {| row := Z.of_nat i + 1; col := c; type := NOT_NULL; value := None;
           msg := "Null/empty value" |} ]
    else [])
    0 tableData.

(** [constraints.includes(name)] *)
Definition has (constraints : list string) (name : string) : bool :=
  bool_decide (name ∈ constraints).

(** The body of [columns.forEach((col, idx) => ...)]. *)
Definition columnViolations (tableData : list Row)
    (confirmedConstraints : list (list string)) (confirmedTypes : list string)
    (idx : nat) (c : string) : list Violation :=
  let constraints := default [] (confirmedConstraints !! idx) in
  let dataType := orElse (confirmedTypes !! idx) "VARCHAR" in
  typePass tableData c dataType
  ++ (if has constraints "primary" then primaryPass c 0 ∅ tableData else [])
  ++ (if has constraints "unique" then uniquePass c 0 ∅ tableData else [])
  ++ (if has constraints "notnull" then notNullPass tableData c else []).

(** [columns.findIndex((col, idx) => (confirmedConstraints[idx] || []).includes('primary'))] *)
Fixpoint findPrimaryIndex (confirmedConstraints : list (list string))
    (idx : nat) (columns : list string) : option nat :=
  match columns with
  | [] => None
  | _ :: rest =>
      if has (default [] (confirmedConstraints !! idx)) "primary" then Some idx
      else findPrimaryIndex confirmedConstraints (S idx) rest
  end.

(** The referenced key column: the one marked primary, else the first;
    [None] for a table without columns. *)
Definition keyColumn (confirmedConstraints : list (list string))
    (columns : list string) : option string :=
  match findPrimaryIndex confirmedConstraints 0 columns with
  | Some primaryIdx => columns !! primaryIdx
  | None => columns !! 0
  end.

Definition foreignKeyPass (confirmedConstraints : list (list string))
    (fileTables : gmap string FileTable.t) (foreignKeyConfig : option ForeignKeyConfig)
    : list Violation :=
  match foreignKeyConfig with
  | None => []
  | Some cfg =>
      if Js.nonEmpty (primaryFile cfg) && Js.nonEmpty (fkCol cfg)
         && Js.nonEmpty (referencedFile cfg) then
        match fileTables !! primaryFile cfg, fileTables !! referencedFile cfg with
        | Some primaryTable, Some foreignTable =>
            let pkCol := keyColumn confirmedConstraints (FileTable.columns primaryTable) in
            (λ v, {| row := row v; col := fkCol cfg; type := FOREIGN_KEY; value := None;
                     msg := "Value '" +:+ from_option toText "undefined" (value v)
                            +:+ "' not found in " +:+ primaryFile cfg +:+ "."
                            +:+ from_option id "null" pkCol |})
            <$> checkForeignKeyViolations (FileTable.rows foreignTable)
                  (FileTable.rows primaryTable) (fkCol cfg) pkCol
        | _, _ => []
        end
      else []
  end.

Definition checkViolations (tableData : list Row)
    (confirmedConstraints : list (list string))
    (fileTables : gmap string FileTable.t) (foreignKeyConfig : option ForeignKeyConfig)
    (confirmedTypes : list string) : list Violation :=
  if (length tableData =? 0) || (length confirmedConstraints =? 0) then []
  else
    let columns := keys (hd [] tableData) in
    mjoin (imap (columnViolations tableData confirmedConstraints confirmedTypes) columns)
    ++ foreignKeyPass confirmedConstraints fileTables foreignKeyConfig.

(** The entry of [checkViolations] on arguments that may be missing:
    [tableData.length] is read first, [confirmedConstraints.length]
    only when the table has rows. *)
Definition checkViolationsCall (tableData : Js.Arg Row)
    (confirmedConstraints : Js.Arg (list string))
    (fileTables : gmap string FileTable.t) (foreignKeyConfig : option ForeignKeyConfig)
    (confirmedTypes : list string) : Js.Completion (list Violation) :=
  match tableData with
  | Js.Null | Js.Undefined => Js.Throws
  | Js.Array rows =>
      if length rows =? 0 then Js.Returns []
      else match confirmedConstraints with
           | Js.Null | Js.Undefined => Js.Throws
           | Js.Array cs =>
               Js.Returns (checkViolations rows cs fileTables foreignKeyConfig confirmedTypes)
           end
  end.

End Checker.

(** ** editUtils.js *)

(** A missing or empty [checkResults] gives the empty list; the model
    takes the list itself. *)
Definition updateViolationsAfterDelete (checkResults : list Violation)
    (deleteIndex : Z) : list Violation :=
  (λ violation,
     let violationRow := (row violation - 1)%Z in
     if decide (deleteIndex < violationRow)%Z then
       {| row := (row violation - 1)%Z; col := col violation; type := type violation;
          msg := msg violation; value := value violation |}
     else violation)
  <$> filter (λ violation, (row violation - 1)%Z ≠ deleteIndex) checkResults.

(** ** repairGenerator.js *)

Module RepairFile.
Record t : Type := mk {
  name : string;
  rows : list Row;
  columns : list string;
  description : option string
}.
End RepairFile.

(** A row of a partial repair, [{...row, _needsEdit, _violationReasons}]:
    [cells] is the row it is spread from, and the two bookkeeping
    properties are set after the spread, over a property of the same name
    if the row has one. *)
Record EditRow : Type := mkEditRow {
  cells : Row;
  _needsEdit : bool;
  _violationReasons : list string
}.

Module PartialRepairFile.
Record t : Type := mk {
  name : string;
  rows : list EditRow;
  columns : list string;
  types : list string;
  description : string;
  isPartialRepair : bool;
  editableRows : list nat
}.
End PartialRepairFile.

Module Json.

Definition backslash : string := String "092" EmptyString.

Definition hexDigit (n : nat) : ascii :=
  ascii_of_nat (if n <? 10 then 48 + n else 87 + n).

Definition escapeChar (c : ascii) : string :=
  let n := nat_of_ascii c in
  if n =? 34 then backslash +:+ Js.dquote
  else if n =? 92 then backslash +:+ backslash
  else if n =? 8 then backslash +:+ "b"
  else if n =? 9 then backslash +:+ "t"
  else if n =? 10 then backslash +:+ "n"
  else if n =? 12 then backslash +:+ "f"
  else if n =? 13 then backslash +:+ "r"
  else if n <? 32 then
    backslash +:+ "u00" +:+ String (hexDigit (n / 16)) (String (hexDigit (n mod 16)) "")
  else String c "".

Fixpoint escape (s : string) : string :=
  match s with
  | String c s' => escapeChar c +:+ escape s'
  | EmptyString => ""
  end.

(** An array element: [undefined], a function and a number that is not
    finite print as [null]; [Object.prototype] has no enumerable property
    of its own. *)
Definition element (v : Value) : string :=
  match v with
  | VNull | VUndefined | VFunction _ => "null"
  | VStr s => Js.dquote +:+ escape s +:+ Js.dquote
  | VNum t => if bool_decide (t ∈ ["NaN"; "Infinity"; "-Infinity"]) then "null" else t
  | VBool b => if b then "true" else "false"
  | VPrototype => "{}"
  end.

Definition array (items : list string) : string :=
  "[" +:+ Js.join "," items +:+ "]".

(** [JSON.stringify] of an array of arrays of cell values. *)
Definition stringify (table : list (list Value)) : string :=
  array ((λ tuple, array (element <$> tuple)) <$> table).

End Json.

(** [selectedFile || 'table'] *)
Definition fileStem (selectedFile : string) : string :=
  orElse (Some selectedFile) "table".

(** [pkGroups[key].push(row)], creating the group when the key reads
    falsy; groups are kept in creation order. *)
Fixpoint pushGroup (key : string) (r : Row) (pkGroups : list (string * list Row))
    : list (string * list Row) :=
  match pkGroups with
  | [] => [(key, [r])]
  | (k, group) :: rest =>
      if decide (k = key) then (k, group ++ [r]) :: rest
      else (k, group) :: pushGroup key r rest
  end.

Definition groupKey (pkCols : list string) (r : Row) : string :=
  Js.join "||" ((λ c, joinText r.[c]) <$> pkCols).

Fixpoint groupRows (pkCols : list string) (pkGroups : list (string * list Row))
    (tableData : list Row) : Js.Completion (list (string * list Row)) :=
  match tableData with
  | [] => Js.Returns pkGroups
  | r :: rest =>
      let key := groupKey pkCols r in
      if bool_decide (key ∈ pkGroups.*1) then
        groupRows pkCols (pushGroup key r pkGroups) rest
      else if bool_decide (key ∈ inheritedNames) then Js.Throws
      else groupRows pkCols (pushGroup key r pkGroups) rest
  end.

(** A property name that is an array index: a canonical decimal numeral
    of at most 2^32 - 2. *)
Definition arrayIndex (k : string) : option Z :=
  match k with
  | EmptyString => None
  | String c rest =>
      if Js.allDigits k && (negb (bool_decide (c = "0"%char)) || negb (Js.nonEmpty rest))
         && (Js.digitsValue 0 k <? 2 ^ 32 - 1)%Z
      then Some (Js.digitsValue 0 k)
      else None
  end.

Definition indexLe (a b : string * list Row) : Prop :=
  (default 0 (arrayIndex a.1) ≤ default 0 (arrayIndex b.1))%Z.

Global Instance indexLe_dec : RelDecision indexLe.
Proof. intros a b. unfold indexLe. apply _. Defined.

(** [Object.values(obj)]: array-index keys in ascending order, then the
    other keys in creation order. *)
Definition Object_values (obj : list (string * list Row)) : list (list Row) :=
  (merge_sort indexLe (filter (λ kv, is_Some (arrayIndex kv.1)) obj)).*2
  ++ (filter (λ kv, ¬ is_Some (arrayIndex kv.1)) obj).*2.

(** [arr.reduce((a, b) => a.flatMap(d => b.map(e => [].concat(d, e))), [[]])] *)
Definition cartesian {A : Type} (arr : list (list A)) : list (list A) :=
  foldl (λ a b, d ← a; (λ e, d ++ [e]) <$> b) [[]] arr.

Definition pkColumns (tableData : list Row) (confirmedConstraints : list (list string))
    : list string :=
  filter (λ c, Js.nonEmpty c)
    (omap id (imap (λ idx arr,
       if has arr "primary" then
         match tableData with
         | [] => None
         | r0 :: _ => keys r0 !! idx
         end
       else None) confirmedConstraints)).

(** Row objects have an identity, which [indexOf] asks for: there a
    table is an array of references into a store of row objects, and one
    object may stand at several positions. A reference is a number. *)
Definition Store : Type := nat → Row.

(** [tableData.indexOf(row)]: the first position that holds the object,
    -1 when none does. *)
Definition indexOf (tableData : list nat) (row : nat) : Z :=
  match list_find (λ x, x = row) tableData with
  | Some (i, _) => Z.of_nat i
  | None => -1
  end.

Section Generators.
(** [Date.now()], read as one instant for the whole call. *)
Context (now : Z).

(** The body of [allRepairs.forEach((rows, idx) => ...)]. *)
Fixpoint collectRepairs (pkCols : list string) (groupCount : nat)
    (columns : list string) (selectedFile : string)
    (idx : nat) (seenRepairs : gset string) (allRepairs : list (list Row))
    : list RepairFile.t :=
  match allRepairs with
  | [] => []
  | rows :: rest =>
      if negb (length rows =? groupCount) then
        collectRepairs pkCols groupCount columns selectedFile (S idx) seenRepairs rest
      else
        let filteredRows :=
          filter (λ r, forallb (λ c, has pkCols c || negb (isEmpty r.[c])) (keys r)) rows in
        if length filteredRows =? 0 then
          collectRepairs pkCols groupCount columns selectedFile (S idx) seenRepairs rest
        else
          let key := Json.stringify (values <$> filteredRows) in
          if decide (key ∈ seenRepairs) then
            collectRepairs pkCols groupCount columns selectedFile (S idx) seenRepairs rest
          else
            {| RepairFile.name := fileStem selectedFile +:+ "_repair_" +:+ pretty (idx + 1)
                                  +:+ "_" +:+ pretty now +:+ ".csv";
               RepairFile.rows := filteredRows;
               RepairFile.columns := columns;
               RepairFile.description := None |}
            :: collectRepairs pkCols groupCount columns selectedFile (S idx)
                 ({[ key ]} ∪ seenRepairs) rest
  end.

Definition generatePrimaryKeyRepairs (tableData : list Row)
    (confirmedConstraints : list (list string)) (selectedFile : string)
    : Js.Completion (list RepairFile.t) :=
  let pkCols := pkColumns tableData confirmedConstraints in
  if 0 <? length pkCols then
    match groupRows pkCols [] tableData with
    | Js.Throws => Js.Throws
    | Js.Returns pkGroups =>
        let groupChoices := Object_values pkGroups in
        let allRepairs := cartesian groupChoices in
        Js.Returns (collectRepairs pkCols (length groupChoices)
                      (keys (hd [] tableData)) selectedFile 0 ∅ allRepairs)
    end
  else Js.Returns [].

(** The three categories the generators sort violations into. *)
Definition isNullViolation (v : Violation) : bool :=
  Js.includes (msg v) "Null/empty value".
Definition isDuplicateViolation (v : Violation) : bool :=
  Js.includes (msg v) "Duplicate value".
Definition isTypeViolation (v : Violation) : bool :=
  Js.includes (msg v) "Type mismatch" || bool_decide (type v = TYPE_MISMATCH).

(** [new Set(violations.map(v => v.row - 1))] *)
Definition rowIndices (violations : list Violation) : gset Z :=
  list_to_set ((λ v, row v - 1)%Z <$> violations).

(** The key [`${col}:${value}`]. *)
Definition valueKey (c : string) (r : Row) : string :=
  c +:+ ":" +:+ toText r.[c].

(** The [for (const col of ...)] loop of the keep-first filter: the
    row survives unless one of its keys was seen; the keys met before
    that one are recorded. *)
Fixpoint scanFirst (r : Row) (cols : list string) (seenValues : gset string)
    : bool * gset string :=
  match cols with
  | [] => (true, seenValues)
  | c :: cols' =>
      let key := valueKey c r in
      if decide (key ∈ seenValues) then (false, seenValues)
      else scanFirst r cols' ({[ key ]} ∪ seenValues)
  end.

(** [tableData.filter((row, idx) => ...)] of the keep-first repairs,
    each surviving row paired with its index in [tableData]. The
    general repair has no rows exempted by a type violation. *)
Fixpoint keepFirst (typeViolatedRows nullRowIndices : gset Z) (cols : list string)
    (idx : nat) (seenValues : gset string) (rows : list Row) : list (nat * Row) :=
  match rows with
  | [] => []
  | r :: rest =>
      if decide (Z.of_nat idx ∈ typeViolatedRows) then
        (idx, r) :: keepFirst typeViolatedRows nullRowIndices cols (S idx) seenValues rest
      else if decide (Z.of_nat idx ∈ nullRowIndices) then
        keepFirst typeViolatedRows nullRowIndices cols (S idx) seenValues rest
      else
        let '(keep, seenValues') := scanFirst r cols seenValues in
        if keep then
          (idx, r) :: keepFirst typeViolatedRows nullRowIndices cols (S idx) seenValues' rest
        else keepFirst typeViolatedRows nullRowIndices cols (S idx) seenValues' rest
  end.

(** The first pass of the keep-last repairs. *)
Fixpoint recordLast (nullRowIndices : gset Z) (cols : list string)
    (idx : nat) (lastIndices : gmap string nat) (rows : list Row) : gmap string nat :=
  match rows with
  | [] => lastIndices
  | r :: rest =>
      if decide (Z.of_nat idx ∈ nullRowIndices) then
        recordLast nullRowIndices cols (S idx) lastIndices rest
      else
        recordLast nullRowIndices cols (S idx)
          (foldl (λ m c, <[ valueKey c r := idx ]> m) lastIndices cols) rest
  end.

(** The second pass of the keep-last repairs. *)
Definition keepLast (typeViolatedRows nullRowIndices : gset Z) (cols : list string)
    (lastIndices : gmap string nat) (tableData : list Row) : list (nat * Row) :=
  filterWithIndex (λ idx r,
    if decide (Z.of_nat idx ∈ typeViolatedRows) then true
    else if decide (Z.of_nat idx ∈ nullRowIndices) then false
    else forallb (λ c, bool_decide (lastIndices !! valueKey c r = Some idx)) cols)
    0 tableData.

Definition areRepairsIdentical (repairRows1 repairRows2 : list Row) : bool :=
  (length repairRows1 =? length repairRows2)
  && forallb (λ '(row1, row2),
       forallb (λ c, strictEquals row1.[c] row2.[c]) (keys row1))
       (zip repairRows1 repairRows2).

(** The unused grouping [violationsByType] is left out. *)
Definition generateGeneralRepairs (violations : list Violation)
    (tableData : list Row) (selectedFile : string) : list RepairFile.t :=
  if length violations =? 0 then []
  else
    let nullViolations := filter (λ v, isNullViolation v) violations in
    let duplicateViolations := filter (λ v, isDuplicateViolation v) violations in
    let duplicateViolatedCols := setOrder (col <$> duplicateViolations) in
    let nullRowIndices := rowIndices nullViolations in
    if (0 <? length duplicateViolations) || (0 <? length nullViolations) then
      if (length duplicateViolations =? 0) && (0 <? length nullViolations) then
        let repairRows :=
          (filterWithIndex (λ idx _, negb (bool_decide (Z.of_nat idx ∈ nullRowIndices)))
             0 tableData).*2 in
        [ {| RepairFile.name := fileStem selectedFile +:+ "_repair_1_" +:+ pretty now +:+ ".csv";
             RepairFile.rows := repairRows;
             RepairFile.columns := keys (hd [] tableData);
             RepairFile.description :=
               Some ("Repair 1: Remove empty rows (" +:+ pretty (length repairRows)
                     +:+ " rows)") |} ]
      else
        let repairRows1 :=
          (keepFirst ∅ nullRowIndices duplicateViolatedCols 0 ∅ tableData).*2 in
        let lastIndices := recordLast nullRowIndices duplicateViolatedCols 0 ∅ tableData in
        let repairRows2 :=
          (keepLast ∅ nullRowIndices duplicateViolatedCols lastIndices tableData).*2 in
        {| RepairFile.name := fileStem selectedFile +:+ "_repair_1_" +:+ pretty now +:+ ".csv";
           RepairFile.rows := repairRows1;
           RepairFile.columns := keys (hd [] tableData);
           RepairFile.description :=
             Some ("Repair 1: Keep first duplicate and remove empty rows ("
                   +:+ pretty (length repairRows1) +:+ " rows)") |}
        :: (if areRepairsIdentical repairRows1 repairRows2 then []
            else
              [ {| RepairFile.name :=
                     fileStem selectedFile +:+ "_repair_2_" +:+ pretty now +:+ ".csv";
                   RepairFile.rows := repairRows2;
                   RepairFile.columns := keys (hd [] tableData);
                   RepairFile.description :=
                     Some ("Repair 2: Keep last duplicate and remove empty rows ("
                           +:+ pretty (length repairRows2) +:+ " rows)") |} ])
    else [].

(** [kept.map(row => ({...row, _needsEdit, _violationReasons}))], where
    [kept] pairs each surviving row with the position the filter met it
    at: the row is the object at that position of [tableData], and
    [tableData.indexOf(row)] looks for it from the start. *)
Definition markRows (tableData : list nat) (typeViolatedRows : gset Z)
    (typeViolations : list Violation) (kept : list (nat * Row)) : list EditRow :=
  (λ '(idx, r),
     let originalIdx := indexOf tableData (default 0 (tableData !! idx)) in
     {| cells := r;
        _needsEdit := bool_decide (originalIdx ∈ typeViolatedRows);
        _violationReasons :=
          (λ v, col v +:+ ": " +:+ msg v)
          <$> filter (λ v, (row v - 1)%Z = originalIdx) typeViolations |})
  <$> kept.

(** The indices, in the candidate's own rows, of the rows to edit. *)
Definition editableIndices (rows : list EditRow) : list nat :=
  (filterWithIndex (λ _ r, _needsEdit r) 0 rows).*1.

Definition editCounts (rows : list EditRow) : string :=
  "(" +:+ pretty (length rows) +:+ " rows, "
  +:+ pretty (length (filter (λ r, _needsEdit r) rows)) +:+ " need editing)".

Definition generatePartialRepairs (violations : list Violation)
    (store : Store) (tableData : list nat) (selectedFile : string)
    (confirmedTypes : list string) : list PartialRepairFile.t :=
  let rows := store <$> tableData in
  if length violations =? 0 then []
  else
    let nullViolations := filter (λ v, isNullViolation v) violations in
    let duplicateViolations := filter (λ v, isDuplicateViolation v) violations in
    let typeViolations := filter (λ v, isTypeViolation v) violations in
    if length typeViolations =? 0 then []
    else
      let nullRowIndices := rowIndices nullViolations in
      let typeViolatedRows := rowIndices typeViolations in
      let duplicateCols := setOrder (col <$> duplicateViolations) in
      (if (0 <? length duplicateViolations) || (0 <? length nullViolations) then
         let rowsNeedingEdit :=
           markRows tableData typeViolatedRows typeViolations
             (keepFirst typeViolatedRows nullRowIndices duplicateCols 0 ∅ rows) in
         let lastIndices := recordLast nullRowIndices duplicateCols 0 ∅ rows in
         let rowsNeedingEdit2 :=
           markRows tableData typeViolatedRows typeViolations
             (keepLast typeViolatedRows nullRowIndices duplicateCols lastIndices rows) in
         [ {| PartialRepairFile.name :=
                fileStem selectedFile +:+ "_partial_repair_1_" +:+ pretty now +:+ ".csv";
              PartialRepairFile.rows := rowsNeedingEdit;
              PartialRepairFile.columns := keys (hd [] rows);
              PartialRepairFile.types := confirmedTypes;
              PartialRepairFile.description :=
                "Partial Repair 1: Remove first duplicate and empty rows, edit type violations "
                +:+ editCounts rowsNeedingEdit;
              PartialRepairFile.isPartialRepair := true;
              PartialRepairFile.editableRows := editableIndices rowsNeedingEdit |};
           {| PartialRepairFile.name :=
                fileStem selectedFile +:+ "_partial_repair_2_" +:+ pretty now +:+ ".csv";
              PartialRepairFile.rows := rowsNeedingEdit2;
              PartialRepairFile.columns := keys (hd [] rows);
              PartialRepairFile.types := confirmedTypes;
              PartialRepairFile.description :=
                "Partial Repair 2: Remove second duplicate and empty rows, edit type violations "
                +:+ editCounts rowsNeedingEdit2;
              PartialRepairFile.isPartialRepair := true;
              PartialRepairFile.editableRows := editableIndices rowsNeedingEdit2 |} ]
       else [])
      ++
      let customRepairRows :=
        imap (λ idx r,
          {| cells := r;
             _needsEdit :=
               existsb (λ v, bool_decide ((row v - 1)%Z = Z.of_nat idx)) violations;
             _violationReasons :=
               (λ v, col v +:+ ": " +:+ msg v)
               <$> filter (λ v, (row v - 1)%Z = Z.of_nat idx) violations |}) rows in
      [ {| PartialRepairFile.name := fileStem selectedFile +:+ "_partial_repair_custom.csv";
           PartialRepairFile.rows := customRepairRows;
           PartialRepairFile.columns := keys (hd [] rows);
           PartialRepairFile.types := confirmedTypes;
           PartialRepairFile.description :=
             "Partial Repair 3: Custom editing for all violations "
             +:+ editCounts customRepairRows;
           PartialRepairFile.isPartialRepair := true;
           PartialRepairFile.editableRows := editableIndices customRepairRows |} ].

End Generators.

(** * The other utilities *)

(** ** More JavaScript primitives *)

Module JsStr.

Definition tab : ascii := "009".
Definition lf : ascii := "010".
Definition cr : ascii := "013".

(** The two characters CR LF. *)
Definition crlf : string := String cr (String lf EmptyString).

Definition prepend (c : ascii) (parts : list string) : list string :=
  match parts with
  | part :: rest => String c part :: rest
  | [] => [String c EmptyString]
  end.

(** [s.split(sep)] for a separator of one character. *)
Fixpoint splitOn (sep : ascii) (s : string) : list string :=
  match s with
  | EmptyString => [EmptyString]
  | String c s' =>
      if decide (c = sep) then EmptyString :: splitOn sep s'
      else prepend c (splitOn sep s')
  end.

(** [s.split(/\r?\n/)]: a line ends at LF, or at CR LF read together. *)
Fixpoint splitLines (s : string) : list string :=
  match s with
  | EmptyString => [EmptyString]
  | String c s' =>
      if decide (c = lf) then EmptyString :: splitLines s'
      else
        match s' with
        | String c' s'' =>
            if decide (c = cr ∧ c' = lf) then EmptyString :: splitLines s''
            else prepend c (splitLines s')
        | EmptyString => prepend c (splitLines s')
        end
  end.

(** [(s.match(/c/g) || []).length] for one character [c]. *)
Fixpoint countChar (c : ascii) (s : string) : nat :=
  match s with
  | EmptyString => 0
  | String c' s' => (if decide (c' = c) then 1 else 0) + countChar c s'
  end.

Fixpoint dropChars (n : nat) (s : string) : string :=
  match n, s with
  | S n', String _ s' => dropChars n' s'
  | _, _ => s
  end.

(** [s.replace(pat, rep)] for a string pattern: the first occurrence. *)
Fixpoint replaceFirst (s pat rep : string) : string :=
  if String.prefix pat s then rep +:+ dropChars (String.length pat) s
  else
    match s with
    | String c s' => String c (replaceFirst s' pat rep)
    | EmptyString => EmptyString
    end.

End JsStr.

(** ** Objects as the parser builds them *)

(** [obj[k] = v] on an existing own property. *)
Fixpoint assign (k : string) (v : Value) (obj : Row) : Row :=
  match obj with
  | [] => []
  | (k', v') :: rest =>
      if decide (k' = k) then (k', v) :: rest else (k', v') :: assign k v rest
  end.

(** A new array-index property takes its place among the array-index
    properties, which come first, in ascending order. *)
Fixpoint insertIndexed (n : Z) (k : string) (v : Value) (obj : Row) : Row :=
  match obj with
  | [] => [(k, v)]
  | (k', v') :: rest =>
      match arrayIndex k' with
      | Some m => if (m <? n)%Z then (k', v') :: insertIndexed n k v rest
                  else (k, v) :: obj
      | None => (k, v) :: obj
      end
  end.

(** [obj[k] = v] for a text or number [v] on an object literal: assigning
    to [__proto__] creates no property; an existing property keeps its
    place; a new one is an array index or goes last. *)
Definition setProp (obj : Row) (k : string) (v : Value) : Row :=
  if decide (k = "__proto__") then obj
  else if bool_decide (k ∈ keys obj) then assign k v obj
  else
    match arrayIndex k with
    | Some n => insertIndexed n k v obj
    | None => obj ++ [(k, v)]
    end.

(** ** dataParser.js *)

(** [columns.forEach((col, i) => { obj[col] = vals[i] || ''; })] *)
Fixpoint fillRow (vals : list string) (i : nat) (columns : list string) (obj : Row) : Row :=
  match columns with
  | [] => obj
  | c :: rest => fillRow vals (S i) rest (setProp obj c (VStr (default "" (vals !! i))))
  end.

Definition parseCSV (text : string) : FileTable.t :=
  let lines := filter (λ l, Js.nonEmpty l) (JsStr.splitLines text) in
  match lines with
  | [] => FileTable.mk [] []
  | header :: body =>
      let delimiter :=
        if JsStr.countChar "," header <? JsStr.countChar JsStr.tab header
        then JsStr.tab else ","%char in
      let columns := Js.trim <$> JsStr.splitOn delimiter header in
      let rows := (λ line, fillRow (JsStr.splitOn delimiter line) 0 columns []) <$> body in
      FileTable.mk columns rows
  end.

Definition normalizeType (ty : string) : string :=
  let ty := Js.toUpperCase ty in
  if bool_decide (ty ∈ ["STRING"; "TEXT"]) then "VARCHAR"
  else if bool_decide (ty ∈ ["NUMBER"; "INT"]) then "INTEGER"
  else if bool_decide (ty ∈ ["FLOAT"; "DOUBLE"]) then "DECIMAL"
  else ty.

(** ** exportUtils.js *)

(** [row[col] ?? ''] *)
Definition orEmpty (v : Value) : Value :=
  match v with
  | VNull | VUndefined => VStr ""
  | _ => v
  end.

(** The text [exportCSV] hands to the download: the header and one line
    per row, joined by CR LF. *)
Definition exportCSV_csv (columns : list string) (rows : list Row) : string :=
  Js.join JsStr.crlf
    (Js.join "," columns
     :: ((λ r, Js.join "," ((λ c, joinText (orEmpty r.[c])) <$> columns)) <$> rows)).

(** ** violationChecker.js, on a repair file *)

(** What [checkRepairFileViolations] reads of a repair file; [types] is
    [None] for the candidates that carry no types. *)
Module RepairView.
Record t : Type := mk {
  name : string;
  rows : list Row;
  columns : list string;
  types : option (list string)
}.
End RepairView.

Definition viewRepairFile (f : RepairFile.t) : RepairView.t :=
  RepairView.mk (RepairFile.name f) (RepairFile.rows f) (RepairFile.columns f) None.

Definition viewPartialRepairFile (f : PartialRepairFile.t) : RepairView.t :=
  RepairView.mk (PartialRepairFile.name f) (cells <$> PartialRepairFile.rows f)
    (PartialRepairFile.columns f) (Some (PartialRepairFile.types f)).

(** Whether the repair file stands for the referencing table: by name,
    or by the name a custom repair of it is given. *)
Definition isReferencedTable (name referencedFile : string) : bool :=
  if decide (name = referencedFile) then true
  else if Js.includes name "_repair_custom" then
    bool_decide (JsStr.replaceFirst name "_repair_custom.csv" "" = referencedFile)
  else false.

Section RepairChecker.
Context `{rt : Runtime}.

Definition typePassRepair (rows : list Row) (c dataType : string) : list Violation :=
  forEachFrom (λ i r,
    let val := r.[c] in
    if validateDataType val dataType then []
    else [ {| row := Z.of_nat i + 1; col := c; type := TYPE_MISMATCH; value := None;
              msg := "Invalid " +:+ dataType +:+ " value: "
                     +:+ Js.dquote +:+ toText val +:+ Js.dquote |} ])
    0 rows.

(** The body of [columns.forEach((col, idx) => ...)]; the three
    constraint passes are those of [checkViolations], word for word. *)
Definition repairColumnViolations (rows : list Row)
    (confirmedConstraints : list (list string)) (typesToUse : list string)
    (idx : nat) (c : string) : list Violation :=
  let constraints := default [] (confirmedConstraints !! idx) in
  let dataType := orElse (typesToUse !! idx) "VARCHAR" in
  typePassRepair rows c dataType
  ++ (if has constraints "primary" then primaryPass c 0 ∅ rows else [])
  ++ (if has constraints "unique" then uniquePass c 0 ∅ rows else [])
  ++ (if has constraints "notnull" then notNullPass rows c else []).

Definition repairForeignKeyPass (repairFile : RepairView.t)
    (fileTables : option (gmap string FileTable.t))
    (foreignKeyConfig : option ForeignKeyConfig) : list Violation :=
  match foreignKeyConfig, fileTables with
  | Some cfg, Some tables =>
      if Js.nonEmpty (primaryFile cfg) && Js.nonEmpty (fkCol cfg)
         && Js.nonEmpty (referencedFile cfg) then
        match tables !! primaryFile cfg with
        | Some primaryTable =>
            if isReferencedTable (RepairView.name repairFile) (referencedFile cfg) then
              match FileTable.columns primaryTable !! 0 with
              | Some pkCol =>
                  if Js.nonEmpty pkCol then
                    (λ v, {| row := row v; col := fkCol cfg; type := FOREIGN_KEY;
                             value := value v;
                             msg := "Value '" +:+ from_option toText "undefined" (value v)
                                    +:+ "' not found in " +:+ primaryFile cfg +:+ "."
                                    +:+ pkCol |})
                    <$> checkForeignKeyViolations (RepairView.rows repairFile)
                          (FileTable.rows primaryTable) (fkCol cfg) (Some pkCol)
                  else []
              | None => []
              end
            else []
        | None => []
        end
      else []
  | _, _ => []
  end.

(** [repairFile] is [None] for a missing object. *)
Definition checkRepairFileViolations (repairFile : option RepairView.t)
    (confirmedConstraints : list (list string))
    (fileTables : option (gmap string FileTable.t))
    (foreignKeyConfig : option ForeignKeyConfig)
    (confirmedTypes : list string) : list Violation :=
  match repairFile with
  | None => []
  | Some repairFile =>
      let typesToUse := default confirmedTypes (RepairView.types repairFile) in
      mjoin (imap (repairColumnViolations (RepairView.rows repairFile)
                     confirmedConstraints typesToUse)
               (RepairView.columns repairFile))
      ++ repairForeignKeyPass repairFile fileTables foreignKeyConfig
  end.

End RepairChecker.

(** ** editUtils.js, the helpers *)

(** [name] is [None] when there is no repair file or it has no name. *)
Definition isCustomRepair (name : option string) : bool :=
  match name with
  | Some name =>
      Js.nonEmpty name
      && (Js.includes name "_repair_custom" || Js.includes name "_partial_repair_custom")
  | None => false
  end.

Record ViolationPositions : Type := mkViolationPositions {
  violationCols : list string;
  violationRows : list Z
}.

Definition calculateViolationPositions (tableViolations : list Violation)
    : ViolationPositions :=
  if 0 <? length tableViolations then
    {| violationCols := setOrder (col <$> tableViolations);
       violationRows := setOrder ((λ v, row v - 1)%Z <$> tableViolations) |}
  else {| violationCols := []; violationRows := [] |}.

(** ** repairGenerator.js, the other generators *)

Definition addCustomRepairOption (repairFileObjs : list RepairFile.t)
    (tableData : list Row) (selectedFile : string) : list RepairFile.t :=
  repairFileObjs
  ++ [ {| RepairFile.name := fileStem selectedFile +:+ "_repair_custom.csv";
          RepairFile.rows := tableData;
          RepairFile.columns := keys (hd [] tableData);
          RepairFile.description := Some "Custom repair - Manual editing" |} ].

Section ForeignKeyRepairs.
Context (now : Z).

Definition generateForeignKeyRepairs (foreignKeyConfig : ForeignKeyConfig)
    (fileTables : gmap string FileTable.t) (confirmedConstraints : list (list string))
    : list RepairFile.t :=
  match fileTables !! referencedFile foreignKeyConfig,
        fileTables !! primaryFile foreignKeyConfig with
  | Some foreignTable, Some primaryTable =>
      let pkCol := keyColumn confirmedConstraints (FileTable.columns primaryTable) in
      let violationsFK :=
        checkForeignKeyViolations (FileTable.rows foreignTable)
          (FileTable.rows primaryTable) (fkCol foreignKeyConfig) pkCol in
      if length violationsFK =? 0 then []
      else
        let violatingRowIndices := rowIndices violationsFK in
        let validRows :=
          (filterWithIndex (λ index _, negb (bool_decide (Z.of_nat index ∈ violatingRowIndices)))
             0 (FileTable.rows foreignTable)).*2 in
        [ {| RepairFile.name := referencedFile foreignKeyConfig +:+ "_repair_delete_"
                                +:+ pretty now +:+ ".csv";
             RepairFile.rows := validRows;
             RepairFile.columns := FileTable.columns foreignTable;
             RepairFile.description := Some "Removed rows with invalid foreign keys" |};
          {| RepairFile.name := referencedFile foreignKeyConfig +:+ "_repair_custom.csv";
             RepairFile.rows := FileTable.rows foreignTable;
             RepairFile.columns := FileTable.columns foreignTable;
             RepairFile.description := Some "Manual editing option" |} ]
  | _, _ => []
  end.

End ForeignKeyRepairs.

(** * Vocabulary of the properties *)

(** ** Text accepted by the integer check *)

Definition Digit (c : ascii) : Prop := 48 ≤ nat_of_ascii c ≤ 57.

Fixpoint Digits (s : string) : Prop :=
  match s with
  | String c s' => Digit c ∧ Digits s'
  | EmptyString => True
  end.

(** The language of [^-?\d+$]: one or more digits after an optional
    minus sign. *)
Definition IntegerText (t : string) : Prop :=
  ∃ ds, ds ≠ "" ∧ Digits ds ∧ (t = ds ∨ t = String "-" ds).

(** The type names [validateDataType] has a check for. *)
Definition checkedTypeNames : list string :=
  ["INT"; "INTEGER"; "BIGINT"; "FLOAT"; "DOUBLE"; "DECIMAL"; "NUMERIC";
   "BOOLEAN"; "BOOL"; "DATE"; "DATETIME"; "TIMESTAMP"].

(** ** Foreign keys *)


(** ** Candidates of the repairs *)

(** What the general repair derives from the violations, and the row
    sequences of its three possible candidates. *)
Definition generalNullRows (violations : list Violation) : gset Z :=
  rowIndices (filter (λ v, isNullViolation v) violations).

Definition generalDuplicateCols (violations : list Violation) : list string :=
  setOrder (col <$> filter (λ v, isDuplicateViolation v) violations).

Definition nullFreeRows (violations : list Violation) (tableData : list Row) : list Row :=
  (filterWithIndex (λ idx _, negb (bool_decide (Z.of_nat idx ∈ generalNullRows violations)))
     0 tableData).*2.

Definition keepFirstRows (violations : list Violation) (tableData : list Row) : list Row :=
  (keepFirst ∅ (generalNullRows violations) (generalDuplicateCols violations)
     0 ∅ tableData).*2.

Definition keepLastRows (violations : list Violation) (tableData : list Row) : list Row :=
  (keepLast ∅ (generalNullRows violations) (generalDuplicateCols violations)
     (recordLast (generalNullRows violations) (generalDuplicateCols violations)
        0 ∅ tableData) tableData).*2.

(** The comparison the general repair makes of its two candidates: as
    many rows, and position by position every property of the
    keep-first row reads strictly equal in the keep-last row. *)
Definition sameReads (rows1 rows2 : list Row) : Prop :=
  length rows1 = length rows2
  ∧ ∀ i row1 row2 c,
      rows1 !! i = Some row1 → rows2 !! i = Some row2 → c ∈ keys row1 →
      row1.[c] = row2.[c] ∧ row1.[c] ≠ VNum "NaN".

(** The value tuples of a candidate's surviving rows, which the
    primary-key repair serializes to tell candidates apart. *)
Definition survivingTuples (cand : RepairFile.t) : list (list Value) :=
  values <$> RepairFile.rows cand.

(** The kinds a null/empty or duplicate-value re-check looks at. *)
Definition nullOrDuplicateKind (v : Violation) : bool :=
  match type v with
  | PRIMARY_KEY | UNIQUE | NOT_NULL => true
  | TYPE_MISMATCH | FOREIGN_KEY => false
  end.

(** The order of a selection of rows by their index in the table. *)
Definition byIndex (a b : nat * Row) : Prop := a.1 < b.1.

(** ** Violations after a deletion *)

(** The key violations are compared by. *)
Definition violationKey (v : Violation) : Z * string * ViolationKind :=
  (row v, col v, type v).




Section RowLocal.
Context `{rt : Runtime}.




End RowLocal.

(** ** Example tables *)

(** A runtime for evaluating examples whose columns are neither FLOAT nor
    DATE typed. *)
Definition sampleRuntime : Runtime :=
  {| numericText := λ _, true; dateText := λ _, true |}.

(** Ids 1 and 2, ages 25 and bad. *)
Definition agesTable : list Row :=
  [[("id", VNum "1"); ("age", VStr "25")]; [("id", VNum "2"); ("age", VStr "bad")]].

(** With [age] declared INTEGER and no constraint on either column, the
    only violation is the type mismatch of the second row. *)
Definition agesViolations : list Violation :=
  checkViolations (rt := sampleRuntime) agesTable [[]; []] ∅ None ["VARCHAR"; "INTEGER"].

(** Two rows share the id 1. *)
Definition sharedIdTable : list Row :=
  [[("id", VNum "1"); ("a", VStr "x")]; [("id", VNum "1"); ("a", VStr "y")];
   [("id", VNum "2"); ("a", VStr "z")]].

(** ** Vocabulary for the other utilities *)

(** The test [checkForeignKeyViolations] applies to a referencing row. *)
Definition danglingRow (primaryRows : list Row) (fkCol : string) (pkCol : option string)
    (r : Row) : bool :=
  match pkCol with
  | Some pkCol =>
      Js.nonEmpty fkCol && Js.nonEmpty pkCol && negb (isEmpty r.[fkCol])
      && negb (bool_decide (Js.trim (toText r.[fkCol]) ∈ primarySet primaryRows pkCol))
  | None => false
  end.

(** Orders that reference customers 1 and 2; the second order names a
    customer 9 that does not exist, the third names none. *)
Definition customersTable : FileTable.t :=
  FileTable.mk ["id"] [[("id", VStr "1")]; [("id", VStr "2")]].

Definition ordersTable : FileTable.t :=
  FileTable.mk ["customer"]
    [[("customer", VStr "1")]; [("customer", VStr "9")]; [("customer", VStr "")]].

Definition ordersFiles : gmap string FileTable.t :=
  <["customers.csv" := customersTable]> (<["orders.csv" := ordersTable]> ∅).

Definition ordersLink : ForeignKeyConfig :=
  mkForeignKeyConfig "customers.csv" "customer" "orders.csv".

(** The row of the ages table that needs editing, as the custom
    candidate of the partial repair marks it, and that candidate. *)
Definition agesEditRow : EditRow :=
  {| cells := [("id", VNum "2"); ("age", VStr "bad")];
     _needsEdit := true;
     _violationReasons :=
       ["age: Type mismatch: expected INTEGER, got " +:+ Js.dquote +:+ "bad" +:+ Js.dquote] |}.

Definition agesCustomCandidate : PartialRepairFile.t :=
  {| PartialRepairFile.name := "ages.csv_partial_repair_custom.csv";
     PartialRepairFile.rows :=
       [ {| cells := [("id", VNum "1"); ("age", VStr "25")];
            _needsEdit := false; _violationReasons := [] |};
         agesEditRow ];
     PartialRepairFile.columns := ["id"; "age"];
     PartialRepairFile.types := ["VARCHAR"; "INTEGER"];
     PartialRepairFile.description :=
       "Partial Repair 3: Custom editing for all violations (2 rows, 1 need editing)";
     PartialRepairFile.isPartialRepair := true;
     PartialRepairFile.editableRows := [1] |}.

(** A table of distinct row objects: the store that holds its rows, and
    the references to them in order. *)
Definition storeOf (tableData : list Row) : Store :=
  λ ref, default [] (tableData !! ref).
Definition refsOf (tableData : list Row) : list nat := seq 0 (length tableData).

(** A cell whose text is the message of a null/empty violation, in a
    column declared INTEGER. *)
Definition quotingTable : list Row := [[("age", VStr "Null/empty value")]].

(** Rows that do not have the columns of the first row. *)
Definition raggedTable : list Row :=
  [[("a", VStr "")]; [("b", VStr "x"); ("a", VStr "1")]; [("b", VStr "x"); ("a", VStr "2")]].

(** A text of ASCII characters, on which [toUpperCase] changes the
    letters a to z and nothing else. *)
Fixpoint asciiText (s : string) : bool :=
  match s with
  | EmptyString => true
  | String c s' => (nat_of_ascii c <? 128) && asciiText s'
  end.

(** One row object standing at the first two positions of a table, and
    a hand-written violation list: a type mismatch on the second row and
    a duplicate on the third. *)
Definition sharedObjectStore : Store :=
  λ ref, match ref with
         | 0 => [("id", VNum "1"); ("age", VStr "bad")]
         | _ => [("id", VNum "1"); ("age", VStr "3")]
         end.

Definition sharedObjectViolations : list Violation :=
  [mkViolation 2 "age" TYPE_MISMATCH "Type mismatch: expected INTEGER, got bad" None;
   mkViolation 3 "id" UNIQUE "Duplicate value" None].

(** A text that contains none of the characters [bad]. *)
Fixpoint avoids (bad : list ascii) (s : string) : bool :=
  match s with
  | EmptyString => true
  | String c s' => negb (bool_decide (c ∈ bad)) && avoids bad s'
  end.

(** The text [exportCSV] writes for the cell of column [c] in row [r]. *)
Definition cellText (r : Row) (c : string) : string := joinText (orEmpty r.[c]).

(** A column name that survives the header line: trimmed, and free of
    the delimiters and line ends. *)
Definition headerName (c : string) : Prop :=
  c ≠ "" ∧ Js.trim c = c ∧ avoids [","%char; JsStr.tab; JsStr.cr; JsStr.lf] c = true.

Definition peopleTable : list Row :=
  [[("name", VStr "John"); ("age", VNum "25")]; [("name", VStr "Jane"); ("age", VNull)]].

(** * Properties *)

(** Case analysis on membership in a list literal, and membership of a
    literal in one. *)
Ltac elem_cases H :=
  repeat (apply elem_of_cons in H as [H | H]); [ .. | by apply elem_of_nil in H ].

Ltac elem_literal :=
  match goal with |- ?P => apply (bool_decide_unpack P); vm_compute; exact I end.

(** ** Reads, numbers and row objects, by example *)

(** A row that lacks a column named after an inherited property reads
    the inherited object there: rows two and three both read the function
    [Object], so the third repeats the second, and neither is empty. *)
Example checkViolations_inherited_read :
  checkViolations (rt := sampleRuntime)
    [[("constructor", VStr "a")]; []; []] [["primary"]] ∅ None []
  = [mkViolation 3 "constructor" PRIMARY_KEY "Duplicate value" None].
Proof. reflexivity. Qed.

Example checkForeignKeyViolations_inherited_read :
  checkForeignKeyViolations [[("a", VStr "x")]] [[("id", VStr "1")]] "constructor" (Some "id")
  = [mkViolation 1 "constructor" FOREIGN_KEY
       "Value 'function Object() { [native code] }' not found in primary key column"
       (Some (VFunction "Object"))].
Proof. reflexivity. Qed.

(** Numbers are checked as the text they print. *)
Example validateDataType_numbers :
  validateDataType (rt := sampleRuntime) (VNum "25") "INTEGER" = true
  ∧ validateDataType (rt := sampleRuntime) (VNum "1e+21") "INTEGER" = false
  ∧ validateDataType (rt := sampleRuntime) (VNum "0.5") "INTEGER" = false
  ∧ validateDataType (rt := sampleRuntime) (VBool true) "BOOLEAN" = true
  ∧ validateDataType (rt := sampleRuntime) (VBool true) "INTEGER" = false.
Proof. repeat split; reflexivity. Qed.

(** [indexOf] finds a row object at its first position: the object that
    stands at positions 0 and 1 is looked up at 0 both times, where no
    type mismatch points, so the first two candidates flag nothing. *)
Example generatePartialRepairs_shared_object :
  (λ cand, _needsEdit <$> PartialRepairFile.rows cand)
  <$> generatePartialRepairs 0 sharedObjectViolations sharedObjectStore [0; 0; 1] "t.csv" []
  = [[false; false]; [false; false]; [false; true; true]].
Proof. reflexivity. Qed.

Lemma isDigit_Digit c : Js.isDigit c = true ↔ Digit c.
Proof.
  unfold Js.isDigit, Digit.
  rewrite andb_true_iff, !Nat.leb_le. done.
Qed.

Lemma allDigits_Digits s : Js.allDigits s = true ↔ Digits s.
Proof.
  induction s as [|c s IH]; simpl; [done|].
  by rewrite andb_true_iff, isDigit_Digit, IH.
Qed.

Lemma nonEmpty_true s : Js.nonEmpty s = true ↔ s ≠ "".
Proof. by destruct s. Qed.

Lemma minus_not_Digit : ¬ Digit "-".
Proof. intros [Hlo _]. vm_compute in Hlo. lia. Qed.

Lemma testInteger_IntegerText t : Js.testInteger t = true ↔ IntegerText t.
Proof.
  unfold IntegerText. split.
  - intros Ht. destruct t as [|c t]; [done|].
    destruct (decide (c = "-"%char)) as [->|Hc].
    + simpl in Ht. apply andb_true_iff in Ht as [Hne Hds].
      exists t. rewrite <- allDigits_Digits, <- nonEmpty_true. auto.
    + exists (String c t). split; [done|]. split; [|by left].
      apply allDigits_Digits.
      assert (Js.nonEmpty (String c t) && Js.allDigits (String c t) = true) as Hall.
      { revert Ht. unfold Js.testInteger.
        destruct c as [[] [] [] [] [] [] [] []]; try done. }
      by apply andb_true_iff in Hall as [_ ?].
  - intros (ds & Hne & Hds & [-> | ->]).
    + destruct ds as [|c ds]; [done|].
      assert (c ≠ "-"%char) as Hc.
      { intros ->. destruct Hds as [Hd _]. by apply minus_not_Digit in Hd. }
      apply allDigits_Digits in Hds.
      revert Hds. unfold Js.testInteger.
      destruct c as [[] [] [] [] [] [] [] []]; try done.
    + simpl. apply andb_true_iff. by rewrite nonEmpty_true, allDigits_Digits.
Qed.

Section CheckerFacts.
Context `{rt : Runtime}.

(** C8. The type validator is a total function of the value and the
    declared type. A null or empty value, or one whose text trims to
    nothing, is valid for every type. Otherwise, with the type name read
    case-insensitively: for INT, INTEGER and BIGINT the value is valid
    exactly when its trimmed text is an optional minus sign followed by one
    or more digits and denotes an integer that parses to a finite number;
    for BOOLEAN and BOOL exactly when the lower-cased trimmed text is one of
    true, false, 1, 0, yes, no; and for VARCHAR, TEXT, CHAR and every name
    without a check of its own it is always valid. *)
Theorem validateDataType_spec (val : Value) (sqlType : string) :
  (isEmpty val = true ∨ Js.trim (toText val) = "" →
     validateDataType val sqlType = true)
  ∧ (isEmpty val = false → Js.trim (toText val) ≠ "" →
     Js.toUpperCase sqlType ∈ ["INT"; "INTEGER"; "BIGINT"] →
     (validateDataType val sqlType = true ↔
        IntegerText (Js.trim (toText val))
        ∧ (Z.abs (Js.integerValue (Js.trim (toText val))) < 2 ^ 1024 - 2 ^ 970)%Z))
  ∧ (isEmpty val = false → Js.trim (toText val) ≠ "" →
     Js.toUpperCase sqlType ∈ ["BOOLEAN"; "BOOL"] →
     (validateDataType val sqlType = true ↔
        Js.toLowerCase (Js.trim (toText val)) ∈ ["true"; "false"; "1"; "0"; "yes"; "no"]))
  ∧ (Js.toUpperCase sqlType ∈ ["VARCHAR"; "TEXT"; "CHAR"; "STRING"]
     ∨ Js.toUpperCase sqlType ∉ checkedTypeNames →
     validateDataType val sqlType = true).
Proof.
  split; [|split; [|split]].
  - unfold validateDataType. intros [-> | Ht]; [done|].
    rewrite Ht. simpl. by destruct (isEmpty val).
  - intros Hval Htrim Hty. unfold validateDataType.
    rewrite Hval, (proj2 (nonEmpty_true _) Htrim). simpl.
    rewrite bool_decide_eq_true_2 by done.
    rewrite andb_true_iff, testInteger_IntegerText.
    unfold Js.parsesFinite, Js.overflowThreshold. rewrite Z.ltb_lt. tauto.
  - intros Hval Htrim Hty. unfold validateDataType.
    rewrite Hval, (proj2 (nonEmpty_true _) Htrim). simpl.
    elem_cases Hty; rewrite Hty; simpl; apply bool_decide_eq_true.
  - intros Hty. unfold validateDataType. destruct (isEmpty val); [done|].
    destruct (Js.nonEmpty (Js.trim (toText val))); [simpl|done].
    assert (Js.toUpperCase sqlType ∉ checkedTypeNames) as Hnot.
    { destruct Hty as [Hty|]; [|done].
      unfold checkedTypeNames.
      elem_cases Hty; rewrite Hty; intros Hin; elem_cases Hin; done. }
    rewrite !bool_decide_eq_false_2; [done|..];
      intros Hin; apply Hnot; elem_cases Hin; rewrite Hin; elem_literal.
Qed.

End CheckerFacts.

(** ** Loops over the rows *)

Lemma or_iff_both (A B C D : Prop) : (A ↔ C) → (B ↔ D) → (A ∨ B ↔ C ∨ D).
Proof. tauto. Qed.

Lemma ex2_iff {X Y : Type} (P Q : X → Y → Prop) :
  (∀ x y, P x y ↔ Q x y) → ((∃ x y, P x y) ↔ (∃ x y, Q x y)).
Proof. intros H. split; intros (x & y & Hxy); exists x, y; by apply H. Qed.

Lemma elem_of_forEachFrom {A B : Type} (f : nat → A → list B) i0 xs (y : B) :
  y ∈ forEachFrom f i0 xs ↔ ∃ k x, xs !! k = Some x ∧ y ∈ f (i0 + k) x.
Proof.
  induction xs as [|x0 xs IH] in i0 |- *; simpl.
  - split; [by intros ?%elem_of_nil | by intros (k & x & Hk & _)].
  - rewrite elem_of_app, IH. split.
    + intros [Hy | (k & x & Hk & Hy)].
      * exists 0, x0. by rewrite Nat.add_0_r.
      * exists (S k), x. by rewrite Nat.add_succ_r.
    + intros ([|k] & x & Hk & Hy); simpl in Hk.
      * left. injection Hk as <-. by rewrite Nat.add_0_r in Hy.
      * right. exists k, x. by rewrite Nat.add_succ_r in Hy.
Qed.


Section PassFacts.
Context `{rt : Runtime}.

Lemma primaryPass_spec c i0 seen rows v :
  v ∈ primaryPass c i0 seen rows ↔
  ∃ k r, rows !! k = Some r ∧
    ((isEmpty r.[c] = true
      ∧ v = mkViolation (Z.of_nat (i0 + k) + 1) c PRIMARY_KEY "Null/empty value" None)
     ∨ (isEmpty r.[c] = false
        ∧ (r.[c] ∈ seen ∨ ∃ j r', j < k ∧ rows !! j = Some r' ∧ r'.[c] = r.[c])
        ∧ v = mkViolation (Z.of_nat (i0 + k) + 1) c PRIMARY_KEY "Duplicate value" None)).
Proof.
  induction rows as [|r0 rest IH] in i0, seen |- *; simpl.
  { split; [by intros ?%elem_of_nil | by intros (k & r & Hk & _)]. }
  assert (∀ P Q : nat → Row → Prop,
    (∃ k r, (r0 :: rest) !! k = Some r ∧ P k r) ↔
    P 0 r0 ∨ ∃ k r, rest !! k = Some r ∧ P (S k) r) as Hsplit.
  { intros P _. split.
    - intros ([|k] & r & Hk & HP); simpl in Hk; [injection Hk as <-; by left|].
      right. by exists k, r.
    - intros [HP | (k & r & Hk & HP)]; [by exists 0, r0 | by exists (S k), r]. }
  rewrite (Hsplit (λ k r, _) (λ _ _, True)). clear Hsplit.
  rewrite Nat.add_0_r.
  destruct (isEmpty r0.[c]) eqn:He; [|destruct (decide (r0.[c] ∈ seen)) as [Hin|Hin]];
    rewrite ?elem_of_cons, IH.
  - apply or_iff_both; [naive_solver lia|].
    apply ex2_iff; intros k r. rewrite Nat.add_succ_r.
    split; intros (Hk & [Hcase | (Hne & Hdup & ->)]); (split; [done|]); auto;
      right; (split; [done|]); (split; [|done]).
    + destruct Hdup as [?|(j & r' & ? & ? & ?)]; [by left|].
      right. exists (S j), r'. split; [lia|done].
    + destruct Hdup as [?|([|j] & r' & Hlt & Hj & Heq)]; [by left| |]; simpl in Hj.
      * injection Hj as <-. congruence.
      * right. exists j, r'. split; [lia|done].
  - apply or_iff_both; [naive_solver lia|].
    apply ex2_iff; intros k r. rewrite Nat.add_succ_r.
    split; intros (Hk & [Hcase | (Hne & Hdup & ->)]); (split; [done|]); auto;
      right; (split; [done|]); (split; [|done]).
    + destruct Hdup as [?|(j & r' & ? & ? & ?)]; [by left|].
      right. exists (S j), r'. split; [lia|done].
    + destruct Hdup as [?|([|j] & r' & Hlt & Hj & Heq)]; [by left| |]; simpl in Hj.
      * injection Hj as <-. left. congruence.
      * right. exists j, r'. split; [lia|done].
  - split.
    + intros (k & r & Hk & Hcase). right. exists k, r.
      replace (i0 + S k) with (S i0 + k) by lia.
      split; [done|]. destruct Hcase as [Hcase | (Hne & Hdup & ->)]; [by left|].
      right. split; [done|]. split; [|done].
      destruct Hdup as [[->%elem_of_singleton|?]%elem_of_union|(j & r' & ? & ? & ?)].
      * right. exists 0, r0. split; [lia|done].
      * by left.
      * right. exists (S j), r'. split; [lia|done].
    + intros [[[? ?] | (? & [?|(j & _ & ? & _)] & _)] | (k & r & Hk & Hcase)];
        [congruence | done | lia |].
      exists k, r. replace (i0 + S k) with (S i0 + k) in Hcase by lia. split; [done|].
      destruct Hcase as [Hcase | (Hne & Hdup & ->)]; [by left|].
      right. split; [done|]. split; [|done].
      destruct Hdup as [?|([|j] & r' & Hlt & Hj & Heq)];
        [left; set_solver| |]; simpl in Hj.
      * injection Hj as <-. left. set_solver.
      * right. exists j, r'. split; [lia|done].
Qed.

Lemma uniquePass_spec c i0 seen rows v :
  v ∈ uniquePass c i0 seen rows ↔
  ∃ k r, rows !! k = Some r ∧ isEmpty r.[c] = false
    ∧ (r.[c] ∈ seen ∨ ∃ j r', j < k ∧ rows !! j = Some r' ∧ r'.[c] = r.[c])
    ∧ v = mkViolation (Z.of_nat (i0 + k) + 1) c UNIQUE "Duplicate value" None.
Proof.
  induction rows as [|r0 rest IH] in i0, seen |- *; simpl.
  { split; [by intros ?%elem_of_nil | by intros (k & r & Hk & _)]. }
  destruct (isEmpty r0.[c]) eqn:He; simpl;
    [|destruct (decide (r0.[c] ∈ seen)) as [Hin|Hin]]; rewrite ?elem_of_cons, IH.
  - split.
    + intros (k & r & Hk & Hne & Hdup & ->). exists (S k), r.
      rewrite Nat.add_succ_r. repeat split; try done.
      destruct Hdup as [?|(j & r' & ? & ? & ?)]; [by left|].
      right. exists (S j), r'. split; [lia|done].
    + intros ([|k] & r & Hk & Hne & Hdup & ->); simpl in Hk; [congruence|].
      exists k, r. rewrite Nat.add_succ_r. repeat split; try done.
      destruct Hdup as [?|([|j] & r' & Hlt & Hj & Heq)]; [by left| |]; simpl in Hj.
      * injection Hj as <-. congruence.
      * right. exists j, r'. split; [lia|done].
  - split.
    + intros [-> | (k & r & Hk & Hne & Hdup & ->)].
      * exists 0, r0. rewrite Nat.add_0_r. repeat split; auto.
      * exists (S k), r. rewrite Nat.add_succ_r. repeat split; try done.
        destruct Hdup as [?|(j & r' & ? & ? & ?)]; [by left|].
        right. exists (S j), r'. split; [lia|done].
    + intros ([|k] & r & Hk & Hne & Hdup & ->); simpl in Hk.
      * left. by rewrite Nat.add_0_r.
      * right. exists k, r. rewrite Nat.add_succ_r. repeat split; try done.
        destruct Hdup as [?|([|j] & r' & Hlt & Hj & Heq)]; [by left| |]; simpl in Hj.
        -- injection Hj as <-. left. congruence.
        -- right. exists j, r'. split; [lia|done].
  - split.
    + intros (k & r & Hk & Hne & Hdup & ->). exists (S k), r.
      rewrite Nat.add_succ_r. repeat split; try done.
      destruct Hdup as [[->%elem_of_singleton|?]%elem_of_union|(j & r' & ? & ? & ?)].
      * right. exists 0, r0. split; [lia|done].
      * by left.
      * right. exists (S j), r'. split; [lia|done].
    + intros ([|k] & r & Hk & Hne & Hdup & ->); simpl in Hk.
      * injection Hk as <-. destruct Hdup as [?|(j & _ & ? & _)]; [done|lia].
      * exists k, r. rewrite Nat.add_succ_r. repeat split; try done.
        destruct Hdup as [?|([|j] & r' & Hlt & Hj & Heq)];
          [left; set_solver| |]; simpl in Hj.
        -- injection Hj as <-. left. set_solver.
        -- right. exists j, r'. split; [lia|done].
Qed.

Lemma typePass_kind tableData c dataType v :
  v ∈ typePass tableData c dataType → type v = TYPE_MISMATCH ∧ col v = c.
Proof.
  intros (k & r & _ & Hv)%elem_of_forEachFrom. simpl in Hv.
  destruct (validateDataType _ _); [by apply elem_of_nil in Hv|].
  by apply list_elem_of_singleton in Hv as ->.
Qed.

Lemma notNullPass_kind tableData c v :
  v ∈ notNullPass tableData c → type v = NOT_NULL ∧ col v = c.
Proof.
  intros (k & r & _ & Hv)%elem_of_forEachFrom. simpl in Hv.
  destruct (isEmpty _); [|by apply elem_of_nil in Hv].
  by apply list_elem_of_singleton in Hv as ->.
Qed.

Lemma foreignKeyPass_kind cs fileTables cfg v :
  v ∈ foreignKeyPass cs fileTables cfg → type v = FOREIGN_KEY.
Proof.
  unfold foreignKeyPass. intros Hv.
  repeat case_match; try by apply elem_of_nil in Hv.
  by apply list_elem_of_fmap in Hv as (w & -> & _).
Qed.

Lemma has_elem_of cs name : has cs name = true ↔ name ∈ cs.
Proof. unfold has. apply bool_decide_eq_true. Qed.

(** Where a violation of [checkViolations] on a table with rows and
    constraints comes from. *)
Lemma elem_of_checkViolations tableData cs fileTables cfg tys v :
  v ∈ checkViolations tableData cs fileTables cfg tys ↔
  tableData ≠ [] ∧ cs ≠ [] ∧
  ((∃ idx c, keys (hd [] tableData) !! idx = Some c
             ∧ v ∈ columnViolations tableData cs tys idx c)
   ∨ v ∈ foreignKeyPass cs fileTables cfg).
Proof.
  unfold checkViolations.
  destruct tableData as [|r0 rest], cs as [|c0 cs]; simpl;
    try (split; [by intros ?%elem_of_nil | by intros (? & ? & _)]).
  rewrite elem_of_app, list_elem_of_join.
  split.
  - intros [(l & Hv & Hl) | Hv]; [|by auto].
    apply list_elem_of_lookup in Hl as [idx Hl].
    apply list_lookup_imap_Some in Hl as (c & Hc & ->). split_and!; [done..|].
    left. by exists idx, c.
  - intros (_ & _ & [(idx & c & Hc & Hv) | Hv]); [left|by right].
    eexists. split; [exact Hv|].
    apply list_elem_of_lookup. exists idx. apply list_lookup_imap_Some. eauto.
Qed.

(** The PRIMARY KEY violations of one column are those of its
    primary-key pass. *)
Lemma primary_violation_origin tableData cs fileTables cfg tys v :
  v ∈ checkViolations tableData cs fileTables cfg tys ∧ type v = PRIMARY_KEY ↔
  ∃ idx, keys (hd [] tableData) !! idx = Some (col v)
         ∧ "primary" ∈ default [] (cs !! idx)
         ∧ v ∈ primaryPass (col v) 0 ∅ tableData.
Proof.
  rewrite elem_of_checkViolations. split.
  - intros [(Hne & Hcs & [(idx & c & Hc & Hv) | Hv]) Hty].
    + unfold columnViolations in Hv. rewrite !elem_of_app in Hv.
      destruct Hv as [Hv | [Hv | [Hv | Hv]]].
      * apply typePass_kind in Hv as [??]. congruence.
      * destruct (has _ "primary") eqn:Hp; [|by apply elem_of_nil in Hv].
        assert (col v = c) as ->.
        { apply primaryPass_spec in Hv as (? & ? & _ & [[_ ->] | (_ & _ & ->)]); done. }
        exists idx. by rewrite <- has_elem_of.
      * destruct (has _ "unique"); [|by apply elem_of_nil in Hv].
        apply uniquePass_spec in Hv as (? & ? & _ & _ & _ & ->). done.
      * destruct (has _ "notnull"); [|by apply elem_of_nil in Hv].
        apply notNullPass_kind in Hv as [??]. congruence.
    + apply foreignKeyPass_kind in Hv. congruence.
  - intros (idx & Hc & Hp & Hv). split.
    + split_and!.
      * intros ->. by apply elem_of_nil in Hv.
      * intros ->. by apply elem_of_nil in Hp.
      * left. exists idx, (col v). split; [done|].
        unfold columnViolations. rewrite !elem_of_app. right. left.
        by rewrite (proj2 (has_elem_of _ _) Hp).
    + apply primaryPass_spec in Hv as (? & ? & _ & [[_ ->] | (_ & _ & ->)]); done.
Qed.

Lemma unique_violation_origin tableData cs fileTables cfg tys v :
  v ∈ checkViolations tableData cs fileTables cfg tys ∧ type v = UNIQUE ↔
  ∃ idx, keys (hd [] tableData) !! idx = Some (col v)
         ∧ "unique" ∈ default [] (cs !! idx)
         ∧ v ∈ uniquePass (col v) 0 ∅ tableData.
Proof.
  rewrite elem_of_checkViolations. split.
  - intros [(Hne & Hcs & [(idx & c & Hc & Hv) | Hv]) Hty].
    + unfold columnViolations in Hv. rewrite !elem_of_app in Hv.
      destruct Hv as [Hv | [Hv | [Hv | Hv]]].
      * apply typePass_kind in Hv as [??]. congruence.
      * destruct (has _ "primary"); [|by apply elem_of_nil in Hv].
        apply primaryPass_spec in Hv as (? & ? & _ & [[_ ->] | (_ & _ & ->)]); done.
      * destruct (has _ "unique") eqn:Hp; [|by apply elem_of_nil in Hv].
        assert (col v = c) as ->.
        { by apply uniquePass_spec in Hv as (? & ? & _ & _ & _ & ->). }
        exists idx. by rewrite <- has_elem_of.
      * destruct (has _ "notnull"); [|by apply elem_of_nil in Hv].
        apply notNullPass_kind in Hv as [??]. congruence.
    + apply foreignKeyPass_kind in Hv. congruence.
  - intros (idx & Hc & Hp & Hv). split.
    + split_and!.
      * intros ->. by apply elem_of_nil in Hv.
      * intros ->. by apply elem_of_nil in Hp.
      * left. exists idx, (col v). split; [done|].
        unfold columnViolations. rewrite !elem_of_app. right. right. left.
        by rewrite (proj2 (has_elem_of _ _) Hp).
    + by apply uniquePass_spec in Hv as (? & ? & _ & _ & _ & ->).
Qed.

End PassFacts.

(** ** Primary-key and uniqueness detection *)

Section DetectionTheorems.
Context `{rt : Runtime}.

(** C2. In a column that carries the primary constraint, row i has a
    PRIMARY KEY violation exactly when the column's value at row i is null
    or empty, in which case the violation reads "Null/empty value", or is
    non-empty and equal to the value of an earlier row, in which case it
    reads "Duplicate value". *)
Theorem checkViolations_primary_key
    (tableData : list Row) (confirmedConstraints : list (list string))
    (fileTables : gmap string FileTable.t) (foreignKeyConfig : option ForeignKeyConfig)
    (confirmedTypes : list string) (idx : nat) (c : string) (i : nat) (v : Violation) :
  keys (hd [] tableData) !! idx = Some c →
  "primary" ∈ default [] (confirmedConstraints !! idx) →
  (v ∈ checkViolations tableData confirmedConstraints fileTables foreignKeyConfig
         confirmedTypes
   ∧ type v = PRIMARY_KEY ∧ col v = c ∧ row v = (Z.of_nat i + 1)%Z)
  ↔ ∃ r, tableData !! i = Some r ∧
      ((isEmpty r.[c] = true
        ∧ v = mkViolation (Z.of_nat i + 1) c PRIMARY_KEY "Null/empty value" None)
       ∨ (isEmpty r.[c] = false
          ∧ (∃ j r', j < i ∧ tableData !! j = Some r' ∧ r'.[c] = r.[c])
          ∧ v = mkViolation (Z.of_nat i + 1) c PRIMARY_KEY "Duplicate value" None)).
Proof.
  intros Hc Hp. split.
  - intros (Hv & Hty & Hcol & Hrow).
    destruct (proj1 (primary_violation_origin _ _ _ _ _ _) (conj Hv Hty))
      as (idx' & _ & _ & Hpass).
    rewrite Hcol in Hpass.
    apply primaryPass_spec in Hpass as (k & r & Hk & Hcase).
    assert (k = i) as ->.
    { destruct Hcase as [[_ ->] | (_ & _ & ->)]; simpl in Hrow; lia. }
    exists r. split; [done|].
    destruct Hcase as [[He ->] | (He & [Hin | Hdup] & ->)]; [by left | set_solver |].
    right. by split_and!.
  - intros (r & Hi & Hcase).
    assert (v ∈ primaryPass c 0 ∅ tableData) as Hpass.
    { apply primaryPass_spec. exists i, r. split; [done|].
      destruct Hcase as [[He ->] | (He & Hdup & ->)]; [by left|].
      right. split_and!; auto. }
    assert (type v = PRIMARY_KEY ∧ col v = c ∧ row v = (Z.of_nat i + 1)%Z)
      as (Hty & Hcol & Hrow).
    { destruct Hcase as [[_ ->] | (_ & _ & ->)]; done. }
    split_and!; try done.
    eapply primary_violation_origin. exists idx. rewrite Hcol. done.
Qed.

(** C10. Duplicate detection compares cell values as they are: a
    "Duplicate value" violation of kind PRIMARY KEY or UNIQUE at a row
    means that an earlier row holds the identical tagged value in that
    column, and the value is not empty. The number 1, the text 1 and the
    text 1 after a blank, placed in one primary and unique column, are
    therefore not reported. *)
Theorem checkViolations_duplicates_strict
    (tableData : list Row) (confirmedConstraints : list (list string))
    (fileTables : gmap string FileTable.t) (foreignKeyConfig : option ForeignKeyConfig)
    (confirmedTypes : list string) :
  (∀ v, v ∈ checkViolations tableData confirmedConstraints fileTables foreignKeyConfig
              confirmedTypes →
        type v = PRIMARY_KEY ∨ type v = UNIQUE →
        msg v = "Duplicate value" →
        ∃ i j ri rj, row v = (Z.of_nat i + 1)%Z ∧ j < i
          ∧ tableData !! i = Some ri ∧ tableData !! j = Some rj
          ∧ rj.[col v] = ri.[col v] ∧ isEmpty ri.[col v] = false)
  ∧ checkViolations
      [[("id", VNum "1")]; [("id", VStr "1")]; [("id", VStr " 1")]]
      [["primary"; "unique"]] fileTables None [] = [].
Proof.
  split.
  - intros v Hv [Hty | Hty] Hmsg.
    + destruct (proj1 (primary_violation_origin _ _ _ _ _ _) (conj Hv Hty))
        as (_ & _ & _ & Hpass).
      apply primaryPass_spec in Hpass as (k & r & Hk & [[_ Heq] | (He & Hdup & Heq)]).
      { rewrite Heq in Hmsg. done. }
      destruct Hdup as [? | (j & r' & ? & ? & ?)]; [set_solver|].
      exists k, j, r, r'. rewrite Heq. by split_and!.
    + destruct (proj1 (unique_violation_origin _ _ _ _ _ _) (conj Hv Hty))
        as (_ & _ & _ & Hpass).
      apply uniquePass_spec in Hpass as (k & r & Hk & He & Hdup & Heq).
      destruct Hdup as [? | (j & r' & ? & ? & ?)]; [set_solver|].
      exists k, j, r, r'. rewrite Heq. by split_and!.
  - reflexivity.
Qed.

End DetectionTheorems.

(** Two rows with the id 1: the second is reported as a duplicate; an
    empty id in the first row is reported as null/empty. *)
Lemma checkViolations_primary_key_witness :
  mkViolation 2 "id" PRIMARY_KEY "Duplicate value" None
    ∈ checkViolations (rt := sampleRuntime)
        [[("id", VNum "1")]; [("id", VNum "1")]] [["primary"]] ∅ None []
  ∧ mkViolation 1 "id" PRIMARY_KEY "Null/empty value" None
    ∈ checkViolations (rt := sampleRuntime)
        [[("id", VStr "")]; [("id", VNum "1")]] [["primary"]] ∅ None [].
Proof.
  split.
  - apply (checkViolations_primary_key (rt := sampleRuntime)
             [[("id", VNum "1")]; [("id", VNum "1")]] [["primary"]] ∅ None [] 0 "id" 1);
      [reflexivity | elem_literal |].
    eexists. split; [reflexivity|]. right. split; [reflexivity|]. split; [|reflexivity].
    exists 0, [("id", VNum "1")]. split; [lia|]. split; reflexivity.
  - apply (checkViolations_primary_key (rt := sampleRuntime)
             [[("id", VStr "")]; [("id", VNum "1")]] [["primary"]] ∅ None [] 0 "id" 0);
      [reflexivity | elem_literal |].
    eexists. split; [reflexivity|]. left. split; reflexivity.
Defined.

(** The number 1, the text 1, then the number 1 again: the violation on
    the third row points back at the first row, not at the second. *)
Lemma checkViolations_duplicates_strict_witness :
  ∃ i j ri rj, (3 = Z.of_nat i + 1)%Z ∧ j < i
    ∧ [[("id", VNum "1")]; [("id", VStr "1")]; [("id", VNum "1")]] !! i = Some ri
    ∧ [[("id", VNum "1")]; [("id", VStr "1")]; [("id", VNum "1")]] !! j = Some rj
    ∧ rj.["id"] = ri.["id"] ∧ isEmpty ri.["id"] = false.
Proof.
  apply (proj1 (checkViolations_duplicates_strict (rt := sampleRuntime)
                  [[("id", VNum "1")]; [("id", VStr "1")]; [("id", VNum "1")]]
                  [["unique"]] ∅ None [])
           (mkViolation 3 "id" UNIQUE "Duplicate value" None));
    [elem_literal | by right | reflexivity].
Defined.

(** ** Foreign keys *)



(** Without a column name on either side the check reports nothing. *)
Lemma checkForeignKeyViolations_missing_column
    (foreignRows primaryRows : list Row) (fkCol : string) (pkCol : option string) :
  fkCol = "" ∨ pkCol = None ∨ pkCol = Some "" →
  checkForeignKeyViolations foreignRows primaryRows fkCol pkCol = [].
Proof.
  unfold checkForeignKeyViolations.
  intros [-> | [-> | ->]]; [by destruct pkCol|done|].
  by rewrite orb_true_r.
Qed.


(** ** Filters that keep the row index *)

Lemma elem_of_filterWithIndex {A : Type} (p : nat → A → bool) i0 xs i (x : A) :
  (i, x) ∈ filterWithIndex p i0 xs ↔
  ∃ k, i = i0 + k ∧ xs !! k = Some x ∧ p i x = true.
Proof.
  induction xs as [|x0 xs IH] in i0 |- *; simpl.
  - split; [by intros ?%elem_of_nil | by intros (k & _ & Hk & _)].
  - assert ((i, x) ∈ filterWithIndex p (S i0) xs ↔
            ∃ k, i = i0 + S k ∧ xs !! k = Some x ∧ p i x = true) as IH'.
    { rewrite IH. split; intros (k & -> & ?); exists k; split; (lia || done). }
    destruct (p i0 x0) eqn:Hp; rewrite ?elem_of_cons, IH'.
    + split.
      * intros [[= -> ->] | (k & -> & ?)]; [exists 0 | exists (S k)]; simpl.
        -- by rewrite Nat.add_0_r.
        -- done.
      * intros ([|k] & -> & Hk & Hpx); simpl in Hk.
        -- left. injection Hk as <-. by rewrite Nat.add_0_r.
        -- right. by exists k.
    + split.
      * intros (k & -> & ?). by exists (S k).
      * intros ([|k] & -> & Hk & Hpx); simpl in Hk.
        -- injection Hk as <-. rewrite Nat.add_0_r in Hpx. congruence.
        -- by exists k.
Qed.

Lemma length_filter_pos {A : Type} (p : A → bool) (xs : list A) :
  (0 <? length (filter (λ x, p x) xs)) = existsb p xs.
Proof.
  induction xs as [|x xs IH]; simpl; [done|].
  rewrite filter_cons. destruct (p x) eqn:Hp; simpl.
  - destruct (decide (true)); done.
  - destruct (decide (false)) as [[]|]; done.
Qed.

Section PartialRepairs.
Context (now : Z).






End PartialRepairs.



(** ** General repairs *)

(** Two objects with the same property names, each once, and the same
    value under every name are the same object literal. *)
Lemma row_ext (r1 r2 : Row) :
  wfRow r1 → keys r1 = keys r2 → (∀ c, c ∈ keys r1 → r1.[c] = r2.[c]) → r1 = r2.
Proof.
  unfold wfRow, keys.
  induction r1 as [|[k v] r1 IH] in r2 |- *; destruct r2 as [|[k' v'] r2];
    simpl; intros Hnd Hkeys Hget; try done.
  injection Hkeys as <- Hkeys. apply NoDup_cons in Hnd as [Hk Hnd].
  f_equal.
  - f_equal. specialize (Hget k (list_elem_of_here _ _)).
    by rewrite !decide_True in Hget.
  - apply IH; [done..|]. intros c Hc.
    specialize (Hget c (list_elem_of_further _ _ _ Hc)).
    rewrite !decide_False in Hget; [done|intros ->; done..].
Qed.

Lemma strictEquals_spec (v w : Value) :
  strictEquals v w = true ↔ v = w ∧ v ≠ VNum "NaN".
Proof.
  unfold strictEquals.
  rewrite andb_true_iff, negb_true_iff, bool_decide_eq_true, bool_decide_eq_false. done.
Qed.

Lemma areRepairsIdentical_spec (rows1 rows2 : list Row) :
  areRepairsIdentical rows1 rows2 = true ↔ sameReads rows1 rows2.
Proof.
  unfold areRepairsIdentical, sameReads.
  rewrite andb_true_iff, Nat.eqb_eq. apply and_iff_compat_l.
  induction rows1 as [|r1 rows1 IH] in rows2 |- *; destruct rows2 as [|r2 rows2]; simpl.
  - split; [by intros _ ???? ?|done].
  - split; [by intros _ ???? ?|done].
  - split; [by intros _ ???? _ ?|done].
  - rewrite andb_true_iff, IH. split.
    + intros [Hrow Hall] [|i] row1 row2 c; simpl.
      * intros [= <-] [= <-] Hc. apply strictEquals_spec.
        rewrite forallb_forall in Hrow. by apply Hrow, list_elem_of_In.
      * apply Hall.
    + intros Hall. split.
      * apply forallb_forall. intros c Hc%list_elem_of_In.
        apply strictEquals_spec. by apply (Hall 0 r1 r2 c).
      * intros i. apply (Hall (S i)).
Qed.

(** On rows with the same columns, each once, and without [NaN], the
    comparison is equality of the two row sequences. *)
Lemma sameReads_eq (rows1 rows2 : list Row) :
  (∀ r, r ∈ rows1 → wfRow r) →
  (∀ r c, r ∈ rows1 → c ∈ keys r → r.[c] ≠ VNum "NaN") →
  (∀ r1 r2, r1 ∈ rows1 → r2 ∈ rows2 → keys r1 = keys r2) →
  sameReads rows1 rows2 ↔ rows1 = rows2.
Proof.
  intros Hwf Hnan Hkeys. unfold sameReads. split.
  - intros [Hlen Hall]. apply list_eq_same_length with (length rows1); [done..|].
    intros i r1 r2 _ H1 H2. pose proof (list_elem_of_lookup_2 _ _ _ H1) as Hr1.
    pose proof (list_elem_of_lookup_2 _ _ _ H2) as Hr2.
    apply row_ext; [by apply Hwf | by apply Hkeys |].
    intros c Hc. by apply (Hall i r1 r2 c).
  - intros <-. split; [done|]. intros i row1 row2 c H1 H2 Hc.
    assert (row2 = row1) as -> by congruence.
    split; [done|]. apply Hnan; [by eapply list_elem_of_lookup_2 | done].
Qed.

Lemma keepFirst_elem_of tvr nulls cols i0 seen rows i r :
  (i, r) ∈ keepFirst tvr nulls cols i0 seen rows → ∃ k, i = i0 + k ∧ rows !! k = Some r.
Proof.
  induction rows as [|r0 rest IH] in i0, seen |- *; simpl; [by intros ?%elem_of_nil|].
  assert (∀ seen', (i, r) ∈ keepFirst tvr nulls cols (S i0) seen' rest →
                   ∃ k, i = i0 + k ∧ (r0 :: rest) !! k = Some r) as IH'.
  { intros seen' (k & -> & Hk)%IH. exists (S k). split; [lia|done]. }
  assert ((i, r) = (i0, r0) → ∃ k, i = i0 + k ∧ (r0 :: rest) !! k = Some r) as Hhd.
  { intros [= -> ->]. exists 0. split; [lia|done]. }
  repeat case_match; rewrite ?elem_of_cons; naive_solver.
Qed.

Lemma keepFirst_rows_subset tvr nulls cols i0 seen rows r :
  r ∈ (keepFirst tvr nulls cols i0 seen rows).*2 → r ∈ rows.
Proof.
  intros ([i r'] & -> & Hin)%list_elem_of_fmap.
  apply keepFirst_elem_of in Hin as (k & _ & Hk). by eapply list_elem_of_lookup_2.
Qed.

Lemma filterWithIndex_rows_subset {A : Type} (p : nat → A → bool) i0 xs (x : A) :
  x ∈ (filterWithIndex p i0 xs).*2 → x ∈ xs.
Proof.
  intros ([i x'] & -> & Hin)%list_elem_of_fmap.
  apply elem_of_filterWithIndex in Hin as (k & _ & Hk & _). by eapply list_elem_of_lookup_2.
Qed.

Lemma existsb_filter_nil {A : Type} (p : A → bool) (xs : list A) :
  existsb p xs = false → filter (λ x, p x) xs = [].
Proof.
  intros Hex. pose proof (length_filter_pos p xs) as Hlen. rewrite Hex in Hlen.
  destruct (filter _ xs); [done|]. simpl in Hlen. discriminate.
Qed.

Section GeneralRepairs.
Context (now : Z).

(** C5, as the code has it. The general repair returns at most two
    candidates. It sorts the violations by the text of their messages:
    when some message contains Null/empty value and none contains
    Duplicate value it returns the table without the rows of those
    violations, alone; when some message contains Duplicate value it
    returns the keep-first candidate, followed by the keep-last candidate
    unless the two row sequences compare alike, property by property of
    each keep-first row; and when no message contains either text it
    returns nothing. For a table whose rows have the columns of the
    first row, each once, and hold no [NaN], the two sequences compare
    alike exactly when they are the same. *)
Theorem generateGeneralRepairs_candidates
    (violations : list Violation) (tableData : list Row) (selectedFile : string) :
  (existsb (λ v, Js.includes (msg v) "Duplicate value") violations = false →
   existsb (λ v, Js.includes (msg v) "Null/empty value") violations = true →
   RepairFile.rows <$> generateGeneralRepairs now violations tableData selectedFile
   = [nullFreeRows violations tableData])
  ∧ (existsb (λ v, Js.includes (msg v) "Duplicate value") violations = true →
     (sameReads (keepFirstRows violations tableData) (keepLastRows violations tableData) →
      RepairFile.rows <$> generateGeneralRepairs now violations tableData selectedFile
      = [keepFirstRows violations tableData])
     ∧ (¬ sameReads (keepFirstRows violations tableData)
            (keepLastRows violations tableData) →
        RepairFile.rows <$> generateGeneralRepairs now violations tableData selectedFile
        = [keepFirstRows violations tableData; keepLastRows violations tableData]))
  ∧ (existsb (λ v, Js.includes (msg v) "Duplicate value") violations = false →
     existsb (λ v, Js.includes (msg v) "Null/empty value") violations = false →
     generateGeneralRepairs now violations tableData selectedFile = [])
  ∧ length (generateGeneralRepairs now violations tableData selectedFile) ≤ 2
  ∧ (wfTable tableData →
     (∀ r c, r ∈ tableData → c ∈ keys r → r.[c] ≠ VNum "NaN") →
     sameReads (keepFirstRows violations tableData) (keepLastRows violations tableData)
     ↔ keepFirstRows violations tableData = keepLastRows violations tableData).
Proof.
  change (existsb (λ v, Js.includes (msg v) "Duplicate value") violations)
    with (existsb (λ v, isDuplicateViolation v) violations).
  change (existsb (λ v, Js.includes (msg v) "Null/empty value") violations)
    with (existsb (λ v, isNullViolation v) violations).
  assert (wfTable tableData →
          (∀ r c, r ∈ tableData → c ∈ keys r → r.[c] ≠ VNum "NaN") →
          sameReads (keepFirstRows violations tableData) (keepLastRows violations tableData)
          ↔ keepFirstRows violations tableData = keepLastRows violations tableData)
    as Hsame.
  { intros [Huni Hwf] Hnan. apply sameReads_eq.
    - intros r Hr%keepFirst_rows_subset. by apply Hwf.
    - intros r c Hr%keepFirst_rows_subset. by apply Hnan.
    - intros r1 r2 Hr1%keepFirst_rows_subset Hr2%filterWithIndex_rows_subset.
      by rewrite (Huni r1), (Huni r2). }
  pose proof (areRepairsIdentical_spec (keepFirstRows violations tableData)
                (keepLastRows violations tableData)) as Hid.
  unfold generateGeneralRepairs.
  destruct violations as [|v0 vs] eqn:Hvs; [by split_and!; simpl; try lia|].
  rewrite <- Hvs in *. replace (length violations =? 0) with false by by rewrite Hvs.
  rewrite !length_filter_pos.
  fold (generalNullRows violations) (generalDuplicateCols violations).
  fold (nullFreeRows violations tableData) (keepFirstRows violations tableData)
    (keepLastRows violations tableData).
  destruct (existsb (λ v, isDuplicateViolation v) violations) eqn:Hdup;
    destruct (existsb (λ v, isNullViolation v) violations) eqn:Hnull; simpl.
  - rewrite (proj2 (Nat.eqb_neq _ 0)); simpl.
    + destruct (areRepairsIdentical _ _) eqn:Hcmp.
      * split_and!; try done; simpl; try lia.
        intros _. split; [done|]. intros Hne. destruct Hne. by apply Hid.
      * split_and!; try done; simpl; try lia.
        intros _. split; [|done]. intros Heq%Hid. congruence.
    + pose proof (length_filter_pos (λ v, isDuplicateViolation v) violations) as Hpos.
      rewrite Hdup in Hpos. apply Nat.ltb_lt in Hpos. lia.
  - rewrite andb_false_r.
    destruct (areRepairsIdentical _ _) eqn:Hcmp.
    + split_and!; try done; simpl; try lia.
      intros _. split; [done|]. intros Hne. destruct Hne. by apply Hid.
    + split_and!; try done; simpl; try lia.
      intros _. split; [|done]. intros Heq%Hid. congruence.
  - rewrite (existsb_filter_nil _ _ Hdup). simpl.
    split_and!; try done. lia.
  - split_and!; try done. simpl. lia.
Qed.

End GeneralRepairs.

(** The rows of the example table are objects over the same two columns. *)
Lemma sharedIdTable_wf : wfTable sharedIdTable.
Proof.
  split; intros r Hr; unfold sharedIdTable in Hr; elem_cases Hr; rewrite Hr;
    first [reflexivity | unfold wfRow; elem_literal].
Defined.

(** With the id column unique, the keep-first and the keep-last
    candidates differ and both are returned. *)
Lemma generateGeneralRepairs_candidates_witness :
  RepairFile.rows <$>
    generateGeneralRepairs 0
      (checkViolations (rt := sampleRuntime) sharedIdTable [["unique"]] ∅ None [])
      sharedIdTable "t.csv"
  = [[[("id", VNum "1"); ("a", VStr "x")]; [("id", VNum "2"); ("a", VStr "z")]];
     [[("id", VNum "1"); ("a", VStr "y")]; [("id", VNum "2"); ("a", VStr "z")]]].
Proof.
  destruct (generateGeneralRepairs_candidates 0
              (checkViolations (rt := sampleRuntime) sharedIdTable [["unique"]] ∅ None [])
              sharedIdTable "t.csv") as (_ & Hdup & _).
  destruct Hdup as [_ Hdiffer]; [reflexivity|].
  apply Hdiffer. intros [_ Hsame].
  destruct (Hsame 0 [("id", VNum "1"); ("a", VStr "x")] [("id", VNum "1"); ("a", VStr "y")]
              "a" eq_refl eq_refl) as [Heq _]; [elem_literal|].
  discriminate Heq.
Defined.

(** The comparison of the two candidates reads the properties of the
    keep-first row only: a keep-last row that differs in a property the
    keep-first row lacks compares alike, and the second candidate is
    dropped. *)
Example generateGeneralRepairs_extra_property :
  RepairFile.rows <$>
    generateGeneralRepairs 0
      (checkViolations (rt := sampleRuntime)
         [[("id", VNum "1")]; [("id", VNum "1"); ("extra", VStr "y")]]
         [["unique"]] ∅ None [])
      [[("id", VNum "1")]; [("id", VNum "1"); ("extra", VStr "y")]] "t.csv"
  = [[[("id", VNum "1")]]].
Proof. reflexivity. Qed.

(** [NaN] repeats itself for a [Set] but is not strictly equal to itself:
    the two candidates hold the same rows and are both returned. *)
Example generateGeneralRepairs_nan :
  RepairFile.rows <$>
    generateGeneralRepairs 0
      (checkViolations (rt := sampleRuntime)
         [[("id", VNum "NaN")]; [("id", VNum "NaN")]] [["unique"]] ∅ None [])
      [[("id", VNum "NaN")]; [("id", VNum "NaN")]] "t.csv"
  = [[[("id", VNum "NaN")]]; [[("id", VNum "NaN")]]].
Proof. reflexivity. Qed.

(** C5 fails as stated: on a table whose one cell, declared INTEGER,
    holds the text of a null/empty message, detection reports a single
    TYPE MISMATCH violation and neither a null/empty nor a duplicate-value
    violation, and the general repair still returns a candidate. *)
Lemma generateGeneralRepairs_quoting_not_empty :
  checkViolations (rt := sampleRuntime) quotingTable [[]] ∅ None ["INTEGER"]
  = [mkViolation 1 "age" TYPE_MISMATCH
       ("Type mismatch: expected INTEGER, got " +:+ Js.dquote +:+ "Null/empty value"
        +:+ Js.dquote) None]
  ∧ length (generateGeneralRepairs 0
              (checkViolations (rt := sampleRuntime) quotingTable [[]] ∅ None ["INTEGER"])
              quotingTable "t.csv") = 1.
Proof. split; reflexivity. Qed.

(** ** Empty and missing input *)

Lemma omap_imap_None {A B : Type} (f : nat → A → option B) (xs : list A) :
  (∀ idx x, f idx x = None) → omap id (imap f xs) = [].
Proof.
  induction xs as [|x xs IH] in f |- *; intros Hf; [done|].
  simpl. rewrite Hf. simpl. apply IH. intros idx y. apply Hf.
Qed.

(** C9 fails as stated: a table argument that is not there makes
    detection throw instead of returning the empty list. *)
Lemma checkViolationsCall_null_throws :
  checkViolationsCall (rt := sampleRuntime) Js.Null (Js.Array [["primary"]]) ∅ None []
  ≠ Js.Returns [].
Proof. discriminate. Qed.

Section EmptyInput.
Context `{rt : Runtime} (now : Z).

(** C9, as the code has it. For a table given as an array, with no
    rows, or with no constraint sets, or with no columns and no
    foreign-key link, detection returns the empty list without throwing,
    the primary-key generator returns no candidate without throwing, and
    the general and partial generators return no candidate for the
    violations detected, however the rows are held as objects. *)
Theorem empty_input_empty_result
    (tableData : list Row) (confirmedConstraints : list (list string))
    (fileTables : gmap string FileTable.t) (foreignKeyConfig : option ForeignKeyConfig)
    (confirmedTypes : list string) (selectedFile : string) :
  tableData = [] ∨ confirmedConstraints = []
  ∨ (keys (hd [] tableData) = [] ∧ foreignKeyConfig = None) →
  checkViolationsCall (Js.Array tableData) (Js.Array confirmedConstraints)
    fileTables foreignKeyConfig confirmedTypes = Js.Returns []
  ∧ generatePrimaryKeyRepairs now tableData confirmedConstraints selectedFile
    = Js.Returns []
  ∧ generateGeneralRepairs now
      (checkViolations tableData confirmedConstraints fileTables foreignKeyConfig
         confirmedTypes) tableData selectedFile = []
  ∧ ∀ (store : Store) (objects : list nat),
      store <$> objects = tableData →
      generatePartialRepairs now
        (checkViolations tableData confirmedConstraints fileTables foreignKeyConfig
           confirmedTypes) store objects selectedFile confirmedTypes = [].
Proof.
  intros Hcase.
  assert (checkViolations tableData confirmedConstraints fileTables foreignKeyConfig
            confirmedTypes = []) as Hcheck.
  { unfold checkViolations.
    destruct Hcase as [-> | [-> | [Hkeys ->]]]; simpl; [done|by rewrite orb_true_r|].
    rewrite Hkeys. simpl. by destruct (_ || _). }
  assert (pkColumns tableData confirmedConstraints = []) as Hpk.
  { unfold pkColumns.
    destruct Hcase as [-> | [-> | [Hkeys _]]]; [|done|].
    - rewrite omap_imap_None; [done|]. intros idx arr. by destruct (has arr "primary").
    - rewrite omap_imap_None; [done|]. intros idx arr.
      destruct (has arr "primary"), tableData as [|r0 rest]; try done.
      simpl in Hkeys. by rewrite Hkeys. }
  split_and!.
  - unfold checkViolationsCall. rewrite Hcheck. by destruct (length tableData =? 0).
  - unfold generatePrimaryKeyRepairs. by rewrite Hpk.
  - by rewrite Hcheck.
  - intros store objects _. by rewrite Hcheck.
Qed.

End EmptyInput.

(** A table without rows under a primary-key constraint. *)
Lemma empty_input_empty_result_witness :
  checkViolationsCall (rt := sampleRuntime) (Js.Array []) (Js.Array [["primary"]])
    ∅ None ["INTEGER"] = Js.Returns []
  ∧ generatePrimaryKeyRepairs 0 [] [["primary"]] "t.csv" = Js.Returns []
  ∧ generateGeneralRepairs 0
      (checkViolations (rt := sampleRuntime) [] [["primary"]] ∅ None ["INTEGER"])
      [] "t.csv" = []
  ∧ generatePartialRepairs 0
      (checkViolations (rt := sampleRuntime) [] [["primary"]] ∅ None ["INTEGER"])
      (storeOf []) (refsOf []) "t.csv" ["INTEGER"] = [].
Proof.
  destruct (empty_input_empty_result (rt := sampleRuntime) 0 [] [["primary"]] ∅ None
              ["INTEGER"] "t.csv") as (Hcheck & Hkey & Hgeneral & Hpartial).
  { left. reflexivity. }
  split_and!; [exact Hcheck | exact Hkey | exact Hgeneral |].
  exact (Hpartial (storeOf []) (refsOf []) eq_refl).
Defined.

(** ** Primary-key repairs *)

Section PrimaryKeyRepairs.
Context (now : Z).

Lemma collectRepairs_keys pkCols groupCount columns selectedFile idx seenRepairs allRepairs :
  NoDup (Json.stringify ∘ survivingTuples
         <$> collectRepairs now pkCols groupCount columns selectedFile idx seenRepairs
               allRepairs)
  ∧ ∀ cand, cand ∈ collectRepairs now pkCols groupCount columns selectedFile idx
                     seenRepairs allRepairs →
            Json.stringify (survivingTuples cand) ∉ seenRepairs.
Proof.
  induction allRepairs as [|rows rest IH] in idx, seenRepairs |- *; simpl.
  { split; [constructor | by intros ? ?%elem_of_nil]. }
  repeat case_match; try apply IH.
  destruct (IH (S idx) ({[Json.stringify
      (values <$> filter (λ r, forallb (λ c, has pkCols c || negb (isEmpty r.[c])) (keys r))
                    rows)]} ∪ seenRepairs)) as [Hnd Hfresh].
  split.
  - simpl. constructor; [|done].
    intros (cand & Hkey & Hcand)%list_elem_of_fmap.
    apply Hfresh in Hcand. apply Hcand, elem_of_union. left.
    apply elem_of_singleton. symmetry. exact Hkey.
  - intros cand [-> | Hcand]%elem_of_cons; [done|].
    apply Hfresh in Hcand. intros Hin. apply Hcand, elem_of_union. by right.
Qed.

(** C6. No two candidates of the primary-key repair have the same
    surviving value tuples: whenever the generator returns, the value
    tuples of its candidates are pairwise different, position by position
    in the list of candidates. *)
Theorem generatePrimaryKeyRepairs_deduplicated
    (tableData : list Row) (confirmedConstraints : list (list string))
    (selectedFile : string) (repairFileObjs : list RepairFile.t) :
  generatePrimaryKeyRepairs now tableData confirmedConstraints selectedFile
  = Js.Returns repairFileObjs →
  NoDup (survivingTuples <$> repairFileObjs).
Proof.
  unfold generatePrimaryKeyRepairs. intros Hgen.
  assert (NoDup (Json.stringify ∘ survivingTuples <$> repairFileObjs)) as Hkeys.
  { repeat case_match; simplify_eq; [apply collectRepairs_keys | constructor]. }
  rewrite list_fmap_compose in Hkeys. by apply NoDup_fmap_1 in Hkeys.
Qed.

End PrimaryKeyRepairs.

(** A key that names a property every object inherits is read as an
    existing group that cannot be pushed to. *)
Example generatePrimaryKeyRepairs_inherited_name :
  generatePrimaryKeyRepairs 0 [[("id", VStr "toString")]] [["primary"]] "t.csv" = Js.Throws.
Proof. reflexivity. Qed.

(** With the id column primary, the two candidates keep one or the other
    of the rows that share the id 1. *)
Lemma generatePrimaryKeyRepairs_deduplicated_witness :
  generatePrimaryKeyRepairs 0 sharedIdTable [["primary"]] "t.csv"
  = Js.Returns
      [RepairFile.mk "t.csv_repair_1_0.csv"
         [[("id", VNum "1"); ("a", VStr "x")]; [("id", VNum "2"); ("a", VStr "z")]]
         ["id"; "a"] None;
       RepairFile.mk "t.csv_repair_2_0.csv"
         [[("id", VNum "1"); ("a", VStr "y")]; [("id", VNum "2"); ("a", VStr "z")]]
         ["id"; "a"] None]
  ∧ NoDup [[[VNum "1"; VStr "x"]; [VNum "2"; VStr "z"]]; [[VNum "1"; VStr "y"]; [VNum "2"; VStr "z"]]].
Proof.
  split; [reflexivity|].
  exact (generatePrimaryKeyRepairs_deduplicated 0 sharedIdTable [["primary"]] "t.csv" _
           eq_refl).
Defined.

(** ** Position adjustment after a deletion *)












Lemma filter_drop_all {A : Type} (p : A → bool) (xs : list A) :
  (∀ x, x ∈ xs → p x = false) → filter (λ x, p x) xs = [].
Proof.
  induction xs as [|x xs IH]; intros Hall; [done|].
  rewrite filter_cons_False by (rewrite Hall; [intros []|apply list_elem_of_here]).
  apply IH. intros y Hy. by apply Hall, list_elem_of_further.
Qed.



Section AfterDelete.
Context `{rt : Runtime}.









End AfterDelete.


(** ** General repairs are clean *)

Lemma elem_of_setOrder {A : Type} `{EqDecision A} (xs : list A) (x : A) :
  x ∈ setOrder xs ↔ x ∈ xs.
Proof. unfold setOrder. by rewrite elem_of_reverse, elem_of_remove_dups, elem_of_reverse. Qed.

Lemma StronglySorted_lookup_lt {A : Type} (R : A → A → Prop) (xs : list A) j k a b :
  StronglySorted R xs → j < k → xs !! j = Some a → xs !! k = Some b → R a b.
Proof.
  intros Hsorted. induction Hsorted as [|x xs Hsorted IH Hall] in j, k |- *;
    intros Hlt Hj Hk; [done|].
  destruct k as [|k]; [lia|]. destruct j as [|j]; simpl in Hj, Hk.
  - injection Hj as <-. rewrite Forall_forall in Hall.
    by eapply Hall, list_elem_of_lookup_2.
  - eapply (IH j k); [lia|done..].
Qed.

Lemma filterWithIndex_sorted (p : nat → Row → bool) i0 xs :
  StronglySorted byIndex (filterWithIndex p i0 xs).
Proof.
  induction xs as [|x xs IH] in i0 |- *; simpl; [constructor|].
  destruct (p i0 x); [|apply IH].
  constructor; [apply IH|]. apply Forall_forall.
  intros [i y] (k & -> & _)%elem_of_filterWithIndex. unfold byIndex. simpl. lia.
Qed.

Lemma keepFirst_sorted tvr nulls cols i0 seen rows :
  StronglySorted byIndex (keepFirst tvr nulls cols i0 seen rows).
Proof.
  induction rows as [|r rest IH] in i0, seen |- *; simpl; [constructor|].
  assert (∀ seen', Forall (byIndex (i0, r)) (keepFirst tvr nulls cols (S i0) seen' rest))
    as Hall.
  { intros seen'. apply Forall_forall.
    intros [i y] (k & -> & _)%keepFirst_elem_of. unfold byIndex. simpl. lia. }
  repeat case_match; try apply IH; constructor; auto.
Qed.

Lemma scanFirst_mono r cols seen :
  seen ⊆ (scanFirst r cols seen).2.
Proof.
  induction cols as [|c cols IH] in seen |- *; simpl; [done|].
  destruct (decide _); [done|]. etrans; [|apply IH]. set_solver.
Qed.

Lemma scanFirst_kept r cols seen seen' c :
  scanFirst r cols seen = (true, seen') → c ∈ cols →
  (valueKey c r ∉ seen) ∧ valueKey c r ∈ seen'.
Proof.
  induction cols as [|c0 cols IH] in seen |- *; simpl; intros Hscan Hc;
    [by apply elem_of_nil in Hc|].
  destruct (decide (valueKey c0 r ∈ seen)) as [|Hfresh]; [done|].
  pose proof (scanFirst_mono r cols ({[valueKey c0 r]} ∪ seen)) as Hmono.
  rewrite Hscan in Hmono. simpl in Hmono.
  apply elem_of_cons in Hc as [-> | Hc].
  - split; [done|]. set_solver.
  - destruct (IH _ Hscan Hc) as [Hnot Hin]. split; [set_solver|done].
Qed.

(** A row the keep-first filter keeps has none of its keys among those
    seen before it, and no row kept after it repeats one of them. *)
Lemma keepFirst_fresh nulls cols i0 seen rows i r c :
  (i, r) ∈ keepFirst ∅ nulls cols i0 seen rows → c ∈ cols → valueKey c r ∉ seen.
Proof.
  induction rows as [|r0 rest IH] in i0, seen |- *; simpl; [by intros ?%elem_of_nil|].
  rewrite decide_False by set_solver.
  destruct (decide _); [by apply IH|].
  destruct (scanFirst r0 cols seen) as [keep seen'] eqn:Hscan.
  pose proof (scanFirst_mono r0 cols seen) as Hmono. rewrite Hscan in Hmono. simpl in Hmono.
  destruct keep.
  - intros [[= -> ->] | Hin]%elem_of_cons Hc.
    + by eapply scanFirst_kept.
    + specialize (IH _ _ Hin Hc). set_solver.
  - intros Hin Hc. specialize (IH _ _ Hin Hc). set_solver.
Qed.

Lemma keepFirst_distinct nulls cols i0 seen rows j k a b c :
  j < k →
  keepFirst ∅ nulls cols i0 seen rows !! j = Some a →
  keepFirst ∅ nulls cols i0 seen rows !! k = Some b →
  c ∈ cols → valueKey c a.2 ≠ valueKey c b.2.
Proof.
  induction rows as [|r0 rest IH] in i0, seen, j, k |- *; simpl; [done|].
  rewrite decide_False by set_solver.
  destruct (decide _); [by apply IH|].
  destruct (scanFirst r0 cols seen) as [keep seen'] eqn:Hscan.
  destruct keep; [|by apply IH].
  intros Hlt Hj Hk Hc. destruct k as [|k]; [lia|]. destruct j as [|j]; simpl in Hj, Hk.
  - injection Hj as <-. simpl. destruct b as [ib rb]. simpl.
    apply list_elem_of_lookup_2 in Hk.
    pose proof (keepFirst_fresh _ _ _ _ _ _ _ _ Hk Hc) as Hfresh.
    destruct (scanFirst_kept _ _ _ _ _ Hscan Hc) as [_ Hin]. congruence.
  - eapply (IH _ _ j k); [lia|done..].
Qed.

Lemma keepFirst_not_null nulls cols i0 seen rows i r :
  (i, r) ∈ keepFirst ∅ nulls cols i0 seen rows → Z.of_nat i ∉ nulls.
Proof.
  induction rows as [|r0 rest IH] in i0, seen |- *; simpl; [by intros ?%elem_of_nil|].
  rewrite decide_False by set_solver.
  destruct (decide _); [by apply IH|].
  destruct (scanFirst r0 cols seen) as [[] seen'];
    rewrite ?elem_of_cons; [intros [[= -> ->] | Hin]|]; eauto.
Qed.

Section CleanRepairs.
Context `{rt : Runtime} (now : Z).

Lemma notnull_violation_origin tableData cs fileTables cfg tys v :
  v ∈ checkViolations tableData cs fileTables cfg tys → type v = NOT_NULL →
  ∃ idx, keys (hd [] tableData) !! idx = Some (col v)
         ∧ "notnull" ∈ default [] (cs !! idx)
         ∧ v ∈ notNullPass tableData (col v).
Proof.
  rewrite elem_of_checkViolations.
  intros (Hne & Hcs & [(idx & c & Hc & Hv) | Hv]) Hty.
  - unfold columnViolations in Hv. rewrite !elem_of_app in Hv.
    destruct Hv as [Hv | [Hv | [Hv | Hv]]].
    + apply typePass_kind in Hv as [??]. congruence.
    + destruct (has _ "primary"); [|by apply elem_of_nil in Hv].
      apply primaryPass_spec in Hv as (? & ? & _ & [[_ ->] | (_ & _ & ->)]); done.
    + destruct (has _ "unique"); [|by apply elem_of_nil in Hv].
      by apply uniquePass_spec in Hv as (? & ? & _ & _ & _ & ->).
    + destruct (has _ "notnull") eqn:Hp; [|by apply elem_of_nil in Hv].
      destruct (notNullPass_kind _ _ _ Hv) as [_ ->].
      exists idx. by rewrite <- has_elem_of.
  - apply foreignKeyPass_kind in Hv. congruence.
Qed.

(** Detection lists every row with a null/empty cell in a primary or
    not-null column among the rows the repair removes. *)
Lemma null_row_listed tableData cs fileTables cfg tys i r idx c :
  tableData !! i = Some r → keys (hd [] tableData) !! idx = Some c →
  "primary" ∈ default [] (cs !! idx) ∨ "notnull" ∈ default [] (cs !! idx) →
  isEmpty r.[c] = true →
  Z.of_nat i ∈ generalNullRows (checkViolations tableData cs fileTables cfg tys).
Proof.
  intros Hi Hc Hcon He.
  assert (∃ kind, mkViolation (Z.of_nat i + 1) c kind "Null/empty value" None
                    ∈ checkViolations tableData cs fileTables cfg tys) as [kind Hv].
  { destruct Hcon as [Hp | Hn].
    - exists PRIMARY_KEY.
      eapply (proj2 (primary_violation_origin _ _ _ _ _ _)).
      exists idx. simpl. split_and!; [done..|].
      apply primaryPass_spec. exists i, r. split; [done|]. left. by split.
    - exists NOT_NULL. apply elem_of_checkViolations. split_and!.
      + intros ->. done.
      + intros ->. by apply elem_of_nil in Hn.
      + left. exists idx, c. split; [done|].
        unfold columnViolations. rewrite !elem_of_app. do 3 right.
        rewrite (proj2 (has_elem_of _ _) Hn).
        apply elem_of_forEachFrom. exists i, r. split; [done|]. simpl.
        rewrite He. by apply list_elem_of_singleton. }
  unfold generalNullRows, rowIndices.
  apply elem_of_list_to_set, list_elem_of_fmap.
  exists (mkViolation (Z.of_nat i + 1) c kind "Null/empty value" None).
  split; [simpl; lia|]. apply list_elem_of_filter. split; [by vm_compute|done].
Qed.

(** Detection lists every primary or unique column in which a
    non-empty value occurs twice among the columns the repair
    deduplicates. *)
Lemma duplicate_col_listed tableData cs fileTables cfg tys j k r' r idx c :
  j < k → tableData !! j = Some r' → tableData !! k = Some r →
  r'.[c] = r.[c] → isEmpty r.[c] = false →
  keys (hd [] tableData) !! idx = Some c →
  "primary" ∈ default [] (cs !! idx) ∨ "unique" ∈ default [] (cs !! idx) →
  c ∈ generalDuplicateCols (checkViolations tableData cs fileTables cfg tys).
Proof.
  intros Hlt Hj Hk Heq He Hc Hcon.
  assert (∃ kind, mkViolation (Z.of_nat k + 1) c kind "Duplicate value" None
                    ∈ checkViolations tableData cs fileTables cfg tys) as [kind Hv].
  { destruct Hcon as [Hp | Hu].
    - exists PRIMARY_KEY.
      eapply (proj2 (primary_violation_origin _ _ _ _ _ _)).
      exists idx. simpl. split_and!; [done..|].
      apply primaryPass_spec. exists k, r. split; [done|]. right.
      split_and!; [done| |done]. right. by exists j, r'.
    - exists UNIQUE.
      eapply (proj2 (unique_violation_origin _ _ _ _ _ _)).
      exists idx. simpl. split_and!; [done..|].
      apply uniquePass_spec. exists k, r. split_and!; [done..| |done].
      right. by exists j, r'. }
  unfold generalDuplicateCols.
  apply elem_of_setOrder, list_elem_of_fmap.
  exists (mkViolation (Z.of_nat k + 1) c kind "Duplicate value" None).
  split; [done|]. apply list_elem_of_filter. split; [by vm_compute|done].
Qed.

(** A selection of rows of the table, in table order, that skips the
    rows detection marked null and never repeats a key in a column
    detection marked duplicated, has no null/empty and no
    duplicate-value violation left. *)
Lemma selection_clean tableData cs fileTables cfg tys (sel : list (nat * Row)) :
  uniform tableData →
  StronglySorted byIndex sel →
  (∀ i r, (i, r) ∈ sel →
     tableData !! i = Some r
     ∧ Z.of_nat i ∉ generalNullRows (checkViolations tableData cs fileTables cfg tys)) →
  (∀ c j k a b,
     c ∈ generalDuplicateCols (checkViolations tableData cs fileTables cfg tys) →
     j < k → sel !! j = Some a → sel !! k = Some b → valueKey c a.2 ≠ valueKey c b.2) →
  filter (λ v, nullOrDuplicateKind v) (checkViolations sel.*2 cs fileTables cfg tys) = [].
Proof.
  intros Huni Hsorted Hsel Hdistinct.
  assert (∀ k r, sel.*2 !! k = Some r → ∃ i, sel !! k = Some (i, r)) as Hlook.
  { intros k r Hk. rewrite list_lookup_fmap in Hk.
    destruct (sel !! k) as [[i r0]|]; simplify_eq/=. by exists i. }
  assert (sel.*2 ≠ [] → keys (hd [] sel.*2) = keys (hd [] tableData)) as Hkeys.
  { destruct sel as [|[i r] sel']; [done|]. intros _. simpl.
    apply Huni. eapply list_elem_of_lookup_2, Hsel, list_elem_of_here. }
  assert (∀ c idx k r, keys (hd [] sel.*2) !! idx = Some c → sel.*2 !! k = Some r →
            "primary" ∈ default [] (cs !! idx) ∨ "notnull" ∈ default [] (cs !! idx) →
            isEmpty r.[c] = false) as Hnonnull.
  { intros c idx k r Hc Hk Hcon. apply not_true_is_false. intros He.
    destruct (Hlook _ _ Hk) as [i Hi].
    destruct (Hsel i r (list_elem_of_lookup_2 _ _ _ Hi)) as [Hti Hnot].
    apply Hnot. eapply null_row_listed; [done| |done..].
    rewrite <- Hkeys; [done|]. intros Hnil. by rewrite Hnil in Hk. }
  assert (∀ c idx j k r' r, keys (hd [] sel.*2) !! idx = Some c →
            j < k → sel.*2 !! j = Some r' → sel.*2 !! k = Some r →
            "primary" ∈ default [] (cs !! idx) ∨ "unique" ∈ default [] (cs !! idx) →
            isEmpty r.[c] = false → r'.[c] ≠ r.[c]) as Hnodup.
  { intros c idx j k r' r Hc Hlt Hj Hk Hcon He Heq.
    destruct (Hlook _ _ Hj) as [ij Hij]. destruct (Hlook _ _ Hk) as [ik Hik].
    destruct (Hsel ij r' (list_elem_of_lookup_2 _ _ _ Hij)) as [Htj _].
    destruct (Hsel ik r (list_elem_of_lookup_2 _ _ _ Hik)) as [Htk _].
    pose proof (StronglySorted_lookup_lt _ _ _ _ _ _ Hsorted Hlt Hij Hik) as Hidx.
    unfold byIndex in Hidx. simpl in Hidx.
    eapply (Hdistinct c j k); [|done..|].
    - eapply duplicate_col_listed; [exact Hidx|done..| |done].
      rewrite <- Hkeys; [done|]. intros Hnil. by rewrite Hnil in Hk.
    - simpl. unfold valueKey. by rewrite Heq. }
  apply filter_drop_all. intros v Hv.
  destruct (type v) eqn:Hty; unfold nullOrDuplicateKind; rewrite Hty; try done; exfalso.
  - destruct (proj1 (primary_violation_origin _ _ _ _ _ _) (conj Hv Hty))
      as (idx & Hc & Hp & Hpass).
    apply primaryPass_spec in Hpass
      as (k & r & Hk & [[He _] | (He & [Hin | (j & r' & Hlt & Hj & Heq)] & _)]).
    + rewrite (Hnonnull _ _ _ _ Hc Hk) in He; [done|by left].
    + set_solver.
    + eapply (Hnodup _ _ j k); [done..|by left|done|done].
  - destruct (proj1 (unique_violation_origin _ _ _ _ _ _) (conj Hv Hty))
      as (idx & Hc & Hp & Hpass).
    apply uniquePass_spec in Hpass
      as (k & r & Hk & He & [Hin | (j & r' & Hlt & Hj & Heq)] & _).
    + set_solver.
    + eapply (Hnodup _ _ j k); [done..|by right|done|done].
  - destruct (notnull_violation_origin _ _ _ _ _ _ Hv Hty) as (idx & Hc & Hp & Hpass).
    apply elem_of_forEachFrom in Hpass as (k & r & Hk & Hin). simpl in Hin.
    destruct (isEmpty r.[col v]) eqn:He; [|by apply elem_of_nil in Hin].
    rewrite (Hnonnull _ _ _ _ Hc Hk) in He; [done|by right].
Qed.

(** The row sequences a general repair can return. *)
Lemma generateGeneralRepairs_rows violations tableData selectedFile cand :
  cand ∈ generateGeneralRepairs now violations tableData selectedFile →
  (RepairFile.rows cand = nullFreeRows violations tableData
   ∧ generalDuplicateCols violations = [])
  ∨ RepairFile.rows cand = keepFirstRows violations tableData
  ∨ RepairFile.rows cand = keepLastRows violations tableData.
Proof.
  unfold generateGeneralRepairs. intros Hcand.
  destruct (length violations =? 0); [by apply elem_of_nil in Hcand|].
  destruct (_ || _); [|by apply elem_of_nil in Hcand].
  destruct (_ && _) eqn:Hguard.
  - apply list_elem_of_singleton in Hcand as ->. left. split; [done|].
    apply andb_true_iff in Hguard as [Hnone%Nat.eqb_eq _].
    unfold generalDuplicateCols.
    by destruct (filter (λ v, isDuplicateViolation v) violations).
  - right. apply elem_of_cons in Hcand as [-> | Hcand]; [by left|].
    destruct (areRepairsIdentical _ _); [by apply elem_of_nil in Hcand|].
    apply list_elem_of_singleton in Hcand as ->. by right.
Qed.

(** C4, as the code has it. On a table whose rows all have the property
    names of the first row, in the same order, every candidate the
    general repair returns for the violations detected holds rows that,
    checked again against the same constraints, have no PRIMARY KEY,
    UNIQUE or NOT NULL violation: no null/empty value and no duplicate
    value is left. *)
Theorem generateGeneralRepairs_clean
    (tableData : list Row) (confirmedConstraints : list (list string))
    (fileTables : gmap string FileTable.t) (foreignKeyConfig : option ForeignKeyConfig)
    (confirmedTypes : list string) (selectedFile : string) (cand : RepairFile.t) :
  uniform tableData →
  cand ∈ generateGeneralRepairs now
           (checkViolations tableData confirmedConstraints fileTables foreignKeyConfig
              confirmedTypes) tableData selectedFile →
  filter (λ v, nullOrDuplicateKind v)
    (checkViolations (RepairFile.rows cand) confirmedConstraints fileTables
       foreignKeyConfig confirmedTypes) = [].
Proof.
  intros Huni Hcand.
  apply generateGeneralRepairs_rows in Hcand as [[-> Hnone] | [-> | ->]];
    unfold nullFreeRows, keepFirstRows, keepLastRows;
    apply (selection_clean tableData); try done.
  - apply filterWithIndex_sorted.
  - intros i r (k & -> & Hk & Hp)%elem_of_filterWithIndex. split; [done|].
    by apply negb_true_iff, bool_decide_eq_false in Hp.
  - intros c j k a b Hc. rewrite Hnone in Hc. by apply elem_of_nil in Hc.
  - apply keepFirst_sorted.
  - intros i r Hin. split; [|by eapply keepFirst_not_null].
    by apply keepFirst_elem_of in Hin as (k & -> & Hk).
  - intros c j k a b Hc Hlt Hj Hk. by eapply keepFirst_distinct.
  - apply filterWithIndex_sorted.
  - intros i r (k & -> & Hk & Hp)%elem_of_filterWithIndex. split; [done|].
    rewrite decide_False in Hp by set_solver. by destruct (decide _).
  - intros c j k [ia ra] [ib rb] Hc Hlt Hj Hk Hkey. simpl in Hkey.
    pose proof (StronglySorted_lookup_lt _ _ _ _ _ _
                  (filterWithIndex_sorted _ _ _) Hlt Hj Hk) as Hidx.
    unfold byIndex in Hidx. simpl in Hidx.
    apply list_elem_of_lookup_2, elem_of_filterWithIndex in Hj as (_ & _ & _ & Hpa).
    apply list_elem_of_lookup_2, elem_of_filterWithIndex in Hk as (_ & _ & _ & Hpb).
    rewrite decide_False in Hpa, Hpb by set_solver.
    destruct (decide _); [done|]. destruct (decide _); [done|].
    rewrite forallb_forall in Hpa, Hpb.
    apply list_elem_of_In in Hc.
    pose proof (Hpa c Hc) as Ha%bool_decide_eq_true.
    pose proof (Hpb c Hc) as Hb%bool_decide_eq_true.
    rewrite Hkey in Ha. rewrite Ha in Hb. injection Hb as Hb. lia.
Qed.

End CleanRepairs.

(** C4 fails as stated: detection names the columns after the first
    row. Here only the first row, with its empty [a], is in violation;
    the one candidate drops it, and its rows, now named after a row that
    starts with [b], repeat the value of their first column. *)
Lemma generateGeneralRepairs_ragged_not_clean :
  RepairFile.rows <$>
    generateGeneralRepairs 0
      (checkViolations (rt := sampleRuntime) raggedTable [["unique"; "notnull"]] ∅ None [])
      raggedTable "t.csv"
  = [[[("b", VStr "x"); ("a", VStr "1")]; [("b", VStr "x"); ("a", VStr "2")]]]
  ∧ filter (λ v, nullOrDuplicateKind v)
      (checkViolations (rt := sampleRuntime)
         [[("b", VStr "x"); ("a", VStr "1")]; [("b", VStr "x"); ("a", VStr "2")]]
         [["unique"; "notnull"]] ∅ None [])
    = [mkViolation 2 "b" UNIQUE "Duplicate value" None].
Proof. split; reflexivity. Qed.

(** Both candidates of the example table pass the re-check. *)
Lemma generateGeneralRepairs_clean_witness :
  filter (λ v, nullOrDuplicateKind v)
    (checkViolations (rt := sampleRuntime)
       [[("id", VNum "1"); ("a", VStr "x")]; [("id", VNum "2"); ("a", VStr "z")]]
       [["unique"]; ["notnull"]] ∅ None []) = []
  ∧ filter (λ v, nullOrDuplicateKind v)
      (checkViolations (rt := sampleRuntime)
         [[("id", VNum "1"); ("a", VStr "y")]; [("id", VNum "2"); ("a", VStr "z")]]
         [["unique"]; ["notnull"]] ∅ None []) = [].
Proof.
  split.
  - apply (generateGeneralRepairs_clean (rt := sampleRuntime) 0 sharedIdTable
             [["unique"]; ["notnull"]] ∅ None [] "t.csv"
             (RepairFile.mk "t.csv_repair_1_0.csv"
                [[("id", VNum "1"); ("a", VStr "x")]; [("id", VNum "2"); ("a", VStr "z")]]
                ["id"; "a"]
                (Some "Repair 1: Keep first duplicate and remove empty rows (2 rows)")));
      [apply (proj1 sharedIdTable_wf) | apply list_elem_of_lookup; by exists 0].
  - apply (generateGeneralRepairs_clean (rt := sampleRuntime) 0 sharedIdTable
             [["unique"]; ["notnull"]] ∅ None [] "t.csv"
             (RepairFile.mk "t.csv_repair_2_0.csv"
                [[("id", VNum "1"); ("a", VStr "y")]; [("id", VNum "2"); ("a", VStr "z")]]
                ["id"; "a"]
                (Some "Repair 2: Keep last duplicate and remove empty rows (2 rows)")));
      [apply (proj1 sharedIdTable_wf) | apply list_elem_of_lookup; by exists 1].
Defined.

(** * Properties of the rest of the code *)

(** ** Detection: row numbers and the other kinds *)

Section MoreDetection.
Context `{rt : Runtime}.

Lemma columnViolations_origin tableData cs tys idx c v :
  v ∈ columnViolations tableData cs tys idx c →
  col v = c ∧ type v ≠ FOREIGN_KEY
  ∧ ∃ k r, tableData !! k = Some r ∧ row v = (Z.of_nat k + 1)%Z.
Proof.
  unfold columnViolations. rewrite !elem_of_app.
  intros [Hv | [Hv | [Hv | Hv]]].
  - apply elem_of_forEachFrom in Hv as (k & r & Hk & Hv). simpl in Hv.
    destruct (validateDataType _ _); [by apply elem_of_nil in Hv|].
    apply list_elem_of_singleton in Hv as ->. split_and!; [done..|]. by exists k, r.
  - destruct (has _ "primary"); [|by apply elem_of_nil in Hv].
    apply primaryPass_spec in Hv as (k & r & Hk & [[_ ->] | (_ & _ & ->)]);
      (split_and!; [done..|]); by exists k, r.
  - destruct (has _ "unique"); [|by apply elem_of_nil in Hv].
    apply uniquePass_spec in Hv as (k & r & Hk & _ & _ & ->).
    split_and!; [done..|]. by exists k, r.
  - destruct (has _ "notnull"); [|by apply elem_of_nil in Hv].
    apply elem_of_forEachFrom in Hv as (k & r & Hk & Hv). simpl in Hv.
    destruct (isEmpty _); [|by apply elem_of_nil in Hv].
    apply list_elem_of_singleton in Hv as ->. split_and!; [done..|]. by exists k, r.
Qed.

(** X1. Every violation of the table itself, that is every violation
    other than a FOREIGN KEY one, carries a 1-based row number within the
    table and the name of one of the table's columns. *)
Theorem checkViolations_positions_valid
    (tableData : list Row) (confirmedConstraints : list (list string))
    (fileTables : gmap string FileTable.t) (foreignKeyConfig : option ForeignKeyConfig)
    (confirmedTypes : list string) (v : Violation) :
  v ∈ checkViolations tableData confirmedConstraints fileTables foreignKeyConfig
        confirmedTypes →
  type v ≠ FOREIGN_KEY →
  (1 ≤ row v ≤ Z.of_nat (length tableData))%Z ∧ col v ∈ keys (hd [] tableData).
Proof.
  intros Hv Hty. apply elem_of_checkViolations in Hv as (_ & _ & [Hv | Hv]).
  - destruct Hv as (idx & c & Hc & Hv).
    apply columnViolations_origin in Hv as (-> & _ & k & r & Hk & ->).
    apply lookup_lt_Some in Hk. split; [lia|]. by eapply list_elem_of_lookup_2.
  - by apply foreignKeyPass_kind in Hv.
Qed.

(** X2. In a column that carries the unique constraint, row i has a
    UNIQUE violation exactly when its value is not null or empty and equals
    the value of an earlier row; null and empty values are never reported,
    however often they occur. *)
Theorem checkViolations_unique
    (tableData : list Row) (confirmedConstraints : list (list string))
    (fileTables : gmap string FileTable.t) (foreignKeyConfig : option ForeignKeyConfig)
    (confirmedTypes : list string) (idx : nat) (c : string) (i : nat) (v : Violation) :
  keys (hd [] tableData) !! idx = Some c →
  "unique" ∈ default [] (confirmedConstraints !! idx) →
  (v ∈ checkViolations tableData confirmedConstraints fileTables foreignKeyConfig
         confirmedTypes
   ∧ type v = UNIQUE ∧ col v = c ∧ row v = (Z.of_nat i + 1)%Z)
  ↔ ∃ r, tableData !! i = Some r ∧ isEmpty r.[c] = false
         ∧ (∃ j r', j < i ∧ tableData !! j = Some r' ∧ r'.[c] = r.[c])
         ∧ v = mkViolation (Z.of_nat i + 1) c UNIQUE "Duplicate value" None.
Proof.
  intros Hc Hu. split.
  - intros (Hv & Hty & Hcol & Hrow).
    destruct (proj1 (unique_violation_origin _ _ _ _ _ _) (conj Hv Hty))
      as (idx' & _ & _ & Hpass).
    rewrite Hcol in Hpass.
    apply uniquePass_spec in Hpass as (k & r & Hk & He & Hdup & Heq).
    assert (k = i) as ->. { rewrite Heq in Hrow. simpl in Hrow. lia. }
    exists r. split_and!; try done. destruct Hdup as [Hin|?]; [set_solver|done].
  - intros (r & Hi & He & Hdup & ->). split_and!; try done.
    eapply unique_violation_origin. exists idx. simpl. split_and!; try done.
    apply uniquePass_spec. exists i, r. split_and!; auto.
Qed.

(** X3. In a column that carries the notnull constraint, row i has a
    NOT NULL violation exactly when its value is null, undefined or the
    empty text; a value made of blanks is not reported. *)
Theorem checkViolations_not_null
    (tableData : list Row) (confirmedConstraints : list (list string))
    (fileTables : gmap string FileTable.t) (foreignKeyConfig : option ForeignKeyConfig)
    (confirmedTypes : list string) (idx : nat) (c : string) (i : nat) (v : Violation) :
  keys (hd [] tableData) !! idx = Some c →
  "notnull" ∈ default [] (confirmedConstraints !! idx) →
  (v ∈ checkViolations tableData confirmedConstraints fileTables foreignKeyConfig
         confirmedTypes
   ∧ type v = NOT_NULL ∧ col v = c ∧ row v = (Z.of_nat i + 1)%Z)
  ↔ ∃ r, tableData !! i = Some r
         ∧ (r.[c] = VNull ∨ r.[c] = VUndefined ∨ r.[c] = VStr "")
         ∧ v = mkViolation (Z.of_nat i + 1) c NOT_NULL "Null/empty value" None.
Proof.
  intros Hc Hn.
  assert (∀ x, isEmpty x = true ↔ x = VNull ∨ x = VUndefined ∨ x = VStr "") as Hempty.
  { intros [| |[|]| | | |]; simpl; naive_solver. }
  split.
  - intros (Hv & Hty & Hcol & Hrow).
    apply elem_of_checkViolations in Hv as (_ & _ & [Hv | Hv]);
      [|apply foreignKeyPass_kind in Hv; congruence].
    destruct Hv as (idx' & c' & Hc' & Hv).
    unfold columnViolations in Hv. rewrite !elem_of_app in Hv.
    destruct Hv as [Hv | [Hv | [Hv | Hv]]].
    + apply typePass_kind in Hv as [??]. congruence.
    + destruct (has _ "primary"); [|by apply elem_of_nil in Hv].
      apply primaryPass_spec in Hv as (? & ? & _ & [[_ ->] | (_ & _ & ->)]); done.
    + destruct (has _ "unique"); [|by apply elem_of_nil in Hv].
      by apply uniquePass_spec in Hv as (? & ? & _ & _ & _ & ->).
    + destruct (has _ "notnull"); [|by apply elem_of_nil in Hv].
      apply elem_of_forEachFrom in Hv as (k & r & Hk & Hv). simpl in Hv.
      destruct (isEmpty r.[c']) eqn:He; [|by apply elem_of_nil in Hv].
      apply list_elem_of_singleton in Hv as ->. simpl in *. subst c'.
      assert (k = i) as -> by lia. exists r. split_and!; try done. by apply Hempty.
  - intros (r & Hi & He%Hempty & ->). split_and!; try done.
    apply elem_of_checkViolations. split_and!.
    + intros ->. done.
    + intros ->. by apply elem_of_nil in Hn.
    + left. exists idx, c. split; [done|].
      unfold columnViolations. rewrite !elem_of_app. do 3 right.
      rewrite (proj2 (has_elem_of _ _) Hn).
      apply elem_of_forEachFrom. exists i, r. split; [done|]. simpl.
      rewrite He. by apply list_elem_of_singleton.
Qed.

(** X4. In a table whose first row names each column once, row i of a
    column has a TYPE MISMATCH violation exactly when its value fails the
    type validator for the type declared at the column's position (VARCHAR
    when none is), and the message quotes that type and the value. The
    type pass needs at least one constraint set to be given, even an
    empty one. *)
Theorem checkViolations_type_mismatch
    (tableData : list Row) (confirmedConstraints : list (list string))
    (fileTables : gmap string FileTable.t) (foreignKeyConfig : option ForeignKeyConfig)
    (confirmedTypes : list string) (idx : nat) (c : string) (i : nat) (v : Violation) :
  wfRow (hd [] tableData) →
  confirmedConstraints ≠ [] →
  keys (hd [] tableData) !! idx = Some c →
  (v ∈ checkViolations tableData confirmedConstraints fileTables foreignKeyConfig
         confirmedTypes
   ∧ type v = TYPE_MISMATCH ∧ col v = c ∧ row v = (Z.of_nat i + 1)%Z)
  ↔ ∃ r, tableData !! i = Some r
         ∧ validateDataType r.[c] (orElse (confirmedTypes !! idx) "VARCHAR") = false
         ∧ v = mkViolation (Z.of_nat i + 1) c TYPE_MISMATCH
                 ("Type mismatch: expected " +:+ orElse (confirmedTypes !! idx) "VARCHAR"
                  +:+ ", got " +:+ Js.dquote +:+ toText r.[c] +:+ Js.dquote) None.
Proof.
  intros Hwf Hcs Hc. split.
  - intros (Hv & Hty & Hcol & Hrow).
    apply elem_of_checkViolations in Hv as (_ & _ & [Hv | Hv]);
      [|apply foreignKeyPass_kind in Hv; congruence].
    destruct Hv as (idx' & c' & Hc' & Hv).
    unfold columnViolations in Hv. rewrite !elem_of_app in Hv.
    destruct Hv as [Hv | [Hv | [Hv | Hv]]].
    + apply elem_of_forEachFrom in Hv as (k & r & Hk & Hv). simpl in Hv.
      destruct (validateDataType _ _) eqn:Hval; [by apply elem_of_nil in Hv|].
      apply list_elem_of_singleton in Hv as ->. simpl in *. subst c'.
      assert (idx' = idx) as -> by (eapply NoDup_lookup; [exact Hwf|done..]).
      assert (k = i) as -> by lia. exists r. by split_and!.
    + destruct (has _ "primary"); [|by apply elem_of_nil in Hv].
      apply primaryPass_spec in Hv as (? & ? & _ & [[_ ->] | (_ & _ & ->)]); done.
    + destruct (has _ "unique"); [|by apply elem_of_nil in Hv].
      by apply uniquePass_spec in Hv as (? & ? & _ & _ & _ & ->).
    + destruct (has _ "notnull"); [|by apply elem_of_nil in Hv].
      apply notNullPass_kind in Hv as [??]. congruence.
  - intros (r & Hi & Hval & ->). split_and!; try done.
    apply elem_of_checkViolations. split_and!; [by intros -> | done |].
    left. exists idx, c. split; [done|].
    unfold columnViolations. rewrite !elem_of_app. left.
    apply elem_of_forEachFrom. exists i, r. split; [done|]. simpl.
    rewrite Hval. by apply list_elem_of_singleton.
Qed.

End MoreDetection.

(** The type mismatch of the ages table is on row 2 of 2, in a column of
    the table. *)
Lemma checkViolations_positions_valid_witness :
  (1 ≤ 2 ≤ Z.of_nat (length agesTable))%Z ∧ "age" ∈ keys (hd [] agesTable).
Proof.
  apply (checkViolations_positions_valid (rt := sampleRuntime) agesTable [[]; []] ∅ None
           ["VARCHAR"; "INTEGER"]
           (mkViolation 2 "age" TYPE_MISMATCH
              ("Type mismatch: expected INTEGER, got " +:+ Js.dquote +:+ "bad" +:+ Js.dquote)
              None));
    [elem_literal | discriminate].
Defined.

(** The second row of the shared-id table repeats the id of the first. *)
Lemma checkViolations_unique_witness :
  mkViolation 2 "id" UNIQUE "Duplicate value" None
  ∈ checkViolations (rt := sampleRuntime) sharedIdTable [["unique"]] ∅ None [].
Proof.
  apply (checkViolations_unique (rt := sampleRuntime) sharedIdTable [["unique"]] ∅ None
           [] 0 "id" 1); [reflexivity | elem_literal |].
  eexists. split; [reflexivity|]. split; [reflexivity|]. split; [|reflexivity].
  exists 0, [("id", VNum "1"); ("a", VStr "x")]. split; [lia|]. split; reflexivity.
Defined.

(** An empty name under the notnull constraint. *)
Lemma checkViolations_not_null_witness :
  mkViolation 1 "name" NOT_NULL "Null/empty value" None
  ∈ checkViolations (rt := sampleRuntime) [[("name", VStr "")]] [["notnull"]] ∅ None [].
Proof.
  apply (checkViolations_not_null (rt := sampleRuntime) [[("name", VStr "")]]
           [["notnull"]] ∅ None [] 0 "name" 0); [reflexivity | elem_literal |].
  eexists. split; [reflexivity|]. split; [|reflexivity]. right. right. reflexivity.
Defined.

(** The age of the second row of the ages table is not an integer. *)
Lemma checkViolations_type_mismatch_witness :
  mkViolation 2 "age" TYPE_MISMATCH
    ("Type mismatch: expected INTEGER, got " +:+ Js.dquote +:+ "bad" +:+ Js.dquote) None
  ∈ checkViolations (rt := sampleRuntime) agesTable [[]; []] ∅ None ["VARCHAR"; "INTEGER"].
Proof.
  apply (checkViolations_type_mismatch (rt := sampleRuntime) agesTable [[]; []] ∅ None
           ["VARCHAR"; "INTEGER"] 1 "age" 1);
    [unfold wfRow; elem_literal | discriminate | reflexivity |].
  eexists. split; [reflexivity|]. split; reflexivity.
Defined.

(** ** Checking a repair file *)

Lemma fmap_forEachFrom {A B C : Type} (g : B → C) (f : nat → A → list B) i0 xs :
  g <$> forEachFrom f i0 xs = forEachFrom (λ i x, g <$> f i x) i0 xs.
Proof.
  induction xs as [|x xs IH] in i0 |- *; simpl; [done|]. by rewrite fmap_app, IH.
Qed.

Lemma fmap_join_imap {A B C : Type} (g : B → C) (f : nat → A → list B) (xs : list A) :
  g <$> mjoin (imap f xs) = mjoin (imap (λ i x, g <$> f i x) xs).
Proof.
  induction xs as [|x xs IH] in f |- *; [done|].
  rewrite !imap_cons. simpl. by rewrite fmap_app, IH.
Qed.

Lemma forEachFrom_ext_all {A B : Type} (f g : nat → A → list B) i0 xs :
  (∀ i x, f i x = g i x) → forEachFrom f i0 xs = forEachFrom g i0 xs.
Proof.
  intros Hfg. induction xs as [|x xs IH] in i0 |- *; simpl; [done|]. by rewrite Hfg, IH.
Qed.

Section RepairCheckerFacts.
Context `{rt : Runtime} (now : Z).

Lemma typePassRepair_keys rows c dataType :
  violationKey <$> typePassRepair rows c dataType
  = violationKey <$> typePass rows c dataType.
Proof.
  unfold typePassRepair, typePass. rewrite !fmap_forEachFrom.
  apply forEachFrom_ext_all. intros i r. simpl. by destruct (validateDataType _ _).
Qed.

Lemma elem_of_checkRepairFileViolations repairFile cs fileTables cfg tys v :
  v ∈ checkRepairFileViolations (Some repairFile) cs fileTables cfg tys ↔
  (∃ idx c, RepairView.columns repairFile !! idx = Some c
            ∧ v ∈ repairColumnViolations (RepairView.rows repairFile) cs
                    (default tys (RepairView.types repairFile)) idx c)
  ∨ v ∈ repairForeignKeyPass repairFile fileTables cfg.
Proof.
  unfold checkRepairFileViolations. rewrite elem_of_app, list_elem_of_join.
  apply or_iff_both; [|done]. split.
  - intros (l & Hv & Hl). apply list_elem_of_lookup in Hl as [idx Hl].
    apply list_lookup_imap_Some in Hl as (c & Hc & ->). by exists idx, c.
  - intros (idx & c & Hc & Hv). eexists. split; [exact Hv|].
    apply list_elem_of_lookup. exists idx. apply list_lookup_imap_Some. eauto.
Qed.

Lemma repairForeignKeyPass_kind repairFile fileTables cfg v :
  v ∈ repairForeignKeyPass repairFile fileTables cfg → type v = FOREIGN_KEY.
Proof.
  unfold repairForeignKeyPass. intros Hv.
  repeat case_match; try by apply elem_of_nil in Hv.
  by apply list_elem_of_fmap in Hv as (w & -> & _).
Qed.

(** X5. Without a foreign-key link, checking a repair file whose columns
    are those of its first row reports the same violations, by row, column
    and kind and in the same order, as detection run on its rows under the
    types the file carries (the confirmed types when it carries none),
    provided it has rows and at least one constraint set is given. *)
Theorem checkRepairFileViolations_agrees
    (repairFile : RepairView.t) (confirmedConstraints : list (list string))
    (fileTables : gmap string FileTable.t) (confirmedTypes : list string) :
  RepairView.rows repairFile ≠ [] →
  confirmedConstraints ≠ [] →
  RepairView.columns repairFile = keys (hd [] (RepairView.rows repairFile)) →
  violationKey <$> checkRepairFileViolations (Some repairFile) confirmedConstraints
                     None None confirmedTypes
  = violationKey <$> checkViolations (RepairView.rows repairFile) confirmedConstraints
                       fileTables None
                       (default confirmedTypes (RepairView.types repairFile)).
Proof.
  intros Hrows Hcs Hcols. unfold checkRepairFileViolations, checkViolations.
  destruct (RepairView.rows repairFile) as [|r0 rest] eqn:Hr; [done|].
  destruct confirmedConstraints as [|c0 cs]; [done|].
  cbn [length Nat.eqb orb]. rewrite Hcols. simpl foreignKeyPass. simpl repairForeignKeyPass.
  rewrite !app_nil_r, !fmap_join_imap.
  apply (f_equal mjoin), imap_ext. intros idx c _.
  unfold repairColumnViolations, columnViolations.
  by rewrite !fmap_app, typePassRepair_keys.
Qed.

(** What a candidate of the general repair is: rows of the table, in
    table order, none of them marked null by detection, no two of them
    with the same key in a column detection marked duplicated. *)
Lemma general_candidate_selection violations tableData selectedFile cand :
  cand ∈ generateGeneralRepairs now violations tableData selectedFile →
  RepairFile.columns cand = keys (hd [] tableData)
  ∧ ∃ sel : list (nat * Row),
      RepairFile.rows cand = sel.*2
      ∧ StronglySorted byIndex sel
      ∧ (∀ i r, (i, r) ∈ sel →
           tableData !! i = Some r ∧ Z.of_nat i ∉ generalNullRows violations)
      ∧ (∀ c j k a b, c ∈ generalDuplicateCols violations → j < k →
           sel !! j = Some a → sel !! k = Some b → valueKey c a.2 ≠ valueKey c b.2).
Proof.
  intros Hcand. split.
  { unfold generateGeneralRepairs in Hcand.
    repeat case_match; rewrite ?elem_of_cons in Hcand;
      try (by apply elem_of_nil in Hcand);
      destruct Hcand as [-> | Hcand]; try done;
      rewrite ?elem_of_cons in Hcand; try (by apply elem_of_nil in Hcand);
      destruct Hcand as [-> | Hcand]; try done; by apply elem_of_nil in Hcand. }
  apply generateGeneralRepairs_rows in Hcand as [[-> Hnone] | [-> | ->]];
    unfold nullFreeRows, keepFirstRows, keepLastRows; eexists; (split; [reflexivity|]);
    split_and!.
  - apply filterWithIndex_sorted.
  - intros i r (k & -> & Hk & Hp)%elem_of_filterWithIndex. split; [done|].
    by apply negb_true_iff, bool_decide_eq_false in Hp.
  - intros c j k a b Hc. rewrite Hnone in Hc. by apply elem_of_nil in Hc.
  - apply keepFirst_sorted.
  - intros i r Hin. split; [|by eapply keepFirst_not_null].
    by apply keepFirst_elem_of in Hin as (k & -> & Hk).
  - intros c j k a b Hc Hlt Hj Hk. by eapply keepFirst_distinct.
  - apply filterWithIndex_sorted.
  - intros i r (k & -> & Hk & Hp)%elem_of_filterWithIndex. split; [done|].
    rewrite decide_False in Hp by set_solver. by destruct (decide _).
  - intros c j k [ia ra] [ib rb] Hc Hlt Hj Hk Hkey. simpl in Hkey.
    pose proof (StronglySorted_lookup_lt _ _ _ _ _ _
                  (filterWithIndex_sorted _ _ _) Hlt Hj Hk) as Hidx.
    unfold byIndex in Hidx. simpl in Hidx.
    apply list_elem_of_lookup_2, elem_of_filterWithIndex in Hj as (_ & _ & _ & Hpa).
    apply list_elem_of_lookup_2, elem_of_filterWithIndex in Hk as (_ & _ & _ & Hpb).
    rewrite decide_False in Hpa, Hpb by set_solver.
    destruct (decide _); [done|]. destruct (decide _); [done|].
    rewrite forallb_forall in Hpa, Hpb.
    apply list_elem_of_In in Hc.
    pose proof (Hpa c Hc) as Ha%bool_decide_eq_true.
    pose proof (Hpb c Hc) as Hb%bool_decide_eq_true.
    rewrite Hkey in Ha. rewrite Ha in Hb. injection Hb as Hb. lia.
Qed.

(** X6. The application shows no violations for a candidate of the
    general repair without checking it. Checking it does bear this out for
    null/empty and duplicate values: for every table, whatever the shape
    of its rows, the repair-file check of a candidate generated from the
    detected violations reports no PRIMARY KEY, UNIQUE or NOT NULL
    violation under the same constraints. *)
Theorem generateGeneralRepairs_repair_check_clean
    (tableData : list Row) (confirmedConstraints : list (list string))
    (fileTables : gmap string FileTable.t) (foreignKeyConfig : option ForeignKeyConfig)
    (confirmedTypes : list string) (selectedFile : string) (cand : RepairFile.t)
    (fileTables' : option (gmap string FileTable.t))
    (foreignKeyConfig' : option ForeignKeyConfig) (confirmedTypes' : list string) :
  cand ∈ generateGeneralRepairs now
           (checkViolations tableData confirmedConstraints fileTables foreignKeyConfig
              confirmedTypes) tableData selectedFile →
  filter (λ v, nullOrDuplicateKind v)
    (checkRepairFileViolations (Some (viewRepairFile cand)) confirmedConstraints
       fileTables' foreignKeyConfig' confirmedTypes') = [].
Proof.
  intros (Hcols & sel & Hrows & Hsorted & Hsel & Hdistinct)%general_candidate_selection.
  assert (∀ k r, sel.*2 !! k = Some r → ∃ i, sel !! k = Some (i, r)) as Hlook.
  { intros k r Hk. rewrite list_lookup_fmap in Hk.
    destruct (sel !! k) as [[i r0]|]; simplify_eq/=. by exists i. }
  assert (∀ c idx k r, keys (hd [] tableData) !! idx = Some c → sel.*2 !! k = Some r →
            "primary" ∈ default [] (confirmedConstraints !! idx)
            ∨ "notnull" ∈ default [] (confirmedConstraints !! idx) →
            isEmpty r.[c] = false) as Hnonnull.
  { intros c idx k r Hc Hk Hcon. apply not_true_is_false. intros He.
    destruct (Hlook _ _ Hk) as [i Hi].
    destruct (Hsel i r (list_elem_of_lookup_2 _ _ _ Hi)) as [Hti Hnot].
    apply Hnot. by eapply null_row_listed. }
  assert (∀ c idx j k r' r, keys (hd [] tableData) !! idx = Some c →
            j < k → sel.*2 !! j = Some r' → sel.*2 !! k = Some r →
            "primary" ∈ default [] (confirmedConstraints !! idx)
            ∨ "unique" ∈ default [] (confirmedConstraints !! idx) →
            isEmpty r.[c] = false → r'.[c] ≠ r.[c]) as Hnodup.
  { intros c idx j k r' r Hc Hlt Hj Hk Hcon He Heq.
    destruct (Hlook _ _ Hj) as [ij Hij]. destruct (Hlook _ _ Hk) as [ik Hik].
    destruct (Hsel ij r' (list_elem_of_lookup_2 _ _ _ Hij)) as [Htj _].
    destruct (Hsel ik r (list_elem_of_lookup_2 _ _ _ Hik)) as [Htk _].
    pose proof (StronglySorted_lookup_lt _ _ _ _ _ _ Hsorted Hlt Hij Hik) as Hidx.
    unfold byIndex in Hidx. simpl in Hidx.
    eapply (Hdistinct c j k); [|done..|].
    - by eapply duplicate_col_listed.
    - simpl. unfold valueKey. by rewrite Heq. }
  apply filter_drop_all. intros v Hv.
  apply elem_of_checkRepairFileViolations in Hv as [(idx & c & Hc & Hv) | Hv];
    [|apply repairForeignKeyPass_kind in Hv; unfold nullOrDuplicateKind; by rewrite Hv].
  simpl in Hc, Hv. rewrite Hcols in Hc. rewrite Hrows in Hv.
  unfold repairColumnViolations in Hv. rewrite !elem_of_app in Hv.
  destruct Hv as [Hv | [Hv | [Hv | Hv]]].
  - apply elem_of_forEachFrom in Hv as (k & r & _ & Hv). simpl in Hv.
    destruct (validateDataType _ _); [by apply elem_of_nil in Hv|].
    by apply list_elem_of_singleton in Hv as ->.
  - destruct (has _ "primary") eqn:Hp; [|by apply elem_of_nil in Hv].
    apply has_elem_of in Hp. exfalso.
    apply primaryPass_spec in Hv
      as (k & r & Hk & [[He _] | (He & [Hin | (j & r' & Hlt & Hj & Heq)] & _)]).
    + rewrite (Hnonnull _ _ _ _ Hc Hk) in He; [done|by left].
    + set_solver.
    + eapply (Hnodup _ _ j k); [done..|by left|done|done].
  - destruct (has _ "unique") eqn:Hp; [|by apply elem_of_nil in Hv].
    apply has_elem_of in Hp. exfalso.
    apply uniquePass_spec in Hv
      as (k & r & Hk & He & [Hin | (j & r' & Hlt & Hj & Heq)] & _).
    + set_solver.
    + eapply (Hnodup _ _ j k); [done..|by right|done|done].
  - destruct (has _ "notnull") eqn:Hp; [|by apply elem_of_nil in Hv].
    apply has_elem_of in Hp. exfalso.
    apply elem_of_forEachFrom in Hv as (k & r & Hk & Hin). simpl in Hin.
    destruct (isEmpty r.[c]) eqn:He; [|by apply elem_of_nil in Hin].
    rewrite (Hnonnull _ _ _ _ Hc Hk) in He; [done|by right].
Qed.

End RepairCheckerFacts.

(** The shared-id table as a repair file, checked under a unique id. *)
Lemma checkRepairFileViolations_agrees_witness :
  violationKey <$> checkRepairFileViolations (rt := sampleRuntime)
                     (Some (RepairView.mk "t.csv" sharedIdTable ["id"; "a"] None))
                     [["unique"]] None None []
  = [(2%Z, "id", UNIQUE)].
Proof.
  rewrite (checkRepairFileViolations_agrees (rt := sampleRuntime)
             (RepairView.mk "t.csv" sharedIdTable ["id"; "a"] None) [["unique"]] ∅ []);
    [reflexivity | discriminate | discriminate | reflexivity].
Defined.

(** The keep-first candidate of the shared-id table passes the check. *)
Lemma generateGeneralRepairs_repair_check_clean_witness :
  filter (λ v, nullOrDuplicateKind v)
    (checkRepairFileViolations (rt := sampleRuntime)
       (Some (RepairView.mk "t.csv_repair_1_0.csv"
                [[("id", VNum "1"); ("a", VStr "x")]; [("id", VNum "2"); ("a", VStr "z")]]
                ["id"; "a"] None))
       [["unique"]; ["notnull"]] (Some ∅) None []) = [].
Proof.
  apply (generateGeneralRepairs_repair_check_clean (rt := sampleRuntime) 0 sharedIdTable
           [["unique"]; ["notnull"]] ∅ None [] "t.csv"
           (RepairFile.mk "t.csv_repair_1_0.csv"
              [[("id", VNum "1"); ("a", VStr "x")]; [("id", VNum "2"); ("a", VStr "z")]]
              ["id"; "a"]
              (Some "Repair 1: Keep first duplicate and remove empty rows (2 rows)"))
           (Some ∅) None []).
  apply list_elem_of_lookup. by exists 0.
Defined.

(** ** Bookkeeping after an edit *)

(** X7. Deleting a row of a table of n rows keeps the violations valid
    against the n - 1 rows that remain: when every violation sits on one
    of the rows 1..n and the deleted index is one of 0..n-1, every adjusted
    violation sits on one of the rows 1..n-1; and none is added. *)
Theorem updateViolationsAfterDelete_positions_valid
    (checkResults : list Violation) (deleteIndex n : Z) :
  (∀ v, v ∈ checkResults → 1 ≤ row v ≤ n)%Z →
  (0 ≤ deleteIndex < n)%Z →
  (∀ v, v ∈ updateViolationsAfterDelete checkResults deleteIndex → 1 ≤ row v ≤ n - 1)%Z
  ∧ length (updateViolationsAfterDelete checkResults deleteIndex) ≤ length checkResults.
Proof.
  intros Hrows Hd. unfold updateViolationsAfterDelete. split.
  - intros v (w & -> & [Hne Hw]%list_elem_of_filter)%list_elem_of_fmap.
    specialize (Hrows w Hw). destruct (decide _); simpl; lia.
  - rewrite length_fmap. apply length_filter.
Qed.

Lemma updateViolationsAfterDelete_positions_valid_witness :
  (∀ v, v ∈ updateViolationsAfterDelete
              [mkViolation 1 "id" PRIMARY_KEY "Duplicate value" None;
               mkViolation 2 "name" NOT_NULL "Null/empty value" None;
               mkViolation 3 "id" PRIMARY_KEY "Duplicate value" None] 1 →
        1 ≤ row v ≤ 3 - 1)%Z
  ∧ length (updateViolationsAfterDelete
              [mkViolation 1 "id" PRIMARY_KEY "Duplicate value" None;
               mkViolation 2 "name" NOT_NULL "Null/empty value" None;
               mkViolation 3 "id" PRIMARY_KEY "Duplicate value" None] 1) ≤ 3.
Proof.
  apply (updateViolationsAfterDelete_positions_valid
           [mkViolation 1 "id" PRIMARY_KEY "Duplicate value" None;
            mkViolation 2 "name" NOT_NULL "Null/empty value" None;
            mkViolation 3 "id" PRIMARY_KEY "Duplicate value" None] 1 3); [|lia].
  intros v Hv. elem_cases Hv; rewrite Hv; simpl; lia.
Defined.

Lemma NoDup_setOrder {A : Type} `{EqDecision A} (xs : list A) : NoDup (setOrder xs).
Proof. unfold setOrder. rewrite reverse_Permutation. apply NoDup_remove_dups. Qed.

(** X8. The highlight sets hold each violated column once and each
    violated row once, as a 0-based index, and nothing else. *)
Theorem calculateViolationPositions_exact (tableViolations : list Violation) :
  NoDup (violationCols (calculateViolationPositions tableViolations))
  ∧ NoDup (violationRows (calculateViolationPositions tableViolations))
  ∧ (∀ c, c ∈ violationCols (calculateViolationPositions tableViolations)
          ↔ ∃ v, v ∈ tableViolations ∧ col v = c)
  ∧ (∀ i, i ∈ violationRows (calculateViolationPositions tableViolations)
          ↔ ∃ v, v ∈ tableViolations ∧ (row v - 1)%Z = i).
Proof.
  unfold calculateViolationPositions.
  destruct tableViolations as [|v0 vs] eqn:Hvs.
  { simpl. split_and!; try apply NoDup_nil_2; intros x; split;
      solve [by intros ?%elem_of_nil | by intros (? & ?%elem_of_nil & _)]. }
  rewrite <- Hvs. replace (0 <? length tableViolations) with true by by rewrite Hvs.
  simpl. split_and!; try apply NoDup_setOrder.
  - intros c. rewrite elem_of_setOrder, list_elem_of_fmap. naive_solver.
  - intros i. rewrite elem_of_setOrder, list_elem_of_fmap. naive_solver.
Qed.

(** ** Recognising the manual candidates *)

Lemma prefix_spec (p s : string) : String.prefix p s = true ↔ ∃ w, s = p +:+ w.
Proof.
  induction p as [|a p IH] in s |- *.
  - destruct s; simpl; (split; [intros _; by eexists | done]).
  - destruct s as [|b s]; simpl.
    + split; [done | by intros (w & ?)].
    + destruct (Ascii.ascii_dec a b) as [->|Hne].
      * rewrite IH. split; intros (w & Hw); exists w.
        -- by rewrite Hw.
        -- by injection Hw.
      * split; [done|]. intros (w & Hw). injection Hw as ? _. congruence.
Qed.

Lemma string_app_assoc (a b c : string) : (a +:+ b) +:+ c = a +:+ b +:+ c.
Proof. induction a as [|x a IH]; [done|]. change (String x ((a +:+ b) +:+ c) = String x (a +:+ b +:+ c)). by rewrite IH. Qed.

Lemma nonEmpty_app_r (a b : string) : Js.nonEmpty b = true → Js.nonEmpty (a +:+ b) = true.
Proof. by destruct a. Qed.

(** [s.includes(sub)] holds exactly when [sub] occurs in [s]. *)
Lemma includes_spec (s sub : string) :
  Js.includes s sub = true ↔ ∃ u w, s = u +:+ sub +:+ w.
Proof.
  induction s as [|c s IH].
  - change (Js.includes "" sub) with (String.prefix sub "" || false).
    rewrite orb_true_iff, prefix_spec. split.
    + intros [(w & Hw) | ?]; [|done]. by exists "", w.
    + intros ([|? u] & w & Hw); [|done]. left. by exists w.
  - change (Js.includes (String c s) sub)
      with (String.prefix sub (String c s) || Js.includes s sub).
    rewrite orb_true_iff, prefix_spec, IH. split.
    + intros [(w & Hw) | (u & w & Hw)]; [by exists "", w|].
      exists (String c u), w. by rewrite Hw.
    + intros ([|c' u] & w & Hw); [left; by exists w|].
      right. injection Hw as -> Hw. by exists u, w.
Qed.

Lemma includes_suffix_of_pattern (s a b : string) :
  Js.includes s (a +:+ b) = true → Js.includes s b = true.
Proof.
  rewrite !includes_spec. intros (u & w & ->). exists (u +:+ a), w.
  by rewrite !string_app_assoc.
Qed.

(** A name made by putting [_repair_custom] after a stem is recognised. *)
Lemma isCustomRepair_named (stem suffix : string) :
  isCustomRepair (Some (stem +:+ "_repair_custom" +:+ suffix)) = true.
Proof.
  unfold isCustomRepair. rewrite nonEmpty_app_r by done. simpl.
  apply orb_true_iff. left. apply includes_spec. by exists stem, suffix.
Qed.

(** X9. A repair file counts as custom exactly when its name contains
    [_repair_custom]: the second test of the source, for
    [_partial_repair_custom], and the test for a name add nothing. *)
Theorem isCustomRepair_includes (name : string) :
  isCustomRepair (Some name) = Js.includes name "_repair_custom".
Proof.
  unfold isCustomRepair. destruct name as [|c name]; [reflexivity|].
  change (Js.nonEmpty (String c name)) with true.
  generalize (String c name). clear. intros name. rewrite andb_true_l.
  destruct (Js.includes name "_repair_custom") eqn:Hcustom; [done|].
  rewrite orb_false_l. apply not_true_is_false. intros Hpartial.
  apply (includes_suffix_of_pattern name "_partial" "_repair_custom") in Hpartial.
  congruence.
Qed.

(** X10. Adding the custom option keeps the candidates it is given and
    appends one more, which holds every row of the table in order and
    which, whatever the file is called, is recognised as custom. *)
Theorem addCustomRepairOption_appends
    (repairFileObjs : list RepairFile.t) (tableData : list Row) (selectedFile : string) :
  ∃ custom,
    addCustomRepairOption repairFileObjs tableData selectedFile
    = repairFileObjs ++ [custom]
    ∧ RepairFile.rows custom = tableData
    ∧ isCustomRepair (Some (RepairFile.name custom)) = true.
Proof.
  eexists. split; [reflexivity|]. split; [reflexivity|]. simpl.
  apply (isCustomRepair_named _ ".csv").
Qed.

(** ** Foreign-key repairs *)

Lemma elem_of_checkForeignKeyViolations foreignRows primaryRows fkCol pkCol v :
  v ∈ checkForeignKeyViolations foreignRows primaryRows fkCol pkCol ↔
  ∃ i r, foreignRows !! i = Some r
         ∧ danglingRow primaryRows fkCol pkCol r = true
         ∧ v = mkViolation (Z.of_nat i + 1) fkCol FOREIGN_KEY
                 ("Value '" +:+ toText r.[fkCol] +:+ "' not found in primary key column")
                 (Some r.[fkCol]).
Proof.
  unfold checkForeignKeyViolations, danglingRow.
  destruct pkCol as [pkCol|]; [|split; [by intros ?%elem_of_nil | by intros (? & ? & _ & ? & _)]].
  destruct (Js.nonEmpty fkCol), (Js.nonEmpty pkCol); simpl;
    try (split; [by intros ?%elem_of_nil | by intros (? & ? & _ & ? & _)]).
  rewrite elem_of_forEachFrom. apply ex2_iff. intros i r. simpl.
  destruct (isEmpty r.[fkCol]); simpl.
  - rewrite elem_of_nil. naive_solver.
  - destruct (decide _) as [Hin|Hin].
    + rewrite bool_decide_eq_true_2 by done. rewrite elem_of_nil. naive_solver.
    + rewrite bool_decide_eq_false_2 by done. rewrite list_elem_of_singleton. naive_solver.
Qed.

Lemma filterWithIndex_rows_filter {A : Type} (p : A → bool) (q : nat → A → bool) i0
    (xs : list A) :
  (∀ k x, xs !! k = Some x → q (i0 + k) x = p x) →
  (filterWithIndex q i0 xs).*2 = filter (λ x, p x) xs.
Proof.
  induction xs as [|x xs IH] in i0 |- *; intros Hq; [done|]. simpl.
  pose proof (Hq 0 x eq_refl) as Hx. rewrite Nat.add_0_r in Hx. rewrite Hx, filter_cons.
  assert ((filterWithIndex q (S i0) xs).*2 = filter (λ x, p x) xs) as Hrest.
  { apply IH. intros k y Hk. specialize (Hq (S k) y Hk).
    by rewrite Nat.add_succ_r in Hq. }
  destruct (p x); simpl; [f_equal|]; exact Hrest.
Qed.

Section ForeignKeyRepairFacts.
Context (now : Z).

(** The rows the delete strategy keeps. *)
Lemma validRows_filter foreignRows primaryRows fkCol pkCol :
  (filterWithIndex
     (λ index _, negb (bool_decide
        (Z.of_nat index
         ∈ rowIndices (checkForeignKeyViolations foreignRows primaryRows fkCol pkCol))))
     0 foreignRows).*2
  = filter (λ r, negb (danglingRow primaryRows fkCol pkCol r)) foreignRows.
Proof.
  apply filterWithIndex_rows_filter. intros k r Hk. simpl. f_equal.
  apply eq_true_iff_eq. rewrite bool_decide_eq_true. unfold rowIndices.
  rewrite elem_of_list_to_set, list_elem_of_fmap. split.
  - intros (v & Hrow & (i & r' & Hi & Hd & ->)%elem_of_checkForeignKeyViolations).
    simpl in Hrow. assert (i = k) as -> by lia. congruence.
  - intros Hd. eexists. split; [|apply elem_of_checkForeignKeyViolations; eauto].
    simpl. lia.
Qed.

(** X11. With both tables on file, the foreign-key repair offers nothing
    when no referencing row dangles, and otherwise exactly two candidates:
    first the delete candidate, then a custom candidate that holds every
    referencing row and is recognised as custom. *)
Theorem generateForeignKeyRepairs_candidates
    (foreignKeyConfig : ForeignKeyConfig) (fileTables : gmap string FileTable.t)
    (confirmedConstraints : list (list string)) (foreignTable primaryTable : FileTable.t) :
  fileTables !! referencedFile foreignKeyConfig = Some foreignTable →
  fileTables !! primaryFile foreignKeyConfig = Some primaryTable →
  (checkForeignKeyViolations (FileTable.rows foreignTable) (FileTable.rows primaryTable)
     (fkCol foreignKeyConfig)
     (keyColumn confirmedConstraints (FileTable.columns primaryTable)) = [] →
   generateForeignKeyRepairs now foreignKeyConfig fileTables confirmedConstraints = [])
  ∧ (checkForeignKeyViolations (FileTable.rows foreignTable) (FileTable.rows primaryTable)
       (fkCol foreignKeyConfig)
       (keyColumn confirmedConstraints (FileTable.columns primaryTable)) ≠ [] →
     ∃ deleted custom,
       generateForeignKeyRepairs now foreignKeyConfig fileTables confirmedConstraints
       = [deleted; custom]
       ∧ RepairFile.rows custom = FileTable.rows foreignTable
       ∧ isCustomRepair (Some (RepairFile.name custom)) = true).
Proof.
  intros Hf Hp. unfold generateForeignKeyRepairs. rewrite Hf, Hp. split.
  - by intros ->.
  - intros Hne. destruct (checkForeignKeyViolations _ _ _ _) eqn:Hvs; [done|].
    simpl length. cbn [Nat.eqb]. do 2 eexists. split; [reflexivity|].
    split; [reflexivity|]. apply (isCustomRepair_named _ ".csv").
Qed.

(** X12. The delete candidate of the foreign-key repair holds exactly
    the referencing rows that do not dangle, in their order, and checking
    it again against the referenced table finds no foreign-key violation. *)
Theorem generateForeignKeyRepairs_delete_sound
    (foreignKeyConfig : ForeignKeyConfig) (fileTables : gmap string FileTable.t)
    (confirmedConstraints : list (list string)) (foreignTable primaryTable : FileTable.t)
    (deleted : RepairFile.t) :
  fileTables !! referencedFile foreignKeyConfig = Some foreignTable →
  fileTables !! primaryFile foreignKeyConfig = Some primaryTable →
  generateForeignKeyRepairs now foreignKeyConfig fileTables confirmedConstraints !! 0
  = Some deleted →
  RepairFile.rows deleted
  = filter (λ r, negb (danglingRow (FileTable.rows primaryTable) (fkCol foreignKeyConfig)
                         (keyColumn confirmedConstraints (FileTable.columns primaryTable)) r))
      (FileTable.rows foreignTable)
  ∧ checkForeignKeyViolations (RepairFile.rows deleted) (FileTable.rows primaryTable)
      (fkCol foreignKeyConfig)
      (keyColumn confirmedConstraints (FileTable.columns primaryTable)) = [].
Proof.
  intros Hf Hp. unfold generateForeignKeyRepairs. rewrite Hf, Hp.
  destruct (length _ =? 0); [done|]. intros [= <-]. simpl.
  rewrite validRows_filter. split; [done|].
  destruct (checkForeignKeyViolations (filter _ _) _ _ _) as [|v vs] eqn:Hvs; [done|].
  assert (v ∈ v :: vs) as Hv by apply list_elem_of_here. rewrite <- Hvs in Hv.
  apply elem_of_checkForeignKeyViolations in Hv as (i & r & Hi & Hd & _).
  apply list_elem_of_lookup_2, list_elem_of_filter in Hi as [Hnot _].
  rewrite Hd in Hnot. done.
Qed.

End ForeignKeyRepairFacts.

(** The orders example: the dangling order is dropped by the first
    candidate and kept by the second. *)
Lemma generateForeignKeyRepairs_candidates_witness :
  ∃ deleted custom,
    generateForeignKeyRepairs 0 ordersLink ordersFiles [] = [deleted; custom]
    ∧ RepairFile.rows custom = FileTable.rows ordersTable
    ∧ isCustomRepair (Some (RepairFile.name custom)) = true.
Proof.
  apply (generateForeignKeyRepairs_candidates 0 ordersLink ordersFiles [] ordersTable
           customersTable eq_refl eq_refl).
  discriminate.
Defined.

Lemma generateForeignKeyRepairs_delete_sound_witness :
  [[("customer", VStr "1")]; [("customer", VStr "")]]
  = filter (λ r, negb (danglingRow (FileTable.rows customersTable) "customer"
                         (Some "id") r))
      (FileTable.rows ordersTable)
  ∧ checkForeignKeyViolations [[("customer", VStr "1")]; [("customer", VStr "")]]
      (FileTable.rows customersTable) "customer" (Some "id") = [].
Proof.
  exact (generateForeignKeyRepairs_delete_sound 0 ordersLink ordersFiles [] ordersTable
           customersTable
           (RepairFile.mk "orders.csv_repair_delete_0.csv"
              [[("customer", VStr "1")]; [("customer", VStr "")]] ["customer"]
              (Some "Removed rows with invalid foreign keys"))
           eq_refl eq_refl eq_refl).
Defined.

(** ** Partial repairs: what the edit flags mean *)

Lemma filter_nil_iff {A : Type} (P : A → Prop) `{∀ x, Decision (P x)} (xs : list A) :
  filter P xs = [] ↔ ∀ x, x ∈ xs → ¬ P x.
Proof.
  split.
  - intros Hnil x Hx HP. assert (x ∈ filter P xs) as Hin by by apply list_elem_of_filter.
    rewrite Hnil in Hin. by apply elem_of_nil in Hin.
  - intros Hall. destruct (filter P xs) as [|x l] eqn:Hf; [done|].
    assert (x ∈ filter P xs) as [HP Hx]%list_elem_of_filter
      by (rewrite Hf; apply list_elem_of_here).
    by apply Hall in Hx.
Qed.

Lemma elem_of_editableIndices (rows : list EditRow) (i : nat) :
  i ∈ editableIndices rows ↔ ∃ e, rows !! i = Some e ∧ _needsEdit e = true.
Proof.
  unfold editableIndices. rewrite list_elem_of_fmap. split.
  - intros ([j e] & -> & (k & -> & Hk & He)%elem_of_filterWithIndex). by exists e.
  - intros (e & Hi & He). exists (i, e). split; [done|].
    apply elem_of_filterWithIndex. by exists i.
Qed.

Section PartialRepairFacts.
Context (now : Z).

Lemma markRows_flag_reasons tableData tvs kept e :
  e ∈ markRows tableData (rowIndices tvs) tvs kept →
  _needsEdit e = true ↔ _violationReasons e ≠ [].
Proof.
  unfold markRows. intros ([i r] & -> & _)%list_elem_of_fmap. simpl.
  generalize (indexOf tableData (default 0 (tableData !! i))). intros originalIdx.
  rewrite bool_decide_eq_true. unfold rowIndices.
  rewrite elem_of_list_to_set, list_elem_of_fmap. split.
  - intros (v & Hrow & Hv) Hnil. apply fmap_nil_inv in Hnil.
    eapply (proj1 (filter_nil_iff _ _) Hnil v); done.
  - intros Hne. destruct (filter _ tvs) as [|v l] eqn:Hf; [done|].
    assert (v ∈ filter (λ v, (row v - 1)%Z = originalIdx) tvs)
      as [Hrow Hv]%list_elem_of_filter by (rewrite Hf; apply list_elem_of_here).
    by exists v.
Qed.

(** X13. In every candidate of the partial repair a row is flagged for
    editing exactly when it carries at least one violation reason: no row
    is marked editable without a reason, and none has a reason without
    being marked. *)
Theorem generatePartialRepairs_flag_has_reason
    (violations : list Violation) (store : Store) (tableData : list nat)
    (selectedFile : string) (confirmedTypes : list string)
    (cand : PartialRepairFile.t) (e : EditRow) :
  cand ∈ generatePartialRepairs now violations store tableData selectedFile
           confirmedTypes →
  e ∈ PartialRepairFile.rows cand →
  _needsEdit e = true ↔ _violationReasons e ≠ [].
Proof.
  unfold generatePartialRepairs. intros Hcand He.
  destruct (length violations =? 0); [by apply elem_of_nil in Hcand|].
  destruct (length (filter _ violations) =? 0); [by apply elem_of_nil in Hcand|].
  apply elem_of_app in Hcand as [Hcand | Hcand].
  - destruct (_ || _); [|by apply elem_of_nil in Hcand].
    apply elem_of_cons in Hcand as [-> | Hcand];
      [|apply list_elem_of_singleton in Hcand as ->]; simpl in He;
      by eapply markRows_flag_reasons.
  - apply list_elem_of_singleton in Hcand as ->. simpl in He.
    apply list_elem_of_lookup in He as [i He].
    apply list_lookup_imap_Some in He as (r & _ & ->). simpl.
    rewrite existsb_exists. split.
    + intros (v & Hv%list_elem_of_In & Hrow%bool_decide_eq_true) Hnil.
      apply fmap_nil_inv in Hnil.
      eapply (proj1 (filter_nil_iff _ _) Hnil v); done.
    + intros Hne. destruct (filter _ violations) as [|v l] eqn:Hf; [done|].
      assert (v ∈ filter (λ v, (row v - 1)%Z = Z.of_nat i) violations)
        as [Hrow Hv]%list_elem_of_filter by (rewrite Hf; apply list_elem_of_here).
      exists v. split; [by apply list_elem_of_In | by apply bool_decide_eq_true].
Qed.

(** X14. The editable indices a partial-repair candidate exposes are
    exactly the positions, in its own rows, of the rows flagged for
    editing; in particular each is a valid index into those rows. *)
Theorem generatePartialRepairs_editable_rows
    (violations : list Violation) (store : Store) (tableData : list nat)
    (selectedFile : string) (confirmedTypes : list string)
    (cand : PartialRepairFile.t) (i : nat) :
  cand ∈ generatePartialRepairs now violations store tableData selectedFile
           confirmedTypes →
  (i ∈ PartialRepairFile.editableRows cand
   ↔ ∃ e, PartialRepairFile.rows cand !! i = Some e ∧ _needsEdit e = true)
  ∧ (i ∈ PartialRepairFile.editableRows cand →
     i < length (PartialRepairFile.rows cand)).
Proof.
  intros Hcand.
  assert (PartialRepairFile.editableRows cand
          = editableIndices (PartialRepairFile.rows cand)) as ->.
  { unfold generatePartialRepairs in Hcand.
    destruct (length violations =? 0); [by apply elem_of_nil in Hcand|].
    destruct (length (filter _ violations) =? 0); [by apply elem_of_nil in Hcand|].
    apply elem_of_app in Hcand as [Hcand | Hcand].
    - destruct (_ || _); [|by apply elem_of_nil in Hcand].
      apply elem_of_cons in Hcand as [-> | Hcand];
        [|apply list_elem_of_singleton in Hcand as ->]; done.
    - by apply list_elem_of_singleton in Hcand as ->. }
  rewrite elem_of_editableIndices. split; [done|].
  intros (e & Hi & _). by eapply lookup_lt_Some.
Qed.

(** X15. Whenever the partial repair returns candidates, the last one is
    the custom candidate: it keeps every row of the table, in order, and its
    name is recognised as custom; and every candidate is tagged as a
    partial repair, which is what makes it editable. *)
Theorem generatePartialRepairs_custom_last
    (violations : list Violation) (store : Store) (tableData : list nat)
    (selectedFile : string) (confirmedTypes : list string) :
  generatePartialRepairs now violations store tableData selectedFile confirmedTypes ≠ [] →
  (∃ custom,
     last (generatePartialRepairs now violations store tableData selectedFile
             confirmedTypes)
     = Some custom
     ∧ cells <$> PartialRepairFile.rows custom = store <$> tableData
     ∧ isCustomRepair (Some (PartialRepairFile.name custom)) = true)
  ∧ ∀ cand,
      cand ∈ generatePartialRepairs now violations store tableData selectedFile
               confirmedTypes →
      PartialRepairFile.isPartialRepair cand = true.
Proof.
  unfold generatePartialRepairs.
  destruct (length violations =? 0); [done|].
  destruct (length (filter _ violations) =? 0); [done|]. intros _. split.
  - eexists. split; [apply last_snoc|]. simpl. split.
    + rewrite fmap_imap. generalize (store <$> tableData). clear.
      intros rows. induction rows as [|r rest IH] using rev_ind; [done|].
      by rewrite imap_app, IH.
    + replace (fileStem selectedFile +:+ "_partial_repair_custom.csv")
        with ((fileStem selectedFile +:+ "_partial") +:+ "_repair_custom" +:+ ".csv")
        by (by rewrite string_app_assoc).
      apply isCustomRepair_named.
  - intros cand [Hcand | Hcand]%elem_of_app.
    + destruct (_ || _); [|by apply elem_of_nil in Hcand].
      apply elem_of_cons in Hcand as [-> | Hcand];
        [|apply list_elem_of_singleton in Hcand as ->]; done.
    + by apply list_elem_of_singleton in Hcand as ->.
Qed.

End PartialRepairFacts.

(** The ages table yields the custom candidate alone. *)
Lemma agesCustomCandidate_generated :
  generatePartialRepairs 0 agesViolations (storeOf agesTable) (refsOf agesTable)
    "ages.csv" ["VARCHAR"; "INTEGER"]
  = [agesCustomCandidate].
Proof. reflexivity. Defined.

Lemma generatePartialRepairs_flag_has_reason_witness :
  _needsEdit agesEditRow = true ↔ _violationReasons agesEditRow ≠ [].
Proof.
  apply (generatePartialRepairs_flag_has_reason 0 agesViolations (storeOf agesTable)
           (refsOf agesTable) "ages.csv" ["VARCHAR"; "INTEGER"] agesCustomCandidate
           agesEditRow).
  - rewrite agesCustomCandidate_generated. apply list_elem_of_here.
  - apply list_elem_of_further, list_elem_of_here.
Defined.

Lemma generatePartialRepairs_editable_rows_witness :
  (1 ∈ PartialRepairFile.editableRows agesCustomCandidate
   ↔ ∃ e, PartialRepairFile.rows agesCustomCandidate !! 1 = Some e ∧ _needsEdit e = true)
  ∧ (1 ∈ PartialRepairFile.editableRows agesCustomCandidate →
     1 < length (PartialRepairFile.rows agesCustomCandidate)).
Proof.
  apply (generatePartialRepairs_editable_rows 0 agesViolations (storeOf agesTable)
           (refsOf agesTable) "ages.csv" ["VARCHAR"; "INTEGER"] agesCustomCandidate 1).
  rewrite agesCustomCandidate_generated. apply list_elem_of_here.
Defined.

Lemma generatePartialRepairs_custom_last_witness :
  ∃ custom,
    last (generatePartialRepairs 0 agesViolations (storeOf agesTable) (refsOf agesTable)
            "ages.csv" ["VARCHAR"; "INTEGER"]) = Some custom
    ∧ cells <$> PartialRepairFile.rows custom = storeOf agesTable <$> refsOf agesTable
    ∧ isCustomRepair (Some (PartialRepairFile.name custom)) = true.
Proof.
  apply (generatePartialRepairs_custom_last 0 agesViolations (storeOf agesTable)
           (refsOf agesTable) "ages.csv" ["VARCHAR"; "INTEGER"]).
  rewrite agesCustomCandidate_generated. discriminate.
Defined.

(** ** General repairs only remove rows *)

Lemma filterWithIndex_rows_sublist {A : Type} (p : nat → A → bool) i0 (xs : list A) :
  (filterWithIndex p i0 xs).*2 `sublist_of` xs.
Proof.
  induction xs as [|x xs IH] in i0 |- *; simpl; [constructor|].
  destruct (p i0 x); simpl; [apply sublist_skip | apply sublist_cons]; apply IH.
Qed.

Lemma keepFirst_rows_sublist tvr nulls cols i0 seen rows :
  (keepFirst tvr nulls cols i0 seen rows).*2 `sublist_of` rows.
Proof.
  induction rows as [|r rest IH] in i0, seen |- *; simpl; [constructor|].
  repeat case_match; simpl; first [apply sublist_skip | apply sublist_cons]; apply IH.
Qed.

Section GeneralRepairFacts.
Context (now : Z).

(** X16. A candidate of the general repair is the table with some rows
    left out: its rows are rows of the table in their original order, none
    changed, none added, and its columns are those of the table's first
    row. *)
Theorem generateGeneralRepairs_only_removes
    (violations : list Violation) (tableData : list Row) (selectedFile : string)
    (cand : RepairFile.t) :
  cand ∈ generateGeneralRepairs now violations tableData selectedFile →
  RepairFile.rows cand `sublist_of` tableData
  ∧ RepairFile.columns cand = keys (hd [] tableData).
Proof.
  intros Hcand. split; [|by apply general_candidate_selection in Hcand as [? _]].
  apply generateGeneralRepairs_rows in Hcand as [[-> _] | [-> | ->]].
  - apply filterWithIndex_rows_sublist.
  - apply keepFirst_rows_sublist.
  - apply filterWithIndex_rows_sublist.
Qed.

End GeneralRepairFacts.

Lemma generateGeneralRepairs_only_removes_witness :
  [[("id", VNum "1"); ("a", VStr "x")]; [("id", VNum "2"); ("a", VStr "z")]]
    `sublist_of` sharedIdTable
  ∧ ["id"; "a"] = keys (hd [] sharedIdTable).
Proof.
  apply (generateGeneralRepairs_only_removes 0
           (checkViolations (rt := sampleRuntime) sharedIdTable [["unique"]] ∅ None [])
           sharedIdTable "t.csv"
           (RepairFile.mk "t.csv_repair_1_0.csv"
              [[("id", VNum "1"); ("a", VStr "x")]; [("id", VNum "2"); ("a", VStr "z")]]
              ["id"; "a"]
              (Some "Repair 1: Keep first duplicate and remove empty rows (2 rows)"))).
  apply list_elem_of_lookup. by exists 0.
Defined.

(** ** Primary-key repairs: one row per key *)

Lemma elem_of_pushGroup_keys key r groups k :
  k ∈ (pushGroup key r groups).*1 ↔ k = key ∨ k ∈ groups.*1.
Proof.
  induction groups as [|[k0 g0] rest IH]; simpl.
  - rewrite list_elem_of_singleton. set_solver.
  - destruct (decide (k0 = key)) as [->|Hne]; simpl; rewrite !elem_of_cons.
    + tauto.
    + rewrite IH. tauto.
Qed.

Lemma NoDup_pushGroup_keys key r groups :
  NoDup groups.*1 → NoDup (pushGroup key r groups).*1.
Proof.
  induction groups as [|[k0 g0] rest IH]; simpl; intros Hnd.
  - apply NoDup_singleton.
  - apply NoDup_cons in Hnd as [Hk0 Hnd].
    destruct (decide (k0 = key)) as [->|Hne]; simpl; apply NoDup_cons; split; try done.
    + rewrite elem_of_pushGroup_keys. intros [?|?]; done.
    + by apply IH.
Qed.

Lemma pushGroup_members (Q : string → Row → Prop) key r groups :
  Q key r →
  (∀ k g x, (k, g) ∈ groups → x ∈ g → Q k x) →
  ∀ k g x, (k, g) ∈ pushGroup key r groups → x ∈ g → Q k x.
Proof.
  intros Hr. induction groups as [|[k0 g0] rest IH]; simpl; intros Hall k g x.
  - intros [= -> ->]%list_elem_of_singleton ->%list_elem_of_singleton. done.
  - assert (∀ k g x, (k, g) ∈ rest → x ∈ g → Q k x) as Hrest.
    { intros ??? Hin. apply Hall. by apply list_elem_of_further. }
    destruct (decide (k0 = key)) as [->|Hne]; rewrite elem_of_cons.
    + intros [[= -> ->] | Hin] Hx; [|by eapply Hrest].
      apply elem_of_app in Hx as [Hx | ->%list_elem_of_singleton]; [|done].
      eapply Hall; [apply list_elem_of_here|done].
    + intros [[= -> ->] | Hin] Hx; [|by eapply IH].
      eapply Hall; [apply list_elem_of_here|done].
Qed.

(** What grouping returns: each key once, and under a key only rows of
    the table that have that key. *)
Lemma groupRows_returns (tableData : list Row) pkCols groups rest groups' :
  groupRows pkCols groups rest = Js.Returns groups' →
  NoDup groups.*1 →
  (∀ k g x, (k, g) ∈ groups → x ∈ g → groupKey pkCols x = k ∧ x ∈ tableData) →
  (∀ r, r ∈ rest → r ∈ tableData) →
  NoDup groups'.*1
  ∧ ∀ k g x, (k, g) ∈ groups' → x ∈ g → groupKey pkCols x = k ∧ x ∈ tableData.
Proof.
  induction rest as [|r rest IH] in groups |- *; simpl; intros Hret Hnd Hall Hsub.
  { by injection Hret as <-. }
  assert (groupRows pkCols (pushGroup (groupKey pkCols r) r groups) rest
          = Js.Returns groups') as Hret'.
  { repeat case_match; done. }
  apply IH in Hret'; [done| | |].
  - by apply NoDup_pushGroup_keys.
  - apply (pushGroup_members (λ k x, groupKey pkCols x = k ∧ x ∈ tableData)); [|done].
    split; [done|]. apply Hsub, list_elem_of_here.
  - intros x Hx. by apply Hsub, list_elem_of_further.
Qed.

(** Grouping fails exactly on a key that names an inherited property. *)
Lemma groupRows_throws pkCols groups rest :
  (∀ k, k ∈ groups.*1 → k ∉ inheritedNames) →
  groupRows pkCols groups rest = Js.Throws ↔
  ∃ r, r ∈ rest ∧ groupKey pkCols r ∈ inheritedNames.
Proof.
  induction rest as [|r rest IH] in groups |- *; simpl; intros Hown.
  { split; [done | by intros (? & ?%elem_of_nil & _)]. }
  assert ((∃ x, x ∈ r :: rest ∧ groupKey pkCols x ∈ inheritedNames)
          ↔ groupKey pkCols r ∈ inheritedNames
            ∨ ∃ x, x ∈ rest ∧ groupKey pkCols x ∈ inheritedNames) as ->.
  { split.
    - intros (x & [-> | Hx]%elem_of_cons & Hin); [by left | right; by exists x].
    - intros [Hin | (x & Hx & Hin)]; [exists r | exists x]; rewrite elem_of_cons; auto. }
  destruct (bool_decide (groupKey pkCols r ∈ groups.*1)) eqn:Hmem.
  - apply bool_decide_eq_true in Hmem. rewrite IH.
    + split; [by right|]. intros [Hin | ?]; [|done]. by apply Hown in Hmem.
    + intros k [-> | Hk]%elem_of_pushGroup_keys; by apply Hown.
  - destruct (bool_decide (groupKey pkCols r ∈ inheritedNames)) eqn:Hinh.
    + apply bool_decide_eq_true in Hinh. split; [by left | done].
    + apply bool_decide_eq_false in Hinh. rewrite IH.
      * split; [by right|]. intros [? | ?]; done.
      * intros k [-> | Hk]%elem_of_pushGroup_keys; [done|by apply Hown].
Qed.

Lemma Object_values_entries (obj : list (string * list Row)) :
  ∃ entries, entries ≡ₚ obj ∧ Object_values obj = entries.*2.
Proof.
  exists (merge_sort indexLe (filter (λ kv, is_Some (arrayIndex kv.1)) obj)
          ++ filter (λ kv, ¬ is_Some (arrayIndex kv.1)) obj).
  split.
  - rewrite merge_sort_Permutation. apply filter_app_complement.
  - unfold Object_values. by rewrite fmap_app.
Qed.

(** A draw of the Cartesian product takes one member of each group, in
    the order of the groups. *)
Lemma cartesian_draw {A : Type} (arr : list (list A)) (draw : list A) :
  draw ∈ cartesian arr → Forall2 (λ x group, x ∈ group) draw arr.
Proof.
  unfold cartesian.
  assert (∀ (acc : list (list A)) done,
            (∀ d, d ∈ acc → Forall2 (λ x group, x ∈ group) d done) →
            ∀ d, d ∈ foldl (λ a b, d ← a; (λ e, d ++ [e]) <$> b) acc arr →
                 Forall2 (λ x group, x ∈ group) d (done ++ arr)) as Hgen.
  { induction arr as [|b arr IH]; intros acc done Hacc d; simpl.
    - rewrite app_nil_r. apply Hacc.
    - replace (done ++ b :: arr) with ((done ++ [b]) ++ arr) by by rewrite <- app_assoc.
      apply IH. intros d' (d0 & (e & -> & He)%list_elem_of_fmap & Hd0)%list_elem_of_bind.
      apply Forall2_app; [by apply Hacc|]. by repeat constructor. }
  intros Hdraw. apply (Hgen [[]] []); [|done].
  intros d ->%list_elem_of_singleton. constructor.
Qed.

Lemma NoDup_fmap_filter {A B : Type} (f : A → B) (P : A → Prop) `{∀ x, Decision (P x)}
    (xs : list A) :
  NoDup (f <$> xs) → NoDup (f <$> filter P xs).
Proof.
  induction xs as [|x xs IH]; [done|]. rewrite fmap_cons, NoDup_cons. intros [Hx Hnd].
  rewrite filter_cons. destruct (decide (P x)); [|by apply IH].
  rewrite fmap_cons. apply NoDup_cons. split; [|by apply IH].
  intros (y & Hy & [_ Hin]%list_elem_of_filter)%list_elem_of_fmap.
  apply Hx, list_elem_of_fmap. by exists y.
Qed.

Section PrimaryKeyRepairFacts.
Context (now : Z).

Lemma collectRepairs_rows pkCols groupCount columns selectedFile idx seenRepairs allRepairs
    cand :
  cand ∈ collectRepairs now pkCols groupCount columns selectedFile idx seenRepairs allRepairs →
  ∃ draw, draw ∈ allRepairs
    ∧ RepairFile.rows cand
      = filter (λ r, forallb (λ c, has pkCols c || negb (isEmpty r.[c])) (keys r)) draw.
Proof.
  induction allRepairs as [|rows rest IH] in idx, seenRepairs |- *; simpl.
  { by intros ?%elem_of_nil. }
  assert (∀ idx seen,
            cand ∈ collectRepairs now pkCols groupCount columns selectedFile idx seen rest →
            ∃ draw, draw ∈ rows :: rest
              ∧ RepairFile.rows cand
                = filter (λ r, forallb (λ c, has pkCols c || negb (isEmpty r.[c])) (keys r))
                    draw) as Hrest.
  { intros idx' seen Hin. destruct (IH _ _ Hin) as (draw & Hdraw & Heq).
    exists draw. split; [by apply list_elem_of_further | done]. }
  repeat case_match; try apply Hrest.
  intros [-> | Hin]%elem_of_cons; [|by eapply Hrest].
  exists rows. split; [apply list_elem_of_here | done].
Qed.

(** X17. Every candidate of the primary-key repair is a selection of the
    table with one row per key at most: its rows are rows of the table,
    none has an empty cell outside the primary-key columns, and any two
    of them differ in some primary-key column. *)
Theorem generatePrimaryKeyRepairs_one_row_per_key
    (tableData : list Row) (confirmedConstraints : list (list string))
    (selectedFile : string) (repairFileObjs : list RepairFile.t) (cand : RepairFile.t) :
  generatePrimaryKeyRepairs now tableData confirmedConstraints selectedFile
  = Js.Returns repairFileObjs →
  cand ∈ repairFileObjs →
  (∀ r, r ∈ RepairFile.rows cand →
        r ∈ tableData
        ∧ ∀ c, c ∈ keys r → c ∉ pkColumns tableData confirmedConstraints →
               isEmpty r.[c] = false)
  ∧ ∀ i j ri rj,
      RepairFile.rows cand !! i = Some ri → RepairFile.rows cand !! j = Some rj → i ≠ j →
      ∃ c, c ∈ pkColumns tableData confirmedConstraints ∧ ri.[c] ≠ rj.[c].
Proof.
  unfold generatePrimaryKeyRepairs.
  set (pkCols := pkColumns tableData confirmedConstraints).
  destruct (0 <? length pkCols); [|by intros [= <-] ?%elem_of_nil].
  destruct (groupRows pkCols [] tableData) as [pkGroups|] eqn:Hgroups; [|done].
  intros [= <-] Hcand.
  apply (groupRows_returns tableData) in Hgroups as [Hnd Hmem];
    [|constructor|by intros ??? ?%elem_of_nil|done].
  apply collectRepairs_rows in Hcand as (draw & Hdraw & ->).
  destruct (Object_values_entries pkGroups) as (entries & Hperm & Hvalues).
  rewrite Hvalues in Hdraw. apply cartesian_draw in Hdraw.
  assert (Forall2 (λ x (kv : string * list Row), x ∈ kv.2) draw entries) as Hin.
  { rewrite Forall2_fmap_r in Hdraw. exact Hdraw. }
  assert (∀ n x, draw !! n = Some x →
                 x ∈ tableData ∧ entries.*1 !! n = Some (groupKey pkCols x)) as Hat.
  { intros n x Hn.
    destruct (Forall2_lookup_l _ _ _ _ _ Hin Hn) as ([k g] & Hkg & Hx).
    destruct (Hmem k g x) as [<- Htable]; [|exact Hx|].
    - rewrite <- Hperm. by eapply list_elem_of_lookup_2.
    - split; [done|]. by rewrite list_lookup_fmap, Hkg. }
  assert (NoDup (groupKey pkCols <$> draw)) as Hdistinct.
  { replace (groupKey pkCols <$> draw) with entries.*1; [by rewrite Hperm|].
    apply list_eq_same_length with (length draw).
    - by rewrite length_fmap.
    - rewrite length_fmap. symmetry. by eapply Forall2_length.
    - intros n k k' _ Hk. rewrite list_lookup_fmap.
      destruct (draw !! n) as [x|] eqn:Hn; [|done].
      apply Hat in Hn as [_ Hn]. intros [= <-]. congruence. }
  split.
  - intros r [Hkeep Hr]%list_elem_of_filter. apply list_elem_of_lookup in Hr as [n Hn].
    split; [by eapply Hat|].
    intros c Hc Hpk. apply Is_true_true in Hkeep. rewrite forallb_forall in Hkeep.
    specialize (Hkeep c). rewrite <- list_elem_of_In in Hkeep. specialize (Hkeep Hc).
    unfold has in Hkeep. rewrite bool_decide_eq_false_2 in Hkeep by done.
    simpl in Hkeep. by apply negb_true_iff.
  - intros i j ri rj Hi Hj Hij.
    apply (NoDup_fmap_filter _
             (λ r, forallb (λ c, has pkCols c || negb (isEmpty r.[c])) (keys r)))
      in Hdistinct.
    assert (groupKey pkCols ri ≠ groupKey pkCols rj) as Hne.
    { intros Heq. apply Hij. eapply NoDup_lookup; [exact Hdistinct| |].
      - by rewrite list_lookup_fmap, Hi.
      - by rewrite list_lookup_fmap, Hj, Heq. }
    destruct (decide (Forall (λ c, ri.[c] = rj.[c]) pkCols)) as [Hall|Hsome].
    + destruct Hne. unfold groupKey. f_equal. apply list_fmap_ext.
      intros n c Hc. f_equal. eapply Forall_lookup_1 in Hall; [exact Hall | exact Hc].
    + apply not_Forall_Exists in Hsome; [|apply _].
      apply Exists_exists in Hsome as (c & Hc & Hdiff). by exists c.
Qed.

(** X18. The primary-key repair fails exactly when there is a primary-key
    column and some row's key, the values of its primary-key columns
    joined by [||], is the name of a property every object inherits;
    otherwise it returns its list of candidates. *)
Theorem generatePrimaryKeyRepairs_throws
    (tableData : list Row) (confirmedConstraints : list (list string))
    (selectedFile : string) :
  generatePrimaryKeyRepairs now tableData confirmedConstraints selectedFile = Js.Throws
  ↔ pkColumns tableData confirmedConstraints ≠ []
    ∧ ∃ r, r ∈ tableData
        ∧ groupKey (pkColumns tableData confirmedConstraints) r ∈ inheritedNames.
Proof.
  unfold generatePrimaryKeyRepairs.
  set (pkCols := pkColumns tableData confirmedConstraints).
  pose proof (groupRows_throws pkCols [] tableData) as Hthrows.
  destruct pkCols as [|c pkCols']; simpl.
  { split; [done | by intros [[] _]]. }
  destruct (groupRows (c :: pkCols') [] tableData) as [pkGroups|].
  - split; [done|]. intros [_ Hex]. apply Hthrows in Hex; [done|].
    by intros k ?%elem_of_nil.
  - split; [|done]. intros _. split; [done|]. apply Hthrows; [|done].
    by intros k ?%elem_of_nil.
Qed.

End PrimaryKeyRepairFacts.

(** On the table whose rows one and two share the id 1, each candidate
    keeps rows of the table with different ids. *)
Lemma generatePrimaryKeyRepairs_one_row_per_key_witness :
  (∀ r, r ∈ [[("id", VNum "1"); ("a", VStr "x")]; [("id", VNum "2"); ("a", VStr "z")]] →
        r ∈ sharedIdTable
        ∧ ∀ c, c ∈ keys r → c ∉ pkColumns sharedIdTable [["primary"]] →
               isEmpty r.[c] = false)
  ∧ ∀ i j ri rj,
      [[("id", VNum "1"); ("a", VStr "x")]; [("id", VNum "2"); ("a", VStr "z")]] !! i = Some ri →
      [[("id", VNum "1"); ("a", VStr "x")]; [("id", VNum "2"); ("a", VStr "z")]] !! j = Some rj →
      i ≠ j →
      ∃ c, c ∈ pkColumns sharedIdTable [["primary"]] ∧ ri.[c] ≠ rj.[c].
Proof.
  apply (generatePrimaryKeyRepairs_one_row_per_key 0 sharedIdTable [["primary"]] "t.csv" _
           (RepairFile.mk "t.csv_repair_1_0.csv"
              [[("id", VNum "1"); ("a", VStr "x")]; [("id", VNum "2"); ("a", VStr "z")]]
              ["id"; "a"] None) eq_refl).
  apply list_elem_of_lookup. by exists 0.
Defined.

(** A row whose only primary-key value is [valueOf] makes the generator
    fail, by the right-to-left direction. *)
Lemma generatePrimaryKeyRepairs_throws_witness :
  generatePrimaryKeyRepairs 0 [[("id", VStr "valueOf"); ("a", VStr "x")]] [["primary"]] "t.csv"
  = Js.Throws.
Proof.
  apply (generatePrimaryKeyRepairs_throws 0). split; [done|].
  exists [("id", VStr "valueOf"); ("a", VStr "x")].
  split; [apply list_elem_of_here|]. by apply (bool_decide_unpack _).
Defined.

(** ** The CSV parser *)

Lemma keys_assign k v obj : keys (assign k v obj) = keys obj.
Proof.
  unfold keys. induction obj as [|[k' v'] rest IH]; [done|]. simpl.
  destruct (decide (k' = k)); simpl; [done | by f_equal].
Qed.

Lemma keys_insertIndexed n k v v' obj obj' :
  keys obj = keys obj' →
  keys (insertIndexed n k v obj) = keys (insertIndexed n k v' obj').
Proof.
  unfold keys. induction obj as [|[k1 v1] rest IH] in obj' |- *;
    destruct obj' as [|[k2 v2] rest']; simpl; try done.
  intros [= <- Hrest]. fold (fmap (M := list) (@fst string Value)) in Hrest.
  destruct (arrayIndex k1) as [m|]; [|by rewrite !fmap_cons, Hrest].
  destruct (m <? n)%Z; rewrite !fmap_cons; [by rewrite (IH rest') | by rewrite Hrest].
Qed.

Lemma keys_insertIndexed_perm n k v obj : keys (insertIndexed n k v obj) ≡ₚ k :: keys obj.
Proof.
  unfold keys. induction obj as [|[k1 v1] rest IH]; simpl; [done|].
  destruct (arrayIndex k1) as [m|]; [|done].
  destruct (m <? n)%Z; simpl; [|done]. rewrite IH. apply Permutation_swap.
Qed.

(** The keys of an object after an assignment depend on its keys and on
    the name assigned only. *)
Lemma keys_setProp obj obj' k v v' :
  keys obj = keys obj' → keys (setProp obj k v) = keys (setProp obj' k v').
Proof.
  intros Hkeys. unfold setProp. destruct (decide (k = "__proto__")); [done|].
  rewrite <- Hkeys. destruct (bool_decide (k ∈ keys obj)).
  - by rewrite !keys_assign.
  - destruct (arrayIndex k); [by apply keys_insertIndexed|].
    unfold keys in *. by rewrite !fmap_app, Hkeys.
Qed.

Lemma keys_setProp_perm obj k v :
  k ≠ "__proto__" → k ∉ keys obj → keys (setProp obj k v) ≡ₚ k :: keys obj.
Proof.
  intros Hproto Hnew. unfold setProp. rewrite decide_False by done.
  rewrite bool_decide_eq_false_2 by done.
  destruct (arrayIndex k); [apply keys_insertIndexed_perm|].
  unfold keys. rewrite fmap_app. simpl. by rewrite <- Permutation_cons_append.
Qed.

Lemma keys_setProp_old obj k v :
  k = "__proto__" ∨ k ∈ keys obj → keys (setProp obj k v) = keys obj.
Proof.
  unfold setProp. destruct (decide (k = "__proto__")); [done|].
  intros [?|Hin]; [done|]. rewrite bool_decide_eq_true_2 by done. apply keys_assign.
Qed.

Lemma NoDup_keys_setProp obj k v : NoDup (keys obj) → NoDup (keys (setProp obj k v)).
Proof.
  intros Hnd.
  destruct (decide (k = "__proto__")) as [Hp|Hp]; [by rewrite keys_setProp_old by by left|].
  destruct (decide (k ∈ keys obj)) as [Hin|Hin]; [by rewrite keys_setProp_old by by right|].
  rewrite keys_setProp_perm by done. by apply NoDup_cons.
Qed.

Lemma elem_of_keys_setProp obj k v c :
  c ∈ keys (setProp obj k v) ↔ c ∈ keys obj ∨ (c = k ∧ k ≠ "__proto__").
Proof.
  destruct (decide (k = "__proto__")) as [Hp|Hp].
  { rewrite keys_setProp_old by by left. naive_solver. }
  destruct (decide (k ∈ keys obj)) as [Hin|Hin].
  { rewrite keys_setProp_old by by right. naive_solver. }
  rewrite keys_setProp_perm by done. rewrite elem_of_cons. naive_solver.
Qed.

Lemma values_assign (P : Value → Prop) k v obj :
  P v → Forall P (values obj) → Forall P (values (assign k v obj)).
Proof.
  unfold values. intros Hv. induction obj as [|[k' v'] rest IH]; [done|]. simpl.
  intros [Hv' Hrest]%Forall_cons. destruct (decide (k' = k)); simpl; constructor; auto.
Qed.

Lemma values_insertIndexed (P : Value → Prop) n k v obj :
  P v → Forall P (values obj) → Forall P (values (insertIndexed n k v obj)).
Proof.
  unfold values. intros Hv. induction obj as [|[k' v'] rest IH]; simpl.
  { by repeat constructor. }
  intros Hall. pose proof Hall as [Hv' Hrest]%Forall_cons.
  destruct (arrayIndex k') as [m|]; [|by constructor].
  destruct (m <? n)%Z; simpl; constructor; auto.
Qed.

Lemma values_setProp (P : Value → Prop) obj k v :
  P v → Forall P (values obj) → Forall P (values (setProp obj k v)).
Proof.
  intros Hv Hall. unfold setProp. repeat case_match; try done.
  - by apply values_assign.
  - by apply values_insertIndexed.
  - unfold values in *. rewrite fmap_app. apply Forall_app. by repeat constructor.
Qed.

Lemma fillRow_keys vals vals' i i' columns obj obj' :
  keys obj = keys obj' →
  keys (fillRow vals i columns obj) = keys (fillRow vals' i' columns obj').
Proof.
  induction columns as [|c rest IH] in i, i', obj, obj' |- *; simpl; [done|].
  intros Hkeys. by apply IH, keys_setProp.
Qed.

Lemma fillRow_shape vals i columns obj :
  NoDup (keys obj) →
  Forall (λ v, ∃ s, v = VStr s) (values obj) →
  NoDup (keys (fillRow vals i columns obj))
  ∧ Forall (λ v, ∃ s, v = VStr s) (values (fillRow vals i columns obj))
  ∧ ∀ c, c ∈ keys (fillRow vals i columns obj)
         ↔ c ∈ keys obj ∨ (c ∈ columns ∧ c ≠ "__proto__").
Proof.
  induction columns as [|c0 rest IH] in i, obj |- *; simpl; intros Hnd Hall.
  { split; [done|]. split; [done|]. intros c. rewrite elem_of_nil. naive_solver. }
  destruct (IH (S i) (setProp obj c0 (VStr (default "" (vals !! i))))) as (H1 & H2 & H3).
  - by apply NoDup_keys_setProp.
  - apply values_setProp; [by eexists | done].
  - split; [done|]. split; [done|]. intros c. rewrite H3, elem_of_keys_setProp, elem_of_cons.
    naive_solver.
Qed.

(** X19. Whatever the text, the parser builds a table the checks can
    read: all rows have the same property names in the same order, each
    once; the names are the columns of the header, without [__proto__],
    which an assignment never creates; and every cell is a text. *)
Theorem parseCSV_well_formed (text : string) :
  wfTable (FileTable.rows (parseCSV text))
  ∧ ∀ r, r ∈ FileTable.rows (parseCSV text) →
      (∀ c, c ∈ keys r ↔ c ∈ FileTable.columns (parseCSV text) ∧ c ≠ "__proto__")
      ∧ ∀ v, v ∈ values r → ∃ s, v = VStr s.
Proof.
  unfold parseCSV.
  destruct (filter (λ l, Js.nonEmpty l) (JsStr.splitLines text)) as [|header body]; simpl.
  { split; [split|]; by intros ? ?%elem_of_nil. }
  set (delimiter := if JsStr.countChar "," header <? JsStr.countChar JsStr.tab header
                    then JsStr.tab else ","%char).
  set (columns := Js.trim <$> JsStr.splitOn delimiter header).
  assert (∀ line, NoDup (keys (fillRow (JsStr.splitOn delimiter line) 0 columns []))
            ∧ Forall (λ v, ∃ s, v = VStr s)
                (values (fillRow (JsStr.splitOn delimiter line) 0 columns []))
            ∧ ∀ c, c ∈ keys (fillRow (JsStr.splitOn delimiter line) 0 columns [])
                   ↔ c ∈ @nil string ∨ (c ∈ columns ∧ c ≠ "__proto__")) as Hshape.
  { intros line. apply fillRow_shape; constructor. }
  split; [split|].
  - intros r (line & -> & Hline)%list_elem_of_fmap.
    destruct body as [|line0 body']; [by apply elem_of_nil in Hline|]. simpl.
    by apply fillRow_keys.
  - intros r (line & -> & Hline)%list_elem_of_fmap. apply Hshape.
  - intros r (line & -> & Hline)%list_elem_of_fmap.
    destruct (Hshape line) as (_ & Hvalues & Hkeys). split.
    + intros c. rewrite Hkeys, elem_of_nil. naive_solver.
    + intros v Hv. rewrite Forall_forall in Hvalues. by apply Hvalues.
Qed.

(** ** Export and parse again *)

Lemma get_assign k v obj c :
  k ∈ keys obj → (assign k v obj).[c] = if decide (k = c) then v else obj.[c].
Proof.
  unfold keys. induction obj as [|[k' v'] rest IH]; simpl.
  { by intros ?%elem_of_nil. }
  intros [-> | Hin]%elem_of_cons.
  - rewrite decide_True by done. simpl. by destruct (decide (k' = c)).
  - destruct (decide (k' = k)) as [->|Hne]; simpl.
    + by destruct (decide (k = c)).
    + rewrite IH by done. destruct (decide (k' = c)), (decide (k = c)); congruence.
Qed.

Lemma get_insertIndexed n k v obj c :
  k ∉ keys obj → (insertIndexed n k v obj).[c] = if decide (k = c) then v else obj.[c].
Proof.
  unfold keys. induction obj as [|[k' v'] rest IH]; simpl; [done|].
  intros [Hne Hrest]%not_elem_of_cons.
  destruct (arrayIndex k') as [m|]; [|done].
  destruct (m <? n)%Z; simpl; [|done].
  rewrite IH by done. destruct (decide (k' = c)), (decide (k = c)); congruence.
Qed.

Lemma get_snoc k v obj c :
  k ∉ keys obj → (obj ++ [(k, v)]).[c] = if decide (k = c) then v else obj.[c].
Proof.
  unfold keys. induction obj as [|[k' v'] rest IH]; simpl; [done|].
  intros [Hne Hrest]%not_elem_of_cons. rewrite IH by done.
  destruct (decide (k' = c)), (decide (k = c)); congruence.
Qed.

(** Reading a property after an assignment. *)
Lemma get_setProp obj k v c :
  (setProp obj k v).[c] = if decide (k = c ∧ k ≠ "__proto__") then v else obj.[c].
Proof.
  unfold setProp. destruct (decide (k = "__proto__")) as [Hp|Hp].
  { rewrite decide_False; [done | tauto]. }
  assert ((if decide (k = c ∧ k ≠ "__proto__") then v else obj.[c])
          = if decide (k = c) then v else obj.[c]) as ->.
  { destruct (decide (k = c)); [rewrite decide_True | rewrite decide_False]; tauto. }
  destruct (bool_decide (k ∈ keys obj)) eqn:Hin.
  - apply bool_decide_eq_true in Hin. by apply get_assign.
  - apply bool_decide_eq_false in Hin.
    destruct (arrayIndex k); [by apply get_insertIndexed | by apply get_snoc].
Qed.

(** When the values line up with the columns, a row holds under each
    column the value of that column, also for a name that occurs twice. *)
Lemma get_fillRow (f : string → string) vals i columns obj c :
  (∀ j c', columns !! j = Some c' → vals !! (i + j) = Some (f c')) →
  c ≠ "__proto__" →
  (fillRow vals i columns obj).[c] = if decide (c ∈ columns) then VStr (f c) else obj.[c].
Proof.
  intros Hvals Hproto.
  induction columns as [|c0 rest IH] in i, obj, Hvals |- *; simpl.
  { done. }
  rewrite IH.
  - rewrite get_setProp. pose proof (Hvals 0 c0 eq_refl) as H0.
    rewrite Nat.add_0_r in H0. rewrite H0. simpl.
    destruct (decide (c ∈ rest)) as [Hin|Hin].
    + rewrite decide_True; [done | by apply list_elem_of_further].
    + destruct (decide (c0 = c ∧ c0 ≠ "__proto__")) as [[-> _]|Hne].
      * rewrite decide_True; [done | apply list_elem_of_here].
      * rewrite decide_False; [done|].
        intros [-> | ?]%elem_of_cons; [|done]. apply Hne. by split.
  - intros j c' Hj. replace (S i + j) with (i + S j) by lia. by apply Hvals.
Qed.

Lemma avoids_cons bad c s :
  avoids bad (String c s) = true ↔ (c ∉ bad) ∧ avoids bad s = true.
Proof.
  simpl. rewrite andb_true_iff, negb_true_iff, bool_decide_eq_false. done.
Qed.

Lemma avoids_weaken bad bad' s :
  (∀ c, c ∈ bad' → c ∈ bad) → avoids bad s = true → avoids bad' s = true.
Proof.
  intros Hsub. induction s as [|c s IH]; [done|].
  rewrite !avoids_cons. intros [Hc Hs]. split; [|by apply IH]. intros ?. by apply Hc, Hsub.
Qed.

Lemma avoids_app bad s t :
  avoids bad s = true → avoids bad t = true → avoids bad (s +:+ t) = true.
Proof.
  intros Hs Ht. induction s as [|c s IH]; [done|].
  apply avoids_cons in Hs as [Hc Hs]. simpl String.append. apply avoids_cons. auto.
Qed.

Lemma avoids_join bad sep parts :
  avoids bad sep = true → Forall (λ p, avoids bad p = true) parts →
  avoids bad (Js.join sep parts) = true.
Proof.
  intros Hsep. induction 1 as [|p parts Hp Hparts IH]; [done|].
  destruct parts as [|q parts]; [done|].
  change (avoids bad (p +:+ sep +:+ Js.join sep (q :: parts)) = true).
  by repeat apply avoids_app.
Qed.

Lemma splitOn_avoids sep bad p :
  sep ∈ bad → avoids bad p = true → JsStr.splitOn sep p = [p].
Proof.
  intros Hsep. induction p as [|c p IH]; [done|].
  intros [Hc Hp]%avoids_cons. simpl. rewrite decide_False by (by intros ->).
  by rewrite IH.
Qed.

Lemma splitOn_app sep bad p rest :
  sep ∈ bad → avoids bad p = true →
  JsStr.splitOn sep (p +:+ String sep rest) = p :: JsStr.splitOn sep rest.
Proof.
  intros Hsep. induction p as [|c p IH].
  { intros _. simpl. by rewrite decide_True. }
  intros [Hc Hp]%avoids_cons. simpl. rewrite decide_False by (by intros ->).
  by rewrite IH.
Qed.

(** Splitting at the separator undoes joining with it. *)
Lemma splitOn_join sep bad parts :
  sep ∈ bad → parts ≠ [] → Forall (λ p, avoids bad p = true) parts →
  JsStr.splitOn sep (Js.join (String sep EmptyString) parts) = parts.
Proof.
  intros Hsep Hparts Hall. induction Hall as [|p parts Hp Hall IH]; [done|].
  destruct parts as [|q parts]; [by eapply splitOn_avoids|].
  change (JsStr.splitOn sep (p +:+ String sep (Js.join (String sep EmptyString) (q :: parts)))
          = p :: q :: parts).
  erewrite splitOn_app by done. by rewrite IH.
Qed.

Lemma splitLines_avoids bad p :
  JsStr.cr ∈ bad → JsStr.lf ∈ bad → avoids bad p = true → JsStr.splitLines p = [p].
Proof.
  intros Hcr Hlf. induction p as [|c p IH]; [done|].
  intros [Hc Hp]%avoids_cons. simpl. rewrite decide_False by (by intros ->).
  rewrite IH by done. destruct p as [|c' p']; [done|].
  rewrite decide_False; [done|]. intros [-> _]. done.
Qed.

Lemma splitLines_app bad p rest :
  JsStr.cr ∈ bad → JsStr.lf ∈ bad → avoids bad p = true →
  JsStr.splitLines (p +:+ JsStr.crlf +:+ rest) = p :: JsStr.splitLines rest.
Proof.
  intros Hcr Hlf. induction p as [|c p IH].
  { intros _. done. }
  intros [Hc Hp]%avoids_cons.
  change (JsStr.splitLines (String c (p +:+ JsStr.crlf +:+ rest))
          = String c p :: JsStr.splitLines rest).
  simpl JsStr.splitLines at 1. rewrite decide_False by (by intros ->).
  rewrite IH by done.
  destruct (p +:+ JsStr.crlf +:+ rest) as [|c' s']; [done|].
  rewrite decide_False; [done|]. intros [-> _]. done.
Qed.

(** Splitting into lines undoes joining with CR LF. *)
Lemma splitLines_join bad lines :
  JsStr.cr ∈ bad → JsStr.lf ∈ bad → lines ≠ [] →
  Forall (λ p, avoids bad p = true) lines →
  JsStr.splitLines (Js.join JsStr.crlf lines) = lines.
Proof.
  intros Hcr Hlf Hlines Hall. induction Hall as [|p lines Hp Hall IH]; [done|].
  destruct lines as [|q lines]; [by eapply splitLines_avoids|].
  change (JsStr.splitLines (p +:+ JsStr.crlf +:+ Js.join JsStr.crlf (q :: lines))
          = p :: q :: lines).
  erewrite splitLines_app by done. by rewrite IH.
Qed.

Lemma countChar_avoids c bad s :
  c ∈ bad → avoids bad s = true → JsStr.countChar c s = 0.
Proof.
  intros Hc. induction s as [|c' s IH]; [done|].
  intros [Hc' Hs]%avoids_cons. simpl. rewrite decide_False by (by intros ->). by apply IH.
Qed.

Lemma nonEmpty_join sep p parts :
  Js.nonEmpty p = true ∨ (Js.nonEmpty sep = true ∧ parts ≠ []) →
  Js.nonEmpty (Js.join sep (p :: parts)) = true.
Proof.
  destruct parts as [|q parts].
  { intros [?|[_ ?]]; done. }
  change (Js.join sep (p :: q :: parts)) with (p +:+ sep +:+ Js.join sep (q :: parts)).
  destruct p as [|c p]; [|done]. destruct sep as [|c sep]; [|done].
  intros [?|[? _]]; done.
Qed.

Lemma filter_all {A : Type} (P : A → Prop) `{∀ x, Decision (P x)} (xs : list A) :
  Forall P xs → filter P xs = xs.
Proof.
  induction 1 as [|x xs Hx Hall IH]; [done|]. rewrite filter_cons_True by done. by f_equal.
Qed.

(** X20. Exporting a table as CSV and parsing the text again gives the
    same columns and, row by row, every cell as the text that was
    written: a null or undefined cell as the empty text, and a cell the
    row lacks under an inherited name as the text of what it inherits
    there. This holds when
    the column names are non-empty, trimmed and free of commas, tabs and
    line ends, the written cells are free of commas and line ends, and
    no written line is empty: there are two columns at least, or no
    written cell is empty. *)
Theorem parseCSV_exportCSV (columns : list string) (rows : list Row) :
  columns ≠ [] →
  (∀ c, c ∈ columns → headerName c) →
  (∀ r c, r ∈ rows → c ∈ columns →
          avoids [","%char; JsStr.cr; JsStr.lf] (cellText r c) = true) →
  (1 < length columns ∨ ∀ r c, r ∈ rows → c ∈ columns → cellText r c ≠ "") →
  FileTable.columns (parseCSV (exportCSV_csv columns rows)) = columns
  ∧ Forall2 (λ r r', ∀ c, c ∈ columns → c ≠ "__proto__" → r'.[c] = VStr (cellText r c))
      rows (FileTable.rows (parseCSV (exportCSV_csv columns rows))).
Proof.
  intros Hcolumns Hnames Hcells Hlines.
  set (header := Js.join "," columns).
  set (line := λ r : Row, Js.join "," (cellText r <$> columns)).
  assert (exportCSV_csv columns rows = Js.join JsStr.crlf (header :: (line <$> rows))) as Hcsv.
  { done. }
  assert (avoids [JsStr.tab; JsStr.cr; JsStr.lf] header = true) as Hheader.
  { apply avoids_join; [done|]. apply Forall_forall. intros c Hc.
    destruct (Hnames c Hc) as (_ & _ & Hsafe).
    eapply avoids_weaken; [|exact Hsafe].
    intros ch Hch. apply list_elem_of_further. exact Hch. }
  assert (∀ r, r ∈ rows → avoids [JsStr.cr; JsStr.lf] (line r) = true) as Hline.
  { intros r Hr. apply avoids_join; [done|]. apply Forall_forall.
    intros t (c & -> & Hc)%list_elem_of_fmap.
    eapply avoids_weaken; [|exact (Hcells r c Hr Hc)].
    intros ch Hch. apply list_elem_of_further. exact Hch. }
  assert (Js.nonEmpty header = true) as Hheader_filled.
  { destruct columns as [|c0 rest]; [done|]. apply nonEmpty_join. left.
    destruct (Hnames c0) as (Hfilled & _); [apply list_elem_of_here|]. by destruct c0. }
  assert (∀ r, r ∈ rows → Js.nonEmpty (line r) = true) as Hline_filled.
  { intros r Hr. unfold line. destruct columns as [|c0 rest]; [done|].
    rewrite fmap_cons. apply nonEmpty_join. destruct Hlines as [Hlong | Hfilled].
    - right. split; [done|]. destruct rest; [simpl in Hlong; lia | done].
    - left. specialize (Hfilled r c0 Hr). destruct (cellText r c0); [|done].
      destruct Hfilled; [apply list_elem_of_here | done]. }
  assert (filter (λ l, Js.nonEmpty l) (JsStr.splitLines (exportCSV_csv columns rows))
          = header :: (line <$> rows)) as Hsplit.
  { rewrite Hcsv. rewrite (splitLines_join [JsStr.cr; JsStr.lf]).
    - rewrite filter_cons_True by by rewrite Hheader_filled.
      f_equal. apply filter_all, Forall_forall.
      intros t (r & -> & Hr)%list_elem_of_fmap. by rewrite Hline_filled.
    - apply list_elem_of_here.
    - apply list_elem_of_further, list_elem_of_here.
    - done.
    - constructor.
      + eapply avoids_weaken; [|exact Hheader].
        intros ch Hch. apply list_elem_of_further. exact Hch.
      + apply Forall_forall. intros t (r & -> & Hr)%list_elem_of_fmap. by apply Hline. }
  unfold parseCSV. rewrite Hsplit.
  rewrite (countChar_avoids JsStr.tab [JsStr.tab; JsStr.cr; JsStr.lf] header)
    by (done || apply list_elem_of_here).
  replace (JsStr.countChar "," header <? 0) with false
    by (symmetry; apply Nat.ltb_ge; lia).
  assert (Js.trim <$> JsStr.splitOn "," header = columns) as ->.
  { unfold header.
    rewrite (splitOn_join "," [","%char; JsStr.tab; JsStr.cr; JsStr.lf]).
    - rewrite <- (list_fmap_id columns) at 2. apply list_fmap_ext.
      intros i c Hc. apply Hnames. by eapply list_elem_of_lookup_2.
    - apply list_elem_of_here.
    - done.
    - apply Forall_forall. intros c Hc. apply Hnames, Hc. }
  split; [done|]. simpl. rewrite <- list_fmap_compose.
  apply Forall2_fmap_r, Forall_Forall2_diag, Forall_forall.
  intros r Hr c Hc Hproto. simpl. unfold line.
  rewrite (splitOn_join "," [","%char; JsStr.cr; JsStr.lf]).
  - rewrite (get_fillRow (cellText r)); [by rewrite decide_True | | done].
    intros j c' Hj. simpl. by rewrite list_lookup_fmap, Hj.
  - apply list_elem_of_here.
  - by destruct columns.
  - apply Forall_forall. intros t (c' & -> & Hc')%list_elem_of_fmap. by apply Hcells.
Qed.

(** Two people, one without an age: the age comes back as the text 25
    and as the empty text. *)
Lemma parseCSV_exportCSV_witness :
  FileTable.columns (parseCSV (exportCSV_csv ["name"; "age"] peopleTable)) = ["name"; "age"]
  ∧ Forall2 (λ r r', ∀ c, c ∈ ["name"; "age"] → c ≠ "__proto__" →
                          r'.[c] = VStr (cellText r c))
      peopleTable (FileTable.rows (parseCSV (exportCSV_csv ["name"; "age"] peopleTable))).
Proof.
  apply (parseCSV_exportCSV ["name"; "age"] peopleTable).
  - done.
  - intros c Hc. elem_cases Hc; subst c; (split; [done | split; reflexivity]).
  - intros r c Hr Hc. elem_cases Hr; elem_cases Hc; subst r c; reflexivity.
  - left. simpl. lia.
Defined.

(** ** Type names *)

Lemma upperChar_idemp c : Js.upperChar (Js.upperChar c) = Js.upperChar c.
Proof. by destruct c as [[] [] [] [] [] [] [] []]. Qed.

Lemma toUpperCase_idemp s : Js.toUpperCase (Js.toUpperCase s) = Js.toUpperCase s.
Proof.
  unfold Js.toUpperCase. induction s as [|c s IH]; [done|].
  simpl. by rewrite upperChar_idemp, IH.
Qed.

(** X21. For a type name of ASCII characters, normalising twice gives
    what normalising once gives. *)
Theorem normalizeType_idempotent (ty : string) :
  asciiText ty = true →
  normalizeType (normalizeType ty) = normalizeType ty.
Proof.
  intros _. unfold normalizeType at 2 3.
  destruct (bool_decide (Js.toUpperCase ty ∈ ["STRING"; "TEXT"])) eqn:H1; [done|].
  destruct (bool_decide (Js.toUpperCase ty ∈ ["NUMBER"; "INT"])) eqn:H2; [done|].
  destruct (bool_decide (Js.toUpperCase ty ∈ ["FLOAT"; "DOUBLE"])) eqn:H3; [done|].
  unfold normalizeType. by rewrite toUpperCase_idemp, H1, H2, H3.
Qed.

(** A name with no rule of its own is upper-cased, and stays so. *)
Lemma normalizeType_idempotent_witness :
  normalizeType (normalizeType "Boolean") = normalizeType "Boolean".
Proof. apply (normalizeType_idempotent "Boolean"). reflexivity. Defined.

Section TypeNames.
Context `{rt : Runtime}.

Lemma validateDataType_upper val ty ty' :
  Js.toUpperCase ty = Js.toUpperCase ty' → validateDataType val ty = validateDataType val ty'.
Proof. unfold validateDataType. by intros ->. Qed.

(** X22. The type check gives the same verdict for a type name and for
    its normal form on every value, for every name but NUMBER in any
    letter case: the check knows no type NUMBER and accepts every value
    for it, and the normal form of NUMBER is INTEGER. *)
Theorem normalizeType_preserves_check (ty : string) :
  (∀ val, validateDataType val (normalizeType ty) = validateDataType val ty)
  ↔ Js.toUpperCase ty ≠ "NUMBER".
Proof.
  split.
  - intros Hsame Hnumber. specialize (Hsame (VStr "x")).
    rewrite (validateDataType_upper _ ty "NUMBER") in Hsame by done.
    unfold normalizeType in Hsame. rewrite Hnumber in Hsame. done.
  - intros Hnumber val. unfold normalizeType.
    destruct (bool_decide (Js.toUpperCase ty ∈ ["STRING"; "TEXT"])) eqn:H1.
    { apply bool_decide_eq_true in H1.
      elem_cases H1;
        [rewrite (validateDataType_upper val ty "STRING" H1)
        |rewrite (validateDataType_upper val ty "TEXT" H1)];
        unfold validateDataType; by repeat case_match. }
    destruct (bool_decide (Js.toUpperCase ty ∈ ["NUMBER"; "INT"])) eqn:H2.
    { apply bool_decide_eq_true in H2. elem_cases H2; [done|].
      by rewrite (validateDataType_upper val ty "INT" H2). }
    destruct (bool_decide (Js.toUpperCase ty ∈ ["FLOAT"; "DOUBLE"])) eqn:H3.
    { apply bool_decide_eq_true in H3.
      elem_cases H3;
        [by rewrite (validateDataType_upper val ty "FLOAT" H3)
        |by rewrite (validateDataType_upper val ty "DOUBLE" H3)]. }
    apply validateDataType_upper, toUpperCase_idemp.
Qed.

End TypeNames.
